(** * xiaomi-avbroot: unpacking and re-signing a fastboot image set

    A shallow embedding of [xiaomi-avbroot.py] and of the part of Python's
    [graphlib] it calls, with the properties of the pack order, of the
    descriptor propagation, of the metadata template, of the LP slot
    mapping and of the version gate. *)

From Stdlib Require Import ZArith Lia Ascii.
From stdpp Require Import gmap strings pretty list fin_maps relations.

Local Open Scope Z_scope.

(** ** Exceptions and results *)

(** The Python exceptions the script and [graphlib] can raise.
    [FuelExhausted] is not a Python exception: it is what the fuelled loops
    of the model return when their fuel runs out, and the theorems show
    that the fuel they are given is always enough. *)
Inductive error : Type :=
| ValueError (msg : string)
| KeyError (key : string)
| AssertionError (msg : string)
| CycleError (msg : string) (cycle : list string)
| FileNotFoundError (path : string)
| CalledProcessError (cmd : list string)
| SystemExit (code : Z)
| FuelExhausted.

Inductive result (A : Type) : Type :=
| Ok (a : A)
| Err (e : error).
Arguments Ok {A} a.
Arguments Err {A} e.

Global Instance result_bind : MBind result := fun A B k r =>
  match r with
  | Ok a => k a
  | Err e => Err e
  end.

Global Instance result_ret : MRet result := fun A a => Ok a.

(** A [for] loop whose body may raise: the first exception ends the loop. *)
Fixpoint for_each {A S} (body : A → S → result S) (l : list A) (s : S)
  : result S :=
  match l with
  | [] => Ok s
  | x :: l' => s' ← body x s; for_each body l' s'
  end.

(** ** [graphlib.TopologicalSorter] (Python standard library) *)

Module graphlib.

Definition NODE_OUT : Z := -1.
Definition NODE_DONE : Z := -2.

Record NodeInfo : Type := mkNodeInfo {
  node : string;
  npredecessors : Z;
  successors : list string
}.

(** [_node2info] is a dict: a finite map together with the order in which
    its keys were inserted, which is the order Python iterates it in. *)
Record TopologicalSorter : Type := mkSorter {
  node2info : gmap string NodeInfo;
  node2info_keys : list string;
  ready_nodes : option (list string);
  npassedout : Z;
  nfinished : Z
}.

Definition new_sorter : TopologicalSorter :=
  mkSorter ∅ [] None 0 0.

Definition set_npredecessors (n : Z) (i : NodeInfo) : NodeInfo :=
  mkNodeInfo (node i) n (successors i).

Definition add_npredecessors (n : Z) (i : NodeInfo) : NodeInfo :=
  mkNodeInfo (node i) (npredecessors i + n) (successors i).

Definition append_successor (s : string) (i : NodeInfo) : NodeInfo :=
  mkNodeInfo (node i) (npredecessors i) (successors i ++ [s]).

(** [_get_nodeinfo]: the entry of [nd], created at the end of the dict when
    it is missing. *)
Definition get_nodeinfo (nd : string) (m : gmap string NodeInfo)
    (keys : list string) : gmap string NodeInfo * list string :=
  match m !! nd with
  | Some _ => (m, keys)
  | None => (<[nd := mkNodeInfo nd 0 []]> m, keys ++ [nd])
  end.

Definition add_pred (nd : string) (mk : gmap string NodeInfo * list string)
    (pred : string) : gmap string NodeInfo * list string :=
  let '(m, keys) := get_nodeinfo pred mk.1 mk.2 in
  (alter (append_successor nd) pred m, keys).

Definition add (nd : string) (predecessors : list string)
    (s : TopologicalSorter) : result TopologicalSorter :=
  match ready_nodes s with
  | Some _ => Err (ValueError "Nodes cannot be added after a call to prepare()")
  | None =>
      let '(m, keys) := get_nodeinfo nd (node2info s) (node2info_keys s) in
      let m := alter (add_npredecessors (Z.of_nat (length predecessors))) nd m in
      let '(m, keys) := foldl (add_pred nd) (m, keys) predecessors in
      Ok (mkSorter m keys None (npassedout s) (nfinished s))
  end.

(** [TopologicalSorter(graph)]: [graph.items()] is the list of the dict's
    entries, each with its predecessors in the order Python iterates them. *)
Definition init (graph : list (string * list string))
  : result TopologicalSorter :=
  for_each (fun e s => add e.1 e.2 s) graph new_sorter.

(** The inner [while stack] loop of [_find_cycle]. A frame is a stack entry
    together with what is left of its iterator; the top of the stack is the
    head of the list. [None] is the loop's [else] branch (stack empty). *)
Fixpoint backtrack (frames : list (string * list string))
  : option (string * list (string * list string)) :=
  match frames with
  | [] => None
  | (_, []) :: rest => backtrack rest
  | (n, s :: ss) :: rest => Some (s, (n, ss) :: rest)
  end.

(** [stack[node2stacki[node]:]] when [node] is on the stack, read off a
    stack kept top first. *)
Fixpoint stack_from (nd : string) (frames : list (string * list string))
  : list string :=
  match frames with
  | [] => []
  | (n, _) :: rest =>
      if decide (n = nd) then [n] else stack_from nd rest ++ [n]
  end.

Inductive dfs_outcome : Type :=
| Found (cycle : list string)
| Exhausted (seen : list string).

(** The [while True] loop of [_find_cycle], one iteration per unit of
    fuel. [node in node2stacki] is membership in the stack. *)
Fixpoint visit (fuel : nat) (m : gmap string NodeInfo) (nd : string)
    (frames : list (string * list string)) (seen : list string)
  : result dfs_outcome :=
  match fuel with
  | O => Err FuelExhausted
  | S fuel =>
      if decide (nd ∈ seen) then
        if decide (nd ∈ frames.*1) then
          Ok (Found (stack_from nd frames ++ [nd]))
        else
          match backtrack frames with
          | None => Ok (Exhausted seen)
          | Some (nd', frames') => visit fuel m nd' frames' seen
          end
      else
        match m !! nd with
        | None => Err (KeyError nd)
        | Some i =>
            match backtrack ((nd, successors i) :: frames) with
            | None => Ok (Exhausted (nd :: seen))
            | Some (nd', frames') => visit fuel m nd' frames' (nd :: seen)
            end
        end
  end.

Definition total_successors (m : gmap string NodeInfo) (keys : list string)
  : nat :=
  sum_list_with
    (fun k => match m !! k with
              | Some i => length (successors i)
              | None => O
              end) keys.

Definition find_cycle_fuel (m : gmap string NodeInfo) (keys : list string)
  : nat :=
  S (length keys + total_successors m keys).

(** The [for node in n2i] loop of [_find_cycle]. *)
Fixpoint find_cycle_from (fuel : nat) (m : gmap string NodeInfo)
    (todo : list string) (seen : list string) : result (option (list string)) :=
  match todo with
  | [] => Ok None
  | nd :: todo' =>
      if decide (nd ∈ seen) then find_cycle_from fuel m todo' seen
      else
        match visit fuel m nd [] seen with
        | Err e => Err e
        | Ok (Found c) => Ok (Some c)
        | Ok (Exhausted seen') => find_cycle_from fuel m todo' seen'
        end
  end.

Definition find_cycle (s : TopologicalSorter) : result (option (list string)) :=
  find_cycle_from (find_cycle_fuel (node2info s) (node2info_keys s))
    (node2info s) (node2info_keys s) [].

(** [self._node2info.values()], in insertion order. *)
Definition values (m : gmap string NodeInfo) (keys : list string)
  : list NodeInfo :=
  omap (fun k => m !! k) keys.

Definition prepare (s : TopologicalSorter) : result TopologicalSorter :=
  match ready_nodes s with
  | Some _ => Err (ValueError "cannot prepare() more than once")
  | None =>
      let ready :=
        node <$> filter (fun i => npredecessors i = 0)
                   (values (node2info s) (node2info_keys s)) in
      let s' := mkSorter (node2info s) (node2info_keys s) (Some ready)
                  (npassedout s) (nfinished s) in
      cycle ← find_cycle s';
      match cycle with
      | Some (n :: c) => Err (CycleError "nodes are in a cycle" (n :: c))
      | _ => Ok s'
      end
  end.

Definition mark_out (m : gmap string NodeInfo) (nd : string)
  : result (gmap string NodeInfo) :=
  match m !! nd with
  | None => Err (KeyError nd)
  | Some _ => Ok (alter (set_npredecessors NODE_OUT) nd m)
  end.

Definition get_ready (s : TopologicalSorter)
  : result (list string * TopologicalSorter) :=
  match ready_nodes s with
  | None => Err (ValueError "prepare() must be called first")
  | Some ready =>
      m ← for_each (fun nd m => mark_out m nd) ready (node2info s);
      Ok (ready,
          mkSorter m (node2info_keys s) (Some [])
            (npassedout s + Z.of_nat (length ready)) (nfinished s))
  end.

Definition is_active (s : TopologicalSorter) : result bool :=
  match ready_nodes s with
  | None => Err (ValueError "prepare() must be called first")
  | Some ready =>
      Ok (bool_decide (nfinished s < npassedout s)
          || bool_decide (ready ≠ []))
  end.

(** The loop over [nodeinfo.successors] in [done]. *)
Definition release (successor : string)
    (mr : gmap string NodeInfo * list string)
  : result (gmap string NodeInfo * list string) :=
  match mr.1 !! successor with
  | None => Err (KeyError successor)
  | Some i =>
      let n := npredecessors i - 1 in
      Ok (<[successor := set_npredecessors n i]> mr.1,
          if decide (n = 0) then mr.2 ++ [successor] else mr.2)
  end.

Definition done_node (nd : string) (mr : gmap string NodeInfo * list string)
  : result (gmap string NodeInfo * list string) :=
  match mr.1 !! nd with
  | None => Err (ValueError "node was not added using add()")
  | Some i =>
      let stat := npredecessors i in
      if decide (stat ≠ NODE_OUT) then
        if decide (0 ≤ stat) then
          Err (ValueError "node was not passed out (still not ready)")
        else if decide (stat = NODE_DONE) then
          Err (ValueError "node was already marked done")
        else Err (AssertionError "unknown status")
      else
        for_each release (successors i)
          (<[nd := set_npredecessors NODE_DONE i]> mr.1, mr.2)
  end.

Definition done (nodes : list string) (s : TopologicalSorter)
  : result TopologicalSorter :=
  match ready_nodes s with
  | None => Err (ValueError "prepare() must be called first")
  | Some ready =>
      '(m, ready') ← for_each done_node nodes (node2info s, ready);
      Ok (mkSorter m (node2info_keys s) (Some ready') (npassedout s)
            (nfinished s + Z.of_nat (length nodes)))
  end.

(** The [while self.is_active()] loop of [static_order]; [out] collects
    what the generator has yielded. *)
Fixpoint static_order_loop (fuel : nat) (s : TopologicalSorter)
    (out : list string) : result (list string) :=
  match fuel with
  | O => Err FuelExhausted
  | S fuel =>
      active ← is_active s;
      if active : bool then
        '(node_group, s1) ← get_ready s;
        s2 ← done node_group s1;
        static_order_loop fuel s2 (out ++ node_group)
      else Ok out
  end.

(** [list(TopologicalSorter(graph).static_order())]. *)
Definition static_order (graph : list (string * list string))
  : result (list string) :=
  s ← init graph;
  s ← prepare s;
  static_order_loop (S (length (node2info_keys s))) s [].

End graphlib.

(** ** Strings *)

(** [str.startswith], [str.endswith], [str.removesuffix],
    [str.removeprefix] and [str * int]. *)
Definition startswith (s pre : string) : bool := String.prefix pre s.

Definition endswith (s suf : string) : bool :=
  let n := String.length s in
  let k := String.length suf in
  (k <=? n)%nat && String.eqb (String.substring (n - k) k s) suf.

Definition removesuffix (s suf : string) : string :=
  if endswith s suf
  then String.substring 0 (String.length s - String.length suf) s
  else s.

Definition removeprefix (s pre : string) : string :=
  if startswith s pre
  then String.substring (String.length pre)
         (String.length s - String.length pre) s
  else s.

Fixpoint str_mul (s : string) (n : nat) : string :=
  match n with
  | O => ""
  | S n' => s +:+ str_mul s n'
  end.

(** ** The metadata of an image ([avb.toml]) *)

(** The scalar values of a descriptor's fields. *)
Inductive value : Type :=
| VStr (s : string)
| VInt (z : Z)
| VBool (b : bool).

Global Instance value_eq_dec : EqDecision value.
Proof. solve_decision. Defined.

(** A descriptor is the dict the TOML table loads as. *)
Abbreviation descriptor := (gmap string value).

(** [descriptor['partition_name']] when the key is present. avbroot writes
    the name as a string; a value of another kind under that key is outside
    its schema and is read here as no name. *)
Definition partition_name_of (d : descriptor) : option string :=
  match d !! "partition_name" with
  | Some (VStr s) => Some s
  | _ => None
  end.

Record Header : Type := mkHeader {
  required_libavb_version_major : Z;
  required_libavb_version_minor : Z;
  algorithm_type : string;
  hash : string;
  signature : string;
  public_key : string;
  public_key_metadata : string;
  rollback_index : Z;
  flags : Z;
  rollback_index_location : Z;
  release_string : string;
  reserved : string;
  descriptors : list descriptor
}.

Record Footer : Type := mkFooter {
  version_major : Z;
  version_minor : Z;
  original_image_size : Z;
  vbmeta_offset : Z;
  vbmeta_size : Z;
  footer_reserved : string
}.

Record AvbInfo : Type := mkAvbInfo {
  image_size : Z;
  header : Header;
  footer : option Footer
}.

Definition set_descriptors (ds : list descriptor) (h : Header) : Header :=
  mkHeader (required_libavb_version_major h) (required_libavb_version_minor h)
    (algorithm_type h) (hash h) (signature h) (public_key h)
    (public_key_metadata h) (rollback_index h) (flags h)
    (rollback_index_location h) (release_string h) (reserved h) ds.

Definition set_flags (f : Z) (h : Header) : Header :=
  mkHeader (required_libavb_version_major h) (required_libavb_version_minor h)
    (algorithm_type h) (hash h) (signature h) (public_key h)
    (public_key_metadata h) (rollback_index h) f
    (rollback_index_location h) (release_string h) (reserved h)
    (descriptors h).

Definition set_header (h : Header) (i : AvbInfo) : AvbInfo :=
  mkAvbInfo (image_size i) h (footer i).

(** ** [avb_generate_metadata] *)

(** The function first prints [descriptor['partition_name']], then reads
    [descriptor['type']]; either raises [KeyError] when the key is
    missing. *)
Definition avb_generate_metadata (d : descriptor) : result AvbInfo :=
  match d !! "partition_name" with
  | None => Err (KeyError "partition_name")
  | Some _ =>
      match d !! "type" with
      | None => Err (KeyError "type")
      | Some ty =>
          let is_signed := bool_decide (ty = VStr "ChainPartition") in
          Ok {|
            image_size := 0;
            header := {|
              required_libavb_version_major := 1;
              required_libavb_version_minor := 0;
              algorithm_type := if is_signed then "Sha256Rsa4096" else "None";
              hash := if is_signed then str_mul "0" 64 else "";
              signature := if is_signed then str_mul "0" 512 else "";
              public_key := if is_signed then str_mul "0" 1032 else "";
              public_key_metadata := "";
              rollback_index := 0;
              flags := 0;
              rollback_index_location := 0;
              release_string := "avbtool 1.3.0";
              reserved := str_mul "0" 160;
              descriptors := [d]
            |};
            footer := Some {|
              version_major := 1;
              version_minor := 0;
              original_image_size := 0;
              vbmeta_offset := 0;
              vbmeta_size := 0;
              footer_reserved := str_mul "0" 56
            |}
          |}
      end
  end.

(** ** The world the script runs in *)

(** An image handed to [avbroot avb unpack]: a file of the input directory
    or an image of the unpacked super partition. *)
Inductive image : Type :=
| InputImage (file : string)
| LpImage (lp_name : string).

(** What the script does to the outside: the [avbroot] commands it runs and
    the directories and files it creates, in order. Directories are named
    relative to the output directory: [CallMkdir dir] stands for
    [(output_dir / dir).mkdir], [InputImage file] for [input_dir / file].
    The names are kept as the script has them, before [pathlib] joins
    them; which entry of its directory a name designates is a matter of
    the theorems (see [plain_name]). *)
Inductive call : Type :=
| CallVersion
| CallMkdirOutput
| CallMkdir (dir : string)
| CallAvbInfo (lp_name : string)
| CallAvbUnpack (img : image) (dir : string)
| CallAvbPack (name : string) (info : AvbInfo) (extra_args : list string)
| CallAvbVerify
| CallSparseUnpack (file : string)
| CallLpUnpack
| CallLpPack
| CallRename (src dst : string)
| CallRmtree (dir : string).

(** What the script cannot decide: how this run of the interpreter iterates
    a set of strings (CPython orders it by the strings' hashes, which are
    salted per process), what [avbroot] answers, and what the input
    directory holds. *)
Record World : Type := mkWorld {
  iter_set : gset string → list string;
  version_stdout : result string;
  avb_info_ok : string → bool;
  avb_unpack_out : image → option AvbInfo;
  avb_pack_out : string → AvbInfo → list string → option AvbInfo;
  avb_verify_ok : bool;
  sparse_unpack_ok : string → bool;
  lp_unpack_out : option (list (list string) * gmap string Z);
  lp_pack_ok : bool;
  input_files : list string;
  input_lp_toml : option (list (list string))
}.

(** An iteration order lists exactly the elements of the set. *)
Definition iter_ok (iter : gset string → list string) : Prop :=
  ∀ s x, x ∈ iter s ↔ x ∈ s.

(** The files the run reads and writes: the [avb.toml] of each image
    directory, the packed images of the output directory, the images under
    [super/lp_images] with their sizes, and the trace of calls. The files
    are kept by name, as on a file system that tells the entries of a
    directory apart by their names, byte for byte; the input and the
    output directory of an unpack run are taken to be apart, neither
    inside the other. No file has a name with NUL in it: the operating
    system takes no such path, and what the script does on one (every
    access raises [ValueError]) is left out. *)
Record FS : Type := mkFS {
  calls : list call;
  tomls : gmap string AvbInfo;
  out_images : gset string;
  lp_images : gmap string Z
}.

(** Computations that read and write the files and may raise. *)
Definition M (A : Type) : Type := FS → result A * FS.

Definition retM {A} (a : A) : M A := fun s => (Ok a, s).

Definition raiseM {A} (e : error) : M A := fun s => (Err e, s).

Definition bindM {A B} (c : M A) (k : A → M B) : M B :=
  fun s =>
    match c s with
    | (Ok a, s') => k a s'
    | (Err e, s') => (Err e, s')
    end.

Notation "'let*' x ':=' c 'in' k" := (bindM c (fun x => k))
  (at level 10, x pattern, c at level 200, k at level 200, only parsing).

Definition liftM {A} (r : result A) : M A := fun s => (r, s).

(** A [for] loop threading the loop's local variables [v]. *)
Fixpoint for_M {A V} (body : A → V → M V) (l : list A) (v : V) : M V :=
  match l with
  | [] => retM v
  | x :: l' => let* v' := body x v in for_M body l' v'
  end.

Definition log (c : call) : M unit :=
  fun s => (Ok tt, mkFS (calls s ++ [c]) (tomls s) (out_images s) (lp_images s)).

Definition read_toml (dir : string) : M AvbInfo :=
  fun s =>
    match tomls s !! dir with
    | Some i => (Ok i, s)
    | None => (Err (FileNotFoundError (dir +:+ "/avb.toml")), s)
    end.

Definition write_toml (dir : string) (i : AvbInfo) : M unit :=
  fun s =>
    (Ok tt, mkFS (calls s) (<[dir := i]> (tomls s)) (out_images s) (lp_images s)).

Definition set_out_images (imgs : gset string) : M unit :=
  fun s => (Ok tt, mkFS (calls s) (tomls s) imgs (lp_images s)).

Definition set_lp_images (imgs : gmap string Z) : M unit :=
  fun s => (Ok tt, mkFS (calls s) (tomls s) (out_images s) imgs).

Definition get_fs : M FS := fun s => (Ok s, s).

(** ** [check_avbroot_version] *)

Definition AVBROOT_REQUIRED_VERSION : list Z := [3; 19; 0].

(** [str.isspace] on an ASCII character. *)
Definition isspace (c : ascii) : bool :=
  let n := nat_of_ascii c in
  ((9 <=? n) && (n <=? 13) || (28 <=? n) && (n <=? 32))%nat.

Fixpoint lstrip (s : string) : string :=
  match s with
  | String c s' => if isspace c then lstrip s' else s
  | EmptyString => EmptyString
  end.

Fixpoint rstrip (s : string) : string :=
  match s with
  | String c s' =>
      match rstrip s' with
      | EmptyString => if isspace c then EmptyString else String c EmptyString
      | r => String c r
      end
  | EmptyString => EmptyString
  end.

Definition strip (s : string) : string := rstrip (lstrip s).

(** [s.split('.')]. *)
Fixpoint split_dot (s : string) : list string :=
  match s with
  | EmptyString => [EmptyString]
  | String c s' =>
      if Ascii.eqb c "."%char then EmptyString :: split_dot s'
      else match split_dot s' with
           | w :: ws => String c w :: ws
           | [] => [String c EmptyString]
           end
  end.

Definition digit_of (c : ascii) : option Z :=
  let n := nat_of_ascii c in
  if ((48 <=? n) && (n <=? 57))%nat then Some (Z.of_nat n - 48) else None.

(** The digits of a decimal literal, most significant first; single
    underscores may separate digits. [after_digit] tells whether the
    previous character was a digit. *)
Fixpoint int_digits (s : string) (after_digit : bool) (acc : Z) (n : nat)
  : option (Z * nat) :=
  match s with
  | EmptyString => if after_digit then Some (acc, n) else None
  | String c s' =>
      match digit_of c with
      | Some d => int_digits s' true (10 * acc + d) (S n)
      | None =>
          if Ascii.eqb c "_"%char && after_digit
          then match s' with
               | EmptyString => None
               | _ => int_digits s' false acc n
               end
          else None
      end
  end.

(** The whitespace [int] skips around a literal of ASCII characters: the
    characters 9 to 13 and the space. The separators 28 to 31, which
    [str.strip] removes, are not part of it. *)
Definition is_int_space (c : ascii) : bool :=
  let n := nat_of_ascii c in
  ((9 <=? n) && (n <=? 13) || (n =? 32))%nat.

Fixpoint int_lstrip (s : string) : string :=
  match s with
  | String c s' => if is_int_space c then int_lstrip s' else s
  | EmptyString => EmptyString
  end.

Fixpoint int_rstrip (s : string) : string :=
  match s with
  | String c s' =>
      match int_rstrip s' with
      | EmptyString => if is_int_space c then EmptyString else String c EmptyString
      | r => String c r
      end
  | EmptyString => EmptyString
  end.

Definition int_strip (s : string) : string := int_rstrip (int_lstrip s).

(** [int(v)] on a string: the whitespace [int] skips on both sides, an
    optional sign, decimal digits; [ValueError] otherwise, and beyond 4300
    digits. *)
Definition py_int (v : string) : result Z :=
  let bad :=
    Err (ValueError ("invalid literal for int() with base 10: '" +:+ v +:+ "'")) in
  let body (sign : Z) (s : string) :=
    match int_digits s false 0 O with
    | Some (z, n) =>
        if (4300 <? n)%nat
        then Err (ValueError "Exceeds the limit (4300 digits) for integer string conversion")
        else Ok (sign * z)
    | None => bad
    end in
  match int_strip v with
  | String c s' =>
      if Ascii.eqb c "+"%char then body 1 s'
      else if Ascii.eqb c "-"%char then body (-1) s'
      else body 1 (String c s')
  | EmptyString => bad
  end.

(** [<] on tuples of integers. *)
Fixpoint tuple_lt (a b : list Z) : bool :=
  match a, b with
  | _, [] => false
  | [], _ :: _ => true
  | x :: a', y :: b' => if x =? y then tuple_lt a' b' else x <? y
  end.

Fixpoint is_ascii (s : string) : bool :=
  match s with
  | EmptyString => true
  | String c s' => (nat_of_ascii c <? 128)%nat && is_ascii s'
  end.

(** The version [avbroot --version] prints, as a tuple. *)
Definition parse_version (output : string) : result (string * list Z) :=
  let v := removeprefix output "avbroot " in
  if is_ascii v then
    let version := strip v in
    split ← for_each (fun w acc => z ← py_int w; Ok (acc ++ [z]))
              (split_dot version) [];
    Ok (version, split)
  else Err (ValueError "'ascii' codec can't decode byte").

Definition check_avbroot_version (w : World) : M unit :=
  let* _ := log CallVersion in
  let* output := liftM (version_stdout w) in
  let* vs := liftM (parse_version output) in
  if tuple_lt vs.2 AVBROOT_REQUIRED_VERSION
  then
    let required := String.concat "." (pretty <$> AVBROOT_REQUIRED_VERSION) in
    raiseM (ValueError ("avbroot version " +:+ vs.1 +:+ " < " +:+ required))
  else retM tt.

(** ** The [avbroot] wrappers *)

Definition avb_is_valid (w : World) (lp_name : string) : M bool :=
  let* _ := log (CallAvbInfo lp_name) in
  retM (avb_info_ok w lp_name).

(** [avbroot avb unpack] writes [avb.toml] (and [raw.img]) into the
    directory it runs in. *)
Definition avb_unpack (w : World) (img : image) (dir : string) : M unit :=
  let* _ := log (CallAvbUnpack img dir) in
  match avb_unpack_out w img with
  | Some i => write_toml dir i
  | None => raiseM (CalledProcessError ["avbroot"; "avb"; "unpack"])
  end.

(** [any(d['type'] == 'HashTree' for d in descriptors)]: the generator
    stops at the first match, and [d['type']] raises on a descriptor
    without the key that it reaches. *)
Fixpoint any_hash_tree (ds : list descriptor) : result bool :=
  match ds with
  | [] => Ok false
  | d :: ds' =>
      match d !! "type" with
      | None => Err (KeyError "type")
      | Some ty =>
          if decide (ty = VStr "HashTree") then Ok true
          else any_hash_tree ds'
      end
  end.

Definition avb_pack_extra_args (i : AvbInfo) : result (list string) :=
  b ← any_hash_tree (descriptors (header i));
  Ok (if b : bool then ["--recompute-size"] else []).

(** [avbroot avb pack] writes the image and, with [--output-info],
    overwrites [avb.toml] with the recomputed metadata. *)
Definition avb_pack (w : World) (name : string) : M unit :=
  let* avb_info := read_toml name in
  let* extra_args := liftM (avb_pack_extra_args avb_info) in
  let* _ := log (CallAvbPack name avb_info extra_args) in
  match avb_pack_out w name avb_info extra_args with
  | Some i =>
      let* _ := write_toml name i in
      let* s := get_fs in
      set_out_images ({[name]} ∪ out_images s)
  | None => raiseM (CalledProcessError ["avbroot"; "avb"; "pack"])
  end.

Definition avb_verify (w : World) : M unit :=
  let* _ := log CallAvbVerify in
  if avb_verify_ok w then retM tt
  else raiseM (CalledProcessError ["avbroot"; "avb"; "verify"]).

Definition sparse_unpack (w : World) (file : string) : M unit :=
  let* _ := log (CallSparseUnpack file) in
  if sparse_unpack_ok w file then retM tt
  else raiseM (CalledProcessError ["avbroot"; "sparse"; "unpack"]).

(** [avbroot lp unpack] writes [lp.toml] and the images of [lp_images];
    the result is the list of groups of the first slot of [lp.toml], each
    the names of its partitions. *)
Definition lp_unpack (w : World) : M (list (list string)) :=
  let* _ := log CallLpUnpack in
  match lp_unpack_out w with
  | Some (groups, imgs) => let* _ := set_lp_images imgs in retM groups
  | None => raiseM (CalledProcessError ["avbroot"; "lp"; "unpack"])
  end.

Definition lp_pack (w : World) : M unit :=
  let* _ := log CallLpPack in
  if lp_pack_ok w then retM tt
  else raiseM (CalledProcessError ["avbroot"; "lp"; "pack"]).

(** ** [unpack_subcommand] *)

(** [input_dir.glob('vbmeta*.img')] and [input_dir.glob('super.img.*')]
    on a file name. *)
Definition glob_vbmeta (f : string) : bool :=
  startswith f "vbmeta" && endswith f ".img" && (10 <=? String.length f)%nat.

Definition glob_super (f : string) : bool := startswith f "super.img.".

(** The loop that records, for each name a vbmeta image refers to, the
    descriptor that does. *)
Definition collect_descriptors (ds : list descriptor)
    (avb_descriptors : gmap string descriptor) : gmap string descriptor :=
  foldl (fun acc d =>
           match partition_name_of d with
           | Some pn => <[pn := d]> acc
           | None => acc
           end) avb_descriptors ds.

Definition unpack_vbmeta (w : World) (name : string)
    (avb_descriptors : gmap string descriptor) : M (gmap string descriptor) :=
  let* _ := log (CallMkdir name) in
  let* _ := avb_unpack w (InputImage (name +:+ ".img")) name in
  let* avb_info := read_toml name in
  retM (collect_descriptors (descriptors (header avb_info)) avb_descriptors).

(** The body of the loop over the partitions of the LP metadata;
    [lp_images] is the loop's list of unpacked names. *)
Definition unpack_lp_partition (w : World)
    (avb_descriptors : gmap string descriptor) (lp_name : string)
    (lp_names : list string) : M (list string) :=
  if endswith lp_name "_b" then
    let* s := get_fs in
    match lp_images s !! lp_name with
    | None => raiseM (FileNotFoundError (lp_name +:+ ".img"))
    | Some size =>
        if decide (size ≠ 0)
        then raiseM (ValueError (lp_name +:+ " should be empty"))
        else retM lp_names
    end
  else if negb (endswith lp_name "_a") then
    raiseM (ValueError ("Unknown LP partition name: " +:+ lp_name))
  else
    let name := removesuffix lp_name "_a" in
    let* _ := log (CallMkdir name) in
    let* valid := avb_is_valid w lp_name in
    let* _ :=
      if valid : bool then avb_unpack w (LpImage lp_name) name
      else
        match avb_descriptors !! name with
        | None => raiseM (KeyError name)
        | Some d =>
            let* avb_info := liftM (avb_generate_metadata d) in
            let* _ := write_toml name avb_info in
            let* s := get_fs in
            match lp_images s !! lp_name with
            | None => raiseM (FileNotFoundError (lp_name +:+ ".img"))
            | Some _ =>
                let* _ := log (CallRename (lp_name +:+ ".img")
                                 (name +:+ "/raw.img")) in
                set_lp_images (delete lp_name (lp_images s))
            end
        end in
    retM (lp_names ++ [name]).

Definition unpack_rest (w : World) (name : string) (_ : unit) : M unit :=
  let* _ := log (CallMkdir name) in
  avb_unpack w (InputImage (name +:+ ".img")) name.

(** The names the comprehension over [input_dir.glob('vbmeta*.img')]
    yields, before [set] collects them. *)
Definition vbmeta_names (w : World) : list string :=
  (fun f => removesuffix f ".img")
    <$> filter (fun f => glob_vbmeta f = true) (input_files w).

Definition unpack_subcommand (w : World) : M unit :=
  let* _ := log CallMkdirOutput in
  let vbmeta_images : gset string := list_to_set (vbmeta_names w) in
  let* avb_descriptors :=
    for_M (unpack_vbmeta w) (iter_set w vbmeta_images) ∅ in
  let* _ := for_M (fun f _ => sparse_unpack w f)
              (filter (fun f => glob_super f = true) (input_files w)) tt in
  let* _ := log (CallMkdir "super") in
  let* groups := lp_unpack w in
  let* lp_names :=
    for_M (unpack_lp_partition w avb_descriptors) (concat groups) [] in
  let* _ := log (CallRmtree "super/lp_images") in
  let* _ := set_lp_images ∅ in
  for_M (unpack_rest w)
    (iter_set w (dom avb_descriptors ∖ vbmeta_images
                   ∖ list_to_set lp_names)) tt.

(** ** [pack_subcommand] *)

(** The names a header refers to, its own apart: the set the loop over
    [avb_info['header']['descriptors']] builds for [name]. *)
Definition references (name : string) (i : AvbInfo) : gset string :=
  foldl (fun acc d =>
           match partition_name_of d with
           | Some pn => if decide (pn ≠ name) then {[pn]} ∪ acc else acc
           | None => acc
           end) ∅ (descriptors (header i)).

(** [avb_dep_graph], as the list of its items; [glob] yields each
    directory once. *)
Definition avb_dep_graph (parts : list (string * AvbInfo))
  : list (string * gset string) :=
  (fun p => (p.1, references p.1 p.2)) <$> parts.

(** [graph.items()] as [TopologicalSorter] iterates it: each set in the
    order this run of the interpreter iterates it. *)
Definition graph_items (iter : gset string → list string)
    (g : list (string * gset string)) : list (string * list string) :=
  (fun e => (e.1, iter e.2)) <$> g.

Definition avb_pack_order (iter : gset string → list string)
    (parts : list (string * AvbInfo)) : result (list string) :=
  graphlib.static_order (graph_items iter (avb_dep_graph parts)).

(** The loop over the descriptors of a vbmeta image: the chain descriptor
    of a signed partition gets its new public key, any other descriptor
    with a name is replaced by the partition's recomputed one. *)
Definition propagate_one (avb_descriptors : gmap string descriptor)
    (avb_public_keys : gmap string string) (d : descriptor)
  : result descriptor :=
  match partition_name_of d with
  | None => Ok d
  | Some partition_name =>
      match avb_public_keys !! partition_name with
      | Some pk => Ok (<["public_key" := VStr pk]> d)
      | None =>
          match avb_descriptors !! partition_name with
          | Some d' => Ok d'
          | None => Err (KeyError partition_name)
          end
      end
  end.

Fixpoint propagate (avb_descriptors : gmap string descriptor)
    (avb_public_keys : gmap string string) (ds : list descriptor)
  : result (list descriptor) :=
  match ds with
  | [] => Ok []
  | d :: ds' =>
      d' ← propagate_one avb_descriptors avb_public_keys d;
      ds'' ← propagate avb_descriptors avb_public_keys ds';
      Ok (d' :: ds'')
  end.

(** What the [if is_vbmeta] block writes back to [avb.toml]. *)
Definition prepare_vbmeta (avb_descriptors : gmap string descriptor)
    (avb_public_keys : gmap string string) (i : AvbInfo) : result AvbInfo :=
  ds ← propagate avb_descriptors avb_public_keys (descriptors (header i));
  Ok (set_header
        (set_flags (Z.land (flags (header i)) (Z.lnot 3))
           (set_descriptors ds (header i))) i).

(** The first descriptor of the packed image that names the image. *)
Definition own_descriptor (name : string) (i : AvbInfo) : option descriptor :=
  list_find (fun d => d !! "partition_name" = Some (VStr name))
    (descriptors (header i)) ≫= fun r => Some r.2.

(** The first part of the body of the loop over [avb_pack_order]: the
    [if is_vbmeta] block, which rewrites [avb.toml]. *)
Definition prepare_image (name : string)
    (v : gmap string descriptor * gmap string string) : M unit :=
  let is_vbmeta := startswith name "vbmeta" in
  if is_vbmeta then
    let* avb_info := read_toml name in
    let* avb_info' := liftM (prepare_vbmeta v.1 v.2 avb_info) in
    write_toml name avb_info'
  else retM tt.

(** The body of the loop over [avb_pack_order]; the loop's variables are
    [avb_descriptors] and [avb_public_keys]. *)
Definition pack_image (w : World) (name : string)
    (v : gmap string descriptor * gmap string string)
  : M (gmap string descriptor * gmap string string) :=
  let* _ := prepare_image name v in
  let* _ := avb_pack w name in
  let* avb_info := read_toml name in
  let avb_descriptors :=
    match own_descriptor name avb_info with
    | Some d => <[name := d]> v.1
    | None => v.1
    end in
  let avb_public_keys :=
    if decide (algorithm_type (header avb_info) ≠ "None")
    then <[name := public_key (header avb_info)]> v.2
    else v.2 in
  retM (avb_descriptors, avb_public_keys).

(** The body of the loop that rebuilds [lp_images]. *)
Definition pack_lp_partition (lp_name : string) (_ : unit) : M unit :=
  if endswith lp_name "_a" then
    let name := removesuffix lp_name "_a" in
    let* s := get_fs in
    if decide (name ∈ out_images s) then
      let* _ := log (CallRename (name +:+ ".img")
                       ("super/lp_images/" +:+ lp_name +:+ ".img")) in
      let* _ := set_out_images (out_images s ∖ {[name]}) in
      set_lp_images (<[lp_name := 1]> (lp_images s))
    else raiseM (FileNotFoundError (name +:+ ".img"))
  else if endswith lp_name "_b" then
    let* s := get_fs in
    set_lp_images (<[lp_name := 0]> (lp_images s))
  else raiseM (ValueError ("Unknown LP partition name: " +:+ lp_name)).

(** [glob('*/avb.toml')]: the entries of the input directory that hold an
    [avb.toml], each with the metadata it loads as. *)
Definition glob_avb_toml (w : World) (s : FS) : list (string * AvbInfo) :=
  omap (fun name => (fun i => (name, i)) <$> tomls s !! name) (input_files w).

Definition pack_subcommand (w : World) : M unit :=
  let* _ := log CallMkdirOutput in
  let* s := get_fs in
  let* avb_pack_order :=
    liftM (avb_pack_order (iter_set w) (glob_avb_toml w s)) in
  let* _ := for_M (pack_image w) avb_pack_order (∅, ∅) in
  let* _ := avb_verify w in
  let* _ := log (CallMkdir "super/lp_images") in
  match input_lp_toml w with
  | None => raiseM (FileNotFoundError "super/lp.toml")
  | Some groups =>
      let* _ := for_M pack_lp_partition (concat groups) tt in
      let* _ := lp_pack w in
      let* _ := log (CallRmtree "super") in
      set_lp_images ∅
  end.

(** ** [main] *)

Inductive action : Type := Unpack | Pack.

(** What [parser.parse_args()] makes of the command line: the namespace,
    of which [main] reads the [action], or the exit of [argparse] before
    it returns, with status 0 after [--help] and status 2 after a usage
    error. The subparsers are not required: [args.action] is [None] when
    the command line names no subcommand. *)
Inductive command_line : Type :=
| Namespace (args_action : option action)
| ParserExit (code : Z).

Definition parse_args (cmd : command_line) : result (option action) :=
  match cmd with
  | Namespace args_action => Ok args_action
  | ParserExit code => Err (SystemExit code)
  end.

(** The command line is parsed first: when [argparse] exits, [avbroot] is
    not run at all. *)
Definition main (w : World) (cmd : command_line) : M unit :=
  let* args_action := liftM (parse_args cmd) in
  let* _ := check_avbroot_version w in
  match args_action with
  | Some Unpack => unpack_subcommand w
  | Some Pack => pack_subcommand w
  | None => raiseM (AssertionError "Expected code to be unreachable")
  end.

(** * The vocabulary of the theorems *)

(** ** Graphs and the counters of the sorter *)

(** The successors of a node, empty for a node the dict does not hold. *)
Definition succs (m : gmap string graphlib.NodeInfo) (k : string)
  : list string :=
  match m !! k with
  | Some i => graphlib.successors i
  | None => []
  end.

(** A list of nodes in which each one has the next among its successors. *)
Inductive path (E : string → list string) : list string → Prop :=
| path_one a : path E [a]
| path_step a b l : b ∈ E a → path E (b :: l) → path E (a :: b :: l).

(** A list of nodes each of which comes after all its successors: the
    order in which a depth-first search leaves the nodes, latest first. *)
Fixpoint finished_ok (E : string → list string) (fin : list string) : Prop :=
  match fin with
  | [] => True
  | n :: fin' => (n ∉ fin') ∧ (∀ v, v ∈ E n → v ∈ fin') ∧ finished_ok E fin'
  end.

(** The stack of the search: each frame's successors are those already
    left, then the child being explored ([c], empty just after a push or a
    pop), then what its iterator still holds. *)
Fixpoint frames_ok (E : string → list string) (fin c : list string)
    (frames : list (string * list string)) : Prop :=
  match frames with
  | [] => True
  | (n, rem) :: rest =>
      (∃ pre, E n = pre ++ c ++ rem ∧ ∀ x, x ∈ pre → x ∈ fin) ∧
      (n ∉ rest.*1) ∧ (n ∉ fin) ∧ frames_ok E fin [n] rest
  end.

Definition frames_left (frames : list (string * list string)) : nat :=
  sum_list_with (fun f => length f.2) frames.

Definition node_weight (E : string → list string) (k : string) : nat :=
  S (length (E k)).

(** How often [k] occurs in a list of successors. *)
Definition occ (k : string) (l : list string) : nat :=
  length (filter (fun x => x = k) l).

(** The number of edges into [k] that start at a node not yet done. *)
Definition pending (E : string → list string) (keys D : list string)
    (k : string) : nat :=
  sum_list_with (fun p => if decide (p ∈ D) then O else occ k (E p)) keys.

(** The weight of the graph: one for each node and one for each edge. *)
Definition keys_weight (m : gmap string graphlib.NodeInfo) (keys : list string) : nat :=
  sum_list_with (node_weight (succs m)) keys.

(** [done] and [get_ready] only change the counters. *)
Definition same_graph (m0 m : gmap string graphlib.NodeInfo) : Prop :=
  ∀ k, graphlib.successors <$> m !! k = graphlib.successors <$> m0 !! k.

(** The counters of the sorter while the nodes of [D] are done, those of
    [rest] have been passed out and [ready] is [_ready_nodes]. *)
Definition state_ok (m0 : gmap string graphlib.NodeInfo) (keys : list string)
    (m : gmap string graphlib.NodeInfo)
    (D rest ready : list string) : Prop :=
  same_graph m0 m ∧ NoDup (D ++ rest) ∧ (∀ k, k ∈ D ++ rest → k ∈ keys) ∧
  NoDup ready ∧
  (∀ k i, m !! k = Some i →
     (k ∈ D → graphlib.npredecessors i = graphlib.NODE_DONE ∧
              pending (succs m0) keys D k = O) ∧
     (k ∈ rest → graphlib.npredecessors i = graphlib.NODE_OUT ∧
                 pending (succs m0) keys D k = O) ∧
     (k ∉ D → k ∉ rest →
      graphlib.npredecessors i = Z.of_nat (pending (succs m0) keys D k))) ∧
  (∀ k, k ∈ ready ↔ ∃ i, m !! k = Some i ∧ graphlib.npredecessors i = 0).

(** In the order yielded so far, every node comes after all the nodes
    it is a successor of. *)
Definition ordered (m0 : gmap string graphlib.NodeInfo) (out : list string) : Prop :=
  ∀ i s, out !! i = Some s → ∀ p, s ∈ succs m0 p →
         ∃ j, (j < i)%nat ∧ out !! j = Some p.

Definition loop_inv (m0 : gmap string graphlib.NodeInfo) (keys : list string)
    (s : graphlib.TopologicalSorter) (out : list string)
  : Prop :=
  ∃ ready,
    graphlib.ready_nodes s = Some ready ∧
    graphlib.node2info_keys s = keys ∧
    graphlib.nfinished s = graphlib.npassedout s ∧
    state_ok m0 keys (graphlib.node2info s) out [] ready ∧ ordered m0 out.

(** ** The graph handed to the sorter *)

(** [dep G n p]: in the graph [G], node [n] lists [p] among its
    predecessors ([n] references [p]). *)
Definition dep (G : list (string * list string)) (n p : string) : Prop :=
  ∃ ps, (n, ps) ∈ G ∧ p ∈ ps.

(** The nodes of [G]: its keys and everything a key lists. *)
Definition node_of (G : list (string * list string)) (k : string) : Prop :=
  (∃ ps, (k, ps) ∈ G) ∨ (∃ n, dep G n k).

(** What holds of the dict while the sorter is built: its edges are
    [Edge], its keys are [Node], and each counter is the number of edges
    into the node plus what [add] still owes it. *)
Definition graph_inv (Edge : string → string → Prop) (Node : string → Prop)
    (owed : string → Z) (m : gmap string graphlib.NodeInfo)
    (keys : list string) : Prop :=
  NoDup keys ∧
  (∀ k, k ∈ keys ↔ is_Some (m !! k)) ∧
  (∀ k i, m !! k = Some i → graphlib.node i = k) ∧
  (∀ p s, s ∈ succs m p ↔ Edge s p) ∧
  (∀ k, k ∈ keys ↔ Node k) ∧
  (∀ p s, Edge s p → Node s) ∧
  (∀ k i, m !! k = Some i →
     graphlib.npredecessors i
     = Z.of_nat (pending (succs m) keys [] k) + owed k).

Definition init_inv (G : list (string * list string)) :=
  graph_inv (dep G) (node_of G) (fun _ => 0).

Definition add_inv (G : list (string * list string)) (nd : string)
    (dn : list string) (rem : nat) :=
  graph_inv (fun s p => dep G s p ∨ (s = nd ∧ p ∈ dn))
    (fun k => node_of G k ∨ k = nd ∨ k ∈ dn)
    (fun k => if decide (k = nd) then Z.of_nat rem else 0).

(** [c] closes on itself, and each of its nodes is listed as a predecessor
    by the next one. *)
Definition cycle_in (G : list (string * list string)) (c : list string)
  : Prop :=
  (∃ n mid, c = n :: mid ++ [n]) ∧
  ∀ i a b, c !! i = Some a → c !! S i = Some b → dep G b a.

Definition acyclic (G : list (string * list string)) : Prop :=
  ∀ n, ¬ tc (dep G) n n.

(** The order in which [order] lists the nodes of [G] puts each node
    after everything it references. *)
Definition after_dependencies (G : list (string * list string))
    (order : list string) : Prop :=
  ∀ i j n p, order !! i = Some n → order !! j = Some p → dep G n p →
             (j < i)%nat.

(** ** A small image set *)

(** A chain descriptor as a vbmeta image holds it. *)
Definition chain_ref : descriptor :=
  <["type" := VStr "ChainPartition"]>
    (<["partition_name" := VStr "vbmeta_system"]>
       (<["rollback_index_location" := VInt 1]>
          (<["public_key" := VStr "00"]> ∅))).

(** [boot] carries a hash descriptor and [system] a hash tree, both
    unsigned; [vbmeta_system] is signed and describes both; [vbmeta] is
    signed and chains to [vbmeta_system]. *)
Definition mk_descriptor (ty name : string) : descriptor :=
  <["type" := VStr ty]> (<["partition_name" := VStr name]> ∅).

Definition mk_info (alg key : string) (fl : Z) (ds : list descriptor)
  : AvbInfo :=
  {| image_size := 0;
     header := {|
       required_libavb_version_major := 1;
       required_libavb_version_minor := 0;
       algorithm_type := alg;
       hash := "";
       signature := "";
       public_key := key;
       public_key_metadata := "";
       rollback_index := 0;
       flags := fl;
       rollback_index_location := 0;
       release_string := "avbtool 1.3.0";
       reserved := "";
       descriptors := ds
     |};
     footer := None |}.

Definition boot_info : AvbInfo :=
  mk_info "None" "" 3 [mk_descriptor "Hash" "boot"].

Definition system_info : AvbInfo :=
  mk_info "None" "" 0 [mk_descriptor "HashTree" "system"].

Definition vbmeta_system_info : AvbInfo :=
  mk_info "Sha256Rsa4096" "aa" 0
    [mk_descriptor "HashTree" "system"; mk_descriptor "Hash" "boot"].

Definition vbmeta_info : AvbInfo :=
  mk_info "Sha256Rsa4096" "aa" 3 [chain_ref].

(** An [avbroot avb pack] that re-signs a signed image with the key [bb]
    and leaves everything else as it finds it. *)
Definition resign (name : string) (i : AvbInfo) (extra_args : list string)
  : option AvbInfo :=
  Some (if decide (algorithm_type (header i) = "None") then i
        else mk_info (algorithm_type (header i)) "bb" (flags (header i))
               (descriptors (header i))).

Definition unpacked (img : image) : option AvbInfo :=
  match img with
  | InputImage "vbmeta.img" => Some vbmeta_info
  | InputImage "vbmeta_system.img" => Some vbmeta_system_info
  | InputImage "boot.img" => Some boot_info
  | _ => None
  end.

(** The world of an unpack run: the fastboot images, one of them
    ([logo.img]) referred to by no vbmeta image. *)
Definition unpack_world : World :=
  {| iter_set := elements;
     version_stdout := Ok "avbroot 3.19.0";
     avb_info_ok := fun _ => false;
     avb_unpack_out := unpacked;
     avb_pack_out := resign;
     avb_verify_ok := true;
     sparse_unpack_ok := fun _ => true;
     lp_unpack_out :=
       Some ([["system_a"; "system_b"]],
             <["system_a" := 4096]> (<["system_b" := 0]> ∅));
     lp_pack_ok := true;
     input_files :=
       ["boot.img"; "logo.img"; "super.img.0"; "vbmeta.img";
        "vbmeta_system.img"];
     input_lp_toml := None |}.

(** The world of a pack run over the four unpacked directories. *)
Definition pack_world : World :=
  {| iter_set := elements;
     version_stdout := Ok "avbroot 3.19.0";
     avb_info_ok := fun _ => false;
     avb_unpack_out := unpacked;
     avb_pack_out := resign;
     avb_verify_ok := true;
     sparse_unpack_ok := fun _ => true;
     lp_unpack_out := None;
     lp_pack_ok := true;
     input_files := ["boot"; "super"; "system"; "vbmeta"; "vbmeta_system"];
     input_lp_toml := Some [["system_a"; "system_b"]] |}.

Definition empty_fs : FS := mkFS [] ∅ ∅ ∅.

Definition unpacked_fs : FS :=
  mkFS []
    (<["boot" := boot_info]>
       (<["system" := system_info]>
          (<["vbmeta" := vbmeta_info]>
             (<["vbmeta_system" := vbmeta_system_info]> ∅))))
    ∅ ∅.

(** ** Runs and their traces *)

(** [yields T R c]: whatever the state [c] starts in, the state it ends in
    is related to it by [T], and a value it returns satisfies [R]. *)
Definition yields (T : FS → FS → Prop) {A} (R : A → Prop) (c : M A) : Prop :=
  ∀ s, T s (c s).2 ∧ ∀ a, (c s).1 = Ok a → R a.

(** The calls of [s'] are those of [s] followed by calls that satisfy
    [P]. *)
Definition extends (P : call → Prop) (s s' : FS) : Prop :=
  ∃ l, calls s' = calls s ++ l ∧ Forall P l.

(** A call of [avbroot avb pack] on a vbmeta image hands over metadata
    whose two low flag bits are zero. *)
Definition flags_cleared (c : call) : Prop :=
  match c with
  | CallAvbPack name info _ =>
      startswith name "vbmeta" = true → Z.land (flags (header info)) 3 = 0
  | _ => True
  end.

(** [refers parts n p]: a descriptor of the header of [n] names [p], and
    [p] is not [n] itself. *)
Definition refers (parts : list (string * AvbInfo)) (n p : string) : Prop :=
  ∃ info d, (n, info) ∈ parts ∧ d ∈ descriptors (header info) ∧
            partition_name_of d = Some p ∧ p ≠ n.

(** Three images in the order a directory listing may give them: the
    signed [vbmeta_system] first, then the two it describes. *)
Definition listed_parts : list (string * AvbInfo) :=
  [("vbmeta_system", vbmeta_system_info); ("boot", boot_info);
   ("system", system_info)].

(** Another iteration order of the same sets. *)
Definition reversed (s : gset string) : list string := reverse (elements s).

(** Two images that refer to each other. *)
Definition cyclic_fs : FS :=
  mkFS []
    (<["a" := mk_info "None" "" 0 [mk_descriptor "Hash" "b"]]>
       (<["b" := mk_info "None" "" 0 [mk_descriptor "Hash" "a"]]> ∅))
    ∅ ∅.

Definition cyclic_world : World :=
  {| iter_set := elements;
     version_stdout := Ok "avbroot 3.19.0";
     avb_info_ok := fun _ => false;
     avb_unpack_out := unpacked;
     avb_pack_out := resign;
     avb_verify_ok := true;
     sparse_unpack_ok := fun _ => true;
     lp_unpack_out := None;
     lp_pack_ok := true;
     input_files := ["a"; "b"];
     input_lp_toml := Some [] |}.


(** Every character of [s] satisfies [P]. *)
Fixpoint string_forall (P : ascii → bool) (s : string) : bool :=
  match s with
  | EmptyString => true
  | String c s' => P c && string_forall P s'
  end.








(** ** The calls of a pack run *)

(** [c] is the call of [avbroot avb pack] on the image [name]. *)
Definition is_pack_of (c : call) (name : string) : Prop :=
  ∃ info extra_args, c = CallAvbPack name info extra_args.

(** [c] is no call of [avbroot avb pack]. *)
Definition no_pack (c : call) : Prop :=
  match c with
  | CallAvbPack _ _ _ => False
  | _ => True
  end.



(** ** What an unpack run leaves behind *)

(** Every [avb.toml] of [s] is still there in [s']. *)
Definition keeps (s s' : FS) : Prop :=
  ∀ x, is_Some (tomls s !! x) → is_Some (tomls s' !! x).


(** ** The calls of the two subcommands *)

(** The calls an unpack run issues: it creates and removes directories,
    runs [avbroot avb info], [avbroot avb unpack], [avbroot sparse unpack]
    and [avbroot lp unpack], and moves images. *)
Definition unpack_call (c : call) : Prop :=
  match c with
  | CallMkdirOutput | CallMkdir _ | CallAvbInfo _ | CallAvbUnpack _ _
  | CallSparseUnpack _ | CallLpUnpack | CallRename _ _ | CallRmtree _ => True
  | _ => False
  end.

(** The calls a pack run issues: it creates and removes directories, runs
    [avbroot avb pack], [avbroot avb verify] and [avbroot lp pack], and
    moves images. *)
Definition pack_call (c : call) : Prop :=
  match c with
  | CallMkdirOutput | CallMkdir _ | CallAvbPack _ _ _ | CallAvbVerify
  | CallRename _ _ | CallLpPack | CallRmtree _ => True
  | _ => False
  end.

(** The calls of the subcommand [act]. *)
Definition action_call (act : action) : call → Prop :=
  match act with
  | Unpack => unpack_call
  | Pack => pack_call
  end.

(** ** Versions as they are printed *)

(** The line feed that ends the output of [avbroot --version]. *)
Definition newline : string := String "010"%char "".

(** ['.'.join(str(v) for v in l)]. *)
Definition print_version (l : list Z) : string :=
  String.concat "." (pretty <$> l).

Definition is_digit (c : ascii) : bool :=
  match digit_of c with
  | Some _ => true
  | None => false
  end.

(** The characters of a printed version: digits and dots. *)
Definition is_version_char (c : ascii) : bool :=
  is_digit c || Ascii.eqb c "."%char.

(** ** The descriptors a vbmeta image takes over *)

(** The [partition_name] of a descriptor, when it has one, is a string,
    as [avbroot] writes it. *)
Definition name_is_string (d : descriptor) : bool :=
  match d !! "partition_name" with
  | None | Some (VStr _) => true
  | Some _ => false
  end.

(** The same of every descriptor of every image of [parts]. *)
Definition names_are_strings (parts : list (string * AvbInfo)) : bool :=
  forallb (fun p => forallb name_is_string (descriptors (header p.2))) parts.

(** [dC] is the first descriptor of [ds] whose [partition_name] is [c]. *)
Definition first_named (c : string) (ds : list descriptor) (dC : descriptor)
  : Prop :=
  ∃ j, ds !! j = Some dC ∧ dC !! "partition_name" = Some (VStr c) ∧
       ∀ j' d', ds !! j' = Some d' → (j' < j)%nat →
                d' !! "partition_name" ≠ Some (VStr c).

(** Between [s] and [s'] the run has packed [c]: it ran [avbroot avb pack]
    on [c], and [infoC] is the metadata [avbroot] wrote, which
    [c/avb.toml] holds in [s']. *)
Definition packed_as (w : World) (s s' : FS) (c : string) (infoC : AvbInfo)
  : Prop :=
  ∃ l before extra_args,
    calls s' = calls s ++ l ∧ CallAvbPack c before extra_args ∈ l ∧
    avb_pack_out w c before extra_args = Some infoC ∧
    tomls s' !! c = Some infoC.

(** The loop's variables and the files once the pack loop has gone through
    the images of [pre]. *)
Definition packed_through (pre : list string)
  : result (gmap string descriptor * gmap string string) * FS :=
  for_M (pack_image pack_world) pre (∅, ∅) unpacked_fs.

Definition loop_variables
    (r : result (gmap string descriptor * gmap string string) * FS)
  : gmap string descriptor * gmap string string :=
  match r.1 with
  | Ok v => v
  | Err _ => (∅, ∅)
  end.

(** * Theorems *)

(** ** Facts about [graphlib] *)

(** The sorter on a chain of images and on two images that refer to each
    other. *)
Example static_order_chain :
  graphlib.static_order
    [("vbmeta", ["vbmeta_system"; "boot"]);
     ("vbmeta_system", ["system"]);
     ("boot", []); ("system", [])]
  = Ok ["boot"; "system"; "vbmeta_system"; "vbmeta"].
Proof. vm_compute. reflexivity. Qed.

Example static_order_cycle :
  graphlib.static_order [("a", ["b"]); ("b", ["a"])]
  = Err (CycleError "nodes are in a cycle" ["a"; "b"; "a"]).
Proof. vm_compute. reflexivity. Qed.

Lemma frames_left_cons n rem frames :
  frames_left ((n, rem) :: frames) = (length rem + frames_left frames)%nat.
Proof. reflexivity. Qed.

Lemma sum_list_with_cons {A} (f : A → nat) x l :
  sum_list_with f (x :: l) = (f x + sum_list_with f l)%nat.
Proof. reflexivity. Qed.

Lemma visit_S fuel m nd frames seen :
  graphlib.visit (S fuel) m nd frames seen =
  if decide (nd ∈ seen) then
    if decide (nd ∈ frames.*1) then
      Ok (graphlib.Found (graphlib.stack_from nd frames ++ [nd]))
    else
      match graphlib.backtrack frames with
      | None => Ok (graphlib.Exhausted seen)
      | Some (nd', frames') => graphlib.visit fuel m nd' frames' seen
      end
  else
    match m !! nd with
    | None => Err (KeyError nd)
    | Some i =>
        match graphlib.backtrack ((nd, graphlib.successors i) :: frames) with
        | None => Ok (graphlib.Exhausted (nd :: seen))
        | Some (nd', frames') =>
            graphlib.visit fuel m nd' frames' (nd :: seen)
        end
    end.
Proof. reflexivity. Qed.

Lemma path_snoc E l a b :
  path E (l ++ [a]) → b ∈ E a → path E (l ++ [a; b]).
Proof.
  induction l as [|x l IH]; simpl; intros Hp Hb.
  - apply path_step; [done | constructor].
  - inversion Hp as [y Hy | y z l' Hz Hp' Heq]; subst.
    + by destruct l.
    + destruct l as [|w l]; simpl in *; simplify_eq.
      * apply path_step; [done |]. by apply (IH Hp').
      * apply path_step; [done |]. by apply (IH Hp').
Qed.

Lemma sum_list_with_submseteq {A} (f : A → nat) (l k : list A) :
  l ⊆+ k → (sum_list_with f l ≤ sum_list_with f k)%nat.
Proof.
  induction 1; simpl; lia.
Qed.

Section dfs.
Variable m : gmap string graphlib.NodeInfo.
Variable keys : list string.
Local Abbreviation E := (succs m).
Hypothesis keys_dom : ∀ k, k ∈ keys ↔ is_Some (m !! k).
Hypothesis keys_nodup : NoDup keys.
Hypothesis closed : ∀ k s, s ∈ E k → is_Some (m !! s).

Lemma frames_ok_finish fin c frames n :
  n ∉ frames.*1 → frames_ok E fin c frames → frames_ok E (n :: fin) c frames.
Proof.
  revert c. induction frames as [|[n' rem] rest IH]; simpl; [done |].
  intros c Hn ((pre & HE & Hpre) & Hn1 & Hn2 & Hrest).
  apply not_elem_of_cons in Hn as [Hne Hn].
  split_and!; [| done | | by apply IH].
  - exists pre. split; [done |]. intros x Hx. right. by apply Hpre.
  - rewrite not_elem_of_cons. split; [congruence | done].
Qed.

Lemma frames_ok_absorb fin n frames :
  n ∈ fin → frames_ok E fin [n] frames → frames_ok E fin [] frames.
Proof.
  destruct frames as [|[n' rem] rest]; simpl; [done |].
  intros Hn ((pre & HE & Hpre) & Hn1 & Hn2 & Hrest).
  split_and!; try done.
  exists (pre ++ [n]). split.
  - rewrite HE. by rewrite <- !app_assoc.
  - intros x [Hx | Hx%list_elem_of_singleton]%elem_of_app; subst; auto.
Qed.

Lemma backtrack_spec fin frames :
  finished_ok E fin → frames_ok E fin [] frames →
  match graphlib.backtrack frames with
  | None =>
      ∃ fin', finished_ok E fin' ∧
        ∀ x, x ∈ fin' ↔ x ∈ frames.*1 ∨ x ∈ fin
  | Some (nd', frames') =>
      ∃ fin', finished_ok E fin' ∧ frames_ok E fin' [nd'] frames' ∧
        (∀ x, x ∈ frames'.*1 ∨ x ∈ fin' ↔ x ∈ frames.*1 ∨ x ∈ fin) ∧
        frames_left frames = S (frames_left frames') ∧
        is_Some (m !! nd')
  end.
Proof.
  revert fin. induction frames as [|[n rem] rest IH]; simpl; intros fin Hfin Hok.
  - exists fin. split; [done |]. intros x. rewrite elem_of_nil. tauto.
  - destruct Hok as ((pre & HE & Hpre) & Hn1 & Hn2 & Hrest).
    destruct rem as [|s ss].
    + assert (Hfin' : finished_ok E (n :: fin)).
      { simpl. split_and!; [done | | done].
        intros v Hv. apply Hpre. rewrite HE in Hv.
        by rewrite !app_nil_r in Hv. }
      assert (Hok' : frames_ok E (n :: fin) [] rest).
      { apply frames_ok_absorb with n; [left |].
        by apply frames_ok_finish. }
      specialize (IH _ Hfin' Hok').
      destruct (graphlib.backtrack rest) as [[nd' frames']|].
      * destruct IH as (fin' & H1 & H2 & H3 & H4 & H5).
        exists fin'. split_and!; try done.
        intros x. rewrite H3, !elem_of_cons. tauto.
      * destruct IH as (fin' & H1 & H2). exists fin'. split; [done |].
        intros x. rewrite H2, !elem_of_cons. tauto.
    + exists fin. split_and!; try done.
      * simpl. split_and!; try done. exists pre. by split.
      * apply (closed n). rewrite HE. simpl. rewrite elem_of_app.
        right. left.
Qed.

Lemma stack_from_path fin c frames nd :
  frames_ok E fin [c] frames → nd ∈ frames.*1 →
  ∃ mid, graphlib.stack_from nd frames = nd :: mid ∧
         path E (nd :: mid ++ [c]).
Proof.
  revert c. induction frames as [|[n rem] rest IH]; simpl; intros c Hok Hin.
  - by apply elem_of_nil in Hin.
  - destruct Hok as ((pre & HE & Hpre) & Hn1 & Hn2 & Hrest).
    assert (Hc : c ∈ E n).
    { rewrite HE, elem_of_app. right. left. }
    destruct (decide (n = nd)) as [->|Hne].
    + exists []. split; [done |]. simpl. apply path_step; [done | constructor].
    + apply elem_of_cons in Hin as [Heq | Hin]; [congruence |].
      destruct (IH _ Hrest Hin) as (mid & Hst & Hp).
      exists (mid ++ [n]). rewrite Hst. split; [done |].
      rewrite <- app_assoc. simpl.
      change (nd :: mid ++ [n; c]) with ((nd :: mid) ++ [n; c]).
      apply path_snoc; [done | done].
Qed.

Lemma seen_weight_le seen :
  NoDup seen → (∀ x, x ∈ seen → x ∈ keys) →
  (sum_list_with (node_weight E) seen ≤ keys_weight m keys)%nat.
Proof.
  intros Hnd Hsub. apply sum_list_with_submseteq.
  by apply NoDup_submseteq.
Qed.

Lemma keys_weight_eq :
  graphlib.find_cycle_fuel m keys = S (keys_weight m keys).
Proof.
  unfold graphlib.find_cycle_fuel, keys_weight, graphlib.total_successors.
  f_equal. clear. induction keys as [|k l IH]; simpl; [done |].
  rewrite <- IH. unfold node_weight, succs.
  destruct (m !! k); simpl; lia.
Qed.

(** What one run of the [while True] loop establishes: a reported cycle
    is a closed path, and otherwise every node seen has been left. *)
Lemma visit_spec fuel nd frames seen fin :
  finished_ok E fin → frames_ok E fin [nd] frames →
  (∀ x, x ∈ seen ↔ x ∈ frames.*1 ∨ x ∈ fin) →
  is_Some (m !! nd) → NoDup seen → (∀ x, x ∈ seen → x ∈ keys) →
  (keys_weight m keys + frames_left frames
     < fuel + sum_list_with (node_weight E) seen)%nat →
  match graphlib.visit fuel m nd frames seen with
  | Ok (graphlib.Found c) => ∃ n mid, c = n :: mid ++ [n] ∧ path E c
  | Ok (graphlib.Exhausted seen') =>
      (∃ fin', finished_ok E fin' ∧ ∀ x, x ∈ seen' ↔ x ∈ fin') ∧
      NoDup seen' ∧ (∀ x, x ∈ seen' → x ∈ keys) ∧
      (∀ x, x ∈ seen → x ∈ seen') ∧ nd ∈ seen'
  | Err _ => False
  end.
Proof.
  revert nd frames seen fin.
  induction fuel as [|fuel IH]; intros nd frames seen fin Hfin Hok Hseen Hnd Hdup Hsub Hfuel.
  { pose proof (seen_weight_le seen Hdup Hsub). lia. }
  rewrite visit_S. destruct (decide (nd ∈ seen)) as [Hin | Hnin].
  - destruct (decide (nd ∈ frames.*1)) as [Hst | Hnst].
    + destruct (stack_from_path _ _ _ _ Hok Hst) as (mid & -> & Hp).
      exists nd, mid. by split.
    + assert (Hndfin : nd ∈ fin) by (apply Hseen in Hin; tauto).
      pose proof (backtrack_spec fin frames Hfin
                    (frames_ok_absorb _ _ _ Hndfin Hok)) as Hb.
      destruct (graphlib.backtrack frames) as [[nd' frames']|].
      * destruct Hb as (fin' & H1 & H2 & H3 & H4 & H5).
        specialize (IH nd' frames' seen fin' H1 H2).
        destruct (graphlib.visit fuel m nd' frames' seen) as [[c|seen']|e].
        -- apply IH; try done; [| lia]. intros x. rewrite Hseen. symmetry. apply H3.
        -- destruct IH as (Ha & Hb & Hc & Hd & He); try done; [| lia |].
           ++ intros x. rewrite Hseen. symmetry. apply H3.
           ++ split_and!; try done. by apply Hd.
        -- apply IH; try done; [| lia]. intros x. rewrite Hseen. symmetry. apply H3.
      * destruct Hb as (fin' & H1 & H2). split_and!; try done.
        exists fin'. split; [done |]. intros x. rewrite H2. apply Hseen.
  - destruct Hnd as [i Hi]. rewrite Hi.
    assert (HEi : E nd = graphlib.successors i) by (unfold succs; by rewrite Hi).
    assert (Hnst : nd ∉ frames.*1) by (intros ?; apply Hnin, Hseen; tauto).
    assert (Hnfin : nd ∉ fin) by (intros ?; apply Hnin, Hseen; tauto).
    assert (Hok' : frames_ok E fin [] ((nd, graphlib.successors i) :: frames)).
    { simpl. split_and!; try done. exists []. split; [done |].
      intros x Hx. by apply elem_of_nil in Hx. }
    pose proof (backtrack_spec fin _ Hfin Hok') as Hb.
    assert (Hseen' : ∀ x, x ∈ nd :: seen ↔
              x ∈ ((nd, graphlib.successors i) :: frames).*1 ∨ x ∈ fin).
    { intros x. simpl. rewrite !elem_of_cons, Hseen. tauto. }
    assert (Hdup' : NoDup (nd :: seen)) by (by apply NoDup_cons).
    assert (Hsub' : ∀ x, x ∈ nd :: seen → x ∈ keys).
    { intros x [-> | Hx]%elem_of_cons; [| by apply Hsub].
      apply keys_dom. by exists i. }
    destruct (graphlib.backtrack ((nd, graphlib.successors i) :: frames))
      as [[nd' frames']|].
    + destruct Hb as (fin' & H1 & H2 & H3 & H4 & H5).
      specialize (IH nd' frames' (nd :: seen) fin' H1 H2).
      assert (Hfuel' :
        (keys_weight m keys + frames_left frames'
         < fuel + sum_list_with (node_weight E) (nd :: seen))%nat).
      { rewrite frames_left_cons in H4. rewrite sum_list_with_cons.
        change (node_weight E nd) with (S (length (E nd))).
        rewrite HEi. lia. }
      destruct (graphlib.visit fuel m nd' frames' (nd :: seen))
        as [[c|seen']|e].
      * apply IH; try done. intros x. rewrite Hseen'. symmetry. apply H3.
      * destruct IH as (Ha & Hb & Hc & Hd & He); try done.
        { intros x. rewrite Hseen'. symmetry. apply H3. }
        split_and!; try done.
        -- intros x Hx. apply Hd. by apply list_elem_of_further.
        -- apply Hd. apply list_elem_of_here.
      * apply IH; try done. intros x. rewrite Hseen'. symmetry. apply H3.
    + destruct Hb as (fin' & H1 & H2). split_and!; try done.
      * exists fin'. split; [done |]. intros x. rewrite H2. apply Hseen'.
      * intros x Hx. by apply list_elem_of_further.
      * apply list_elem_of_here.
Qed.

Lemma find_cycle_from_spec fuel todo seen :
  (keys_weight m keys < fuel)%nat →
  (∃ fin, finished_ok E fin ∧ ∀ x, x ∈ seen ↔ x ∈ fin) →
  NoDup seen → (∀ x, x ∈ seen → x ∈ keys) →
  (∀ x, x ∈ todo → x ∈ keys) →
  match graphlib.find_cycle_from fuel m todo seen with
  | Ok (Some c) => ∃ n mid, c = n :: mid ++ [n] ∧ path E c
  | Ok None =>
      ∃ fin, finished_ok E fin ∧
             ∀ x, x ∈ todo ∨ x ∈ seen → x ∈ fin
  | Err _ => False
  end.
Proof.
  intros Hfuel. revert seen. induction todo as [|nd todo IH]; simpl;
    intros seen (fin & Hfin & Hseen) Hdup Hsub Htodo.
  - exists fin. split; [done |]. intros x [Hx | Hx]; [by apply elem_of_nil in Hx |].
    by apply Hseen.
  - destruct (decide (nd ∈ seen)) as [Hin | Hnin].
    + assert (Htodo' : ∀ x, x ∈ todo → x ∈ keys)
        by (intros x Hx; apply Htodo; by apply list_elem_of_further).
      specialize (IH seen (ex_intro _ fin (conj Hfin Hseen)) Hdup Hsub Htodo').
      destruct (graphlib.find_cycle_from _ m todo seen) as [[c|]|e]; try done.
      destruct IH as (fin' & H1 & H2). exists fin'. split; [done |].
      intros x [[-> | Hx]%elem_of_cons | Hx]; apply H2; auto.
    + assert (Hv := visit_spec fuel nd [] seen fin Hfin I).
      assert (Hpre : match graphlib.visit fuel m nd [] seen with
        | Ok (graphlib.Found c) => ∃ n mid, c = n :: mid ++ [n] ∧ path E c
        | Ok (graphlib.Exhausted seen') =>
            (∃ fin', finished_ok E fin' ∧ ∀ x, x ∈ seen' ↔ x ∈ fin') ∧
            NoDup seen' ∧ (∀ x, x ∈ seen' → x ∈ keys) ∧
            (∀ x, x ∈ seen → x ∈ seen') ∧ nd ∈ seen'
        | Err _ => False
        end).
      { apply Hv; try done.
        - intros x. simpl. rewrite Hseen, elem_of_nil. tauto.
        - apply keys_dom, Htodo. apply list_elem_of_here.
        - unfold frames_left. simpl. lia. }
      clear Hv.
      destruct (graphlib.visit fuel m nd [] seen) as [[c|seen']|e];
        [exact Hpre | | done].
      destruct Hpre as (Ha & Hb & Hc & Hd & He).
      assert (Htodo' : ∀ x, x ∈ todo → x ∈ keys)
        by (intros x Hx; apply Htodo; by apply list_elem_of_further).
      specialize (IH seen' Ha Hb Hc Htodo').
      destruct (graphlib.find_cycle_from fuel m todo seen') as [[c|]|e]; try done.
      destruct IH as (fin' & H1 & H2). exists fin'. split; [done |].
      intros x [[-> | Hx]%elem_of_cons | Hx]; apply H2; auto.
Qed.

(** [_find_cycle] either reports a closed path or certifies, by an
    order in which every node comes after its successors, that there is
    none. *)
Lemma find_cycle_from_keys :
  match graphlib.find_cycle_from (graphlib.find_cycle_fuel m keys) m keys [] with
  | Ok (Some c) => ∃ n mid, c = n :: mid ++ [n] ∧ path E c
  | Ok None => ∃ fin, finished_ok E fin ∧ ∀ x, x ∈ keys → x ∈ fin
  | Err _ => False
  end.
Proof.
  pose proof (find_cycle_from_spec (graphlib.find_cycle_fuel m keys) keys []) as H.
  destruct (graphlib.find_cycle_from _ m keys []) as [[c|]|e].
  - apply H; try done.
    + rewrite keys_weight_eq. lia.
    + exists []. split; [done |]. done.
    + constructor.
    + intros x Hx. by apply elem_of_nil in Hx.
  - destruct H as (fin & H1 & H2); try done.
    + rewrite keys_weight_eq. lia.
    + exists []. split; [done |]. done.
    + constructor.
    + intros x Hx. by apply elem_of_nil in Hx.
    + exists fin. split; [done |]. intros x Hx. apply H2. by left.
  - apply H; try done.
    + rewrite keys_weight_eq. lia.
    + exists []. split; [done |]. done.
    + constructor.
    + intros x Hx. by apply elem_of_nil in Hx.
Qed.

End dfs.

Lemma occ_cons k x l :
  occ k (x :: l) = ((if decide (x = k) then 1 else 0) + occ k l)%nat.
Proof.
  unfold occ. rewrite filter_cons. by destruct (decide (x = k)).
Qed.

Lemma occ_cons_eq k l : occ k (k :: l) = S (occ k l).
Proof. by rewrite occ_cons, decide_True. Qed.

Lemma occ_cons_ne k x l : k ≠ x → occ k (x :: l) = occ k l.
Proof. intros H. by rewrite occ_cons, decide_False. Qed.

Lemma occ_app k l1 l2 : occ k (l1 ++ l2) = (occ k l1 + occ k l2)%nat.
Proof. unfold occ. by rewrite filter_app, length_app. Qed.

Lemma occ_zero k l : k ∉ l ↔ occ k l = O.
Proof.
  induction l as [|x l IH].
  { split; [done | intros _; apply not_elem_of_nil]. }
  rewrite occ_cons, not_elem_of_cons, IH.
  destruct (decide (x = k)); split; intros; try lia; naive_solver.
Qed.

Lemma occ_pos k l : k ∈ l ↔ (0 < occ k l)%nat.
Proof.
  destruct (decide (k ∈ l)) as [Hin | Hnin].
  - split; [| done]. intros _.
    destruct (occ k l) eqn:Ho; [| lia]. by apply occ_zero in Ho.
  - split; [done |]. apply occ_zero in Hnin. lia.
Qed.

Lemma pending_le E keys D k p :
  p ∈ keys → p ∉ D → (occ k (E p) ≤ pending E keys D k)%nat.
Proof.
  intros Hp HD. unfold pending.
  etrans; [| apply (sum_list_with_in p); done].
  by rewrite decide_False.
Qed.

Lemma pending_zero E keys D k :
  (∀ p, p ∈ keys → p ∉ D → k ∉ E p) → pending E keys D k = O.
Proof.
  unfold pending. induction keys as [|p l IH]; intros H; [done |].
  rewrite sum_list_with_cons, IH.
  - destruct (decide (p ∈ D)); [done |].
    rewrite Nat.add_0_r. apply occ_zero, H; [apply list_elem_of_here | done].
  - intros q Hq. apply H. by apply list_elem_of_further.
Qed.

Lemma pending_done E keys D nd k :
  NoDup keys → nd ∈ keys → nd ∉ D →
  pending E keys D k = (occ k (E nd) + pending E keys (D ++ [nd]) k)%nat.
Proof.
  unfold pending. induction keys as [|p l IH]; intros Hnd Hin HD.
  - by apply elem_of_nil in Hin.
  - apply NoDup_cons in Hnd as [Hp Hnd]. rewrite !sum_list_with_cons.
    destruct (decide (p = nd)) as [-> | Hne].
    + rewrite (decide_False (P := nd ∈ D)) by done.
      rewrite (decide_True (P := nd ∈ D ++ [nd])) by set_solver.
      f_equal. simpl. clear IH Hin Hnd.
      induction l as [|q l IH]; [done |].
      apply not_elem_of_cons in Hp as [Hq Hp].
      rewrite !sum_list_with_cons, IH by done. f_equal.
      destruct (decide (q ∈ D)) as [HqD | HqD].
      * rewrite decide_True by set_solver. done.
      * rewrite decide_False by set_solver. done.
    + apply elem_of_cons in Hin as [? | Hin]; [congruence |].
      rewrite IH by done.
      destruct (decide (p ∈ D)) as [HpD | HpD].
      * rewrite decide_True by set_solver. lia.
      * rewrite decide_False by set_solver. lia.
Qed.

Lemma finished_ok_app E l1 l2 : finished_ok E (l1 ++ l2) → finished_ok E l2.
Proof. induction l1 as [|x l1 IH]; simpl; [done |]. intros (_ & _ & H). auto. Qed.

Lemma finished_ok_later E fin p v :
  finished_ok E fin → p ∈ fin → v ∈ E p →
  ∃ l1 l2, fin = l1 ++ p :: l2 ∧ v ∈ l2 ∧ p ∉ l2.
Proof.
  intros Hfin Hp Hv. apply list_elem_of_split in Hp as (l1 & l2 & ->).
  exists l1, l2. apply finished_ok_app in Hfin as (H1 & H2 & _). auto.
Qed.

(** ** The [done] bookkeeping *)

Lemma set_npredecessors_id i :
  graphlib.set_npredecessors (graphlib.npredecessors i) i = i.
Proof. by destruct i. Qed.

Lemma for_each_app {A S} (body : A → S → result S) l1 l2 s :
  for_each body (l1 ++ l2) s = (s' ← for_each body l1 s; for_each body l2 s').
Proof.
  revert s. induction l1 as [|x l1 IH]; intros s; simpl; [done |].
  destruct (body x s) as [s'|e]; simpl; [apply IH | done].
Qed.

Lemma for_each_cons_ok {A S} (body : A → S → result S) x l s s' :
  body x s = Ok s' → for_each body (x :: l) s = for_each body l s'.
Proof. intros H. simpl. by rewrite H. Qed.

Lemma release_eq s m ready i :
  m !! s = Some i →
  graphlib.release s (m, ready) =
  Ok (<[s := graphlib.set_npredecessors (graphlib.npredecessors i - 1) i]> m,
      if decide (graphlib.npredecessors i - 1 = 0) then ready ++ [s]
      else ready).
Proof. intros H. unfold graphlib.release. simpl. by rewrite H. Qed.

Lemma release_loop ss m ready :
  (∀ s, s ∈ ss → ∃ i, m !! s = Some i ∧
                      Z.of_nat (occ s ss) ≤ graphlib.npredecessors i) →
  ∃ m' extra,
    for_each graphlib.release ss (m, ready) = Ok (m', ready ++ extra) ∧
    (∀ k, m' !! k =
          (fun i => graphlib.set_npredecessors
                      (graphlib.npredecessors i - Z.of_nat (occ k ss)) i)
            <$> m !! k) ∧
    (∀ k, k ∈ extra ↔
          k ∈ ss ∧ ∃ i, m !! k = Some i ∧
                        graphlib.npredecessors i = Z.of_nat (occ k ss)) ∧
    NoDup extra.
Proof.
  revert m ready. induction ss as [|s ss IH]; intros m ready Hpre.
  - exists m, []. rewrite app_nil_r. split_and!; [done | | | constructor].
    + intros k. destruct (m !! k) as [i|]; simpl; [| done].
      unfold occ. simpl. by rewrite Z.sub_0_r, set_npredecessors_id.
    + intros k. rewrite elem_of_nil. naive_solver.
  - destruct (Hpre s) as (i & Hi & Hle); [apply list_elem_of_here |].
    rewrite occ_cons, decide_True in Hle by done.
    set (n := graphlib.npredecessors i - 1).
    set (m1 := <[s := graphlib.set_npredecessors n i]> m).
    set (ready1 := if decide (n = 0) then ready ++ [s] else ready).
    destruct (IH m1 ready1) as (m' & extra & Hrun & Hmap & Hextra & Hnd).
    { intros t Ht. destruct (decide (t = s)) as [-> | Hne].
      - exists (graphlib.set_npredecessors n i). unfold m1.
        rewrite lookup_insert_eq. split; [done |]. simpl. unfold n. lia.
      - destruct (Hpre t) as (i' & Hi' & Hle'); [by apply list_elem_of_further |].
        exists i'. unfold m1. rewrite lookup_insert_ne by done.
        split; [done |]. rewrite occ_cons, decide_False in Hle' by done.
        simpl in Hle'. lia. }
    exists m', ((if decide (n = 0) then [s] else []) ++ extra).
    split_and!.
    + rewrite (for_each_cons_ok _ _ _ _ _ (release_eq s m ready i Hi)).
      fold n. fold m1. fold ready1. rewrite Hrun. f_equal. f_equal.
      unfold ready1. destruct (decide (n = 0)); by rewrite <- ?app_assoc.
    + intros k. rewrite Hmap. unfold m1.
      destruct (decide (k = s)) as [-> | Hne].
      * rewrite lookup_insert_eq, Hi. simpl. unfold graphlib.set_npredecessors.
        simpl. do 2 f_equal. rewrite occ_cons, decide_True by done. unfold n. lia.
      * rewrite lookup_insert_ne by done. destruct (m !! k) as [i'|]; [| done].
        simpl. do 2 f_equal. rewrite occ_cons, decide_False by done. done.
    + intros k. rewrite elem_of_app, Hextra, elem_of_cons. unfold m1.
      destruct (decide (k = s)) as [-> | Hne].
      * rewrite lookup_insert_eq.
        pose proof (occ_cons_eq s ss) as Hocc.
        split.
        -- intros [Hk | (Hk & i' & Hi' & Hn)].
           ++ destruct (decide (n = 0)) as [Hn0|]; [| by apply elem_of_nil in Hk].
              split; [by left |]. exists i. split; [done |]. unfold n in *. lia.
           ++ simplify_eq. simpl in Hn. split; [by left |]. exists i.
              split; [done |]. unfold n in *. lia.
        -- intros (_ & i' & Hi' & Hn). simplify_eq.
           destruct (decide (s ∈ ss)) as [Hin | Hnin].
           ++ right. split; [done |]. eexists. split; [done |]. simpl.
              unfold n. lia.
           ++ left. apply occ_zero in Hnin. rewrite decide_True.
              ** apply list_elem_of_here.
              ** unfold n. lia.
      * rewrite lookup_insert_ne by done.
        pose proof (occ_cons_ne k s ss Hne) as Hocc.
        split.
        -- intros [Hk | (Hk & i' & Hi' & Hn)].
           ++ destruct (decide (n = 0)); [| by apply elem_of_nil in Hk].
              apply list_elem_of_singleton in Hk. congruence.
           ++ split; [by right |]. exists i'. split; [done |]. congruence.
        -- intros ([? | Hk] & i' & Hi' & Hn); [congruence |]. right.
           split; [done |]. exists i'. split; [done |]. congruence.
    + apply NoDup_app. split_and!; [| | done].
      * destruct (decide (n = 0)); [apply NoDup_singleton | constructor].
      * intros k Hk. destruct (decide (n = 0)) as [Hn0|]; [| by apply elem_of_nil in Hk].
        apply list_elem_of_singleton in Hk as ->.
        rewrite Hextra. intros (Hin & i' & Hi' & Hn). unfold m1 in Hi'.
        rewrite lookup_insert_eq in Hi'. simplify_eq. simpl in Hn.
        apply occ_pos in Hin. lia.
Qed.

Section kahn.
Variable m0 : gmap string graphlib.NodeInfo.
Variable keys : list string.
Local Abbreviation E := (succs m0).
Hypothesis keys_dom : ∀ k, k ∈ keys ↔ is_Some (m0 !! k).
Hypothesis keys_nodup : NoDup keys.
Hypothesis closed : ∀ k s, s ∈ E k → is_Some (m0 !! s).

Lemma same_graph_key m k :
  same_graph m0 m → k ∈ keys →
  ∃ i, m !! k = Some i ∧ graphlib.successors i = E k.
Proof.
  intros Hsg [i0 Hi0]%keys_dom. specialize (Hsg k). rewrite Hi0 in Hsg.
  destruct (m !! k) as [i|] eqn:Hi; simpl in Hsg; [| done].
  exists i. split; [done |]. unfold succs. rewrite Hi0. congruence.
Qed.

Lemma same_graph_lookup m k i :
  same_graph m0 m → m !! k = Some i →
  k ∈ keys ∧ graphlib.successors i = E k.
Proof.
  intros Hsg Hi. specialize (Hsg k). rewrite Hi in Hsg.
  destruct (m0 !! k) as [i0|] eqn:Hi0; simpl in Hsg; [| done].
  split; [apply keys_dom; by exists i0 |].
  unfold succs. rewrite Hi0. congruence.
Qed.

Lemma succ_is_key k s : s ∈ E k → s ∈ keys ∧ k ∈ keys.
Proof.
  intros Hs. split; [by apply keys_dom, (closed k) |].
  apply keys_dom. unfold succs in Hs.
  destruct (m0 !! k); [done | by apply elem_of_nil in Hs].
Qed.

Lemma done_node_step m D nd rest ready :
  state_ok m0 keys m D (nd :: rest) ready →
  ∃ m' ready',
    graphlib.done_node nd (m, ready) = Ok (m', ready') ∧
    state_ok m0 keys m' (D ++ [nd]) rest ready'.
Proof.
  intros (Hsg & Hnd & Hsub & Hrd & Hst & Hready).
  assert (Hndk : nd ∈ keys) by (apply Hsub; set_solver).
  apply NoDup_app in Hnd as (HD & Hdisj & Hnr).
  apply NoDup_cons in Hnr as [Hndrest Hrest].
  assert (HndD : nd ∉ D) by (intros H; apply (Hdisj _ H); set_solver).
  destruct (same_graph_key m nd Hsg Hndk) as (i & Hi & HEi).
  destruct (Hst nd i Hi) as (_ & Hout & _).
  destruct Hout as [Hout Hp0]; [set_solver |].
  assert (Hpd : ∀ k, pending E keys D k
                     = (occ k (E nd) + pending E keys (D ++ [nd]) k)%nat).
  { intros k. by apply pending_done. }
  set (ma := <[nd := graphlib.set_npredecessors graphlib.NODE_DONE i]> m).
  destruct (release_loop (graphlib.successors i) ma ready)
    as (m' & extra & Hrun & Hmap & Hextra & Hndx).
  { intros s Hs. rewrite HEi in Hs |- *.
    destruct (succ_is_key _ _ Hs) as [Hsk _].
    destruct (same_graph_key m s Hsg Hsk) as (i' & Hi' & _).
    pose proof (pending_le E keys D s nd Hndk HndD) as Hle.
    apply occ_pos in Hs. destruct (Hst s i' Hi') as (H1 & H2 & H3).
    assert (HsD : s ∉ D) by (intros H; apply H1 in H; lia).
    assert (Hsr : s ∉ nd :: rest) by (intros H; apply H2 in H; lia).
    exists i'. unfold ma. rewrite lookup_insert_ne by set_solver.
    split; [done |]. rewrite (H3 HsD Hsr). lia. }
  exists m', (ready ++ extra). split.
  { unfold graphlib.done_node. simpl. rewrite Hi.
    rewrite decide_False by (intros H; by apply H). exact Hrun. }
  assert (Hlook : ∀ k i'', m' !! k = Some i'' →
            ∃ ia, ma !! k = Some ia ∧
                  graphlib.npredecessors i'' =
                  graphlib.npredecessors ia - Z.of_nat (occ k (E nd)) ∧
                  graphlib.successors i'' = graphlib.successors ia).
  { intros k i'' Hk. rewrite Hmap in Hk.
    destruct (ma !! k) as [ia|]; simpl in Hk; [| done].
    exists ia. simplify_eq. simpl. by rewrite HEi. }
  assert (Hma : ∀ k ia, ma !! k = Some ia →
            (k = nd ∧ ia = graphlib.set_npredecessors graphlib.NODE_DONE i) ∨
            (k ≠ nd ∧ m !! k = Some ia)).
  { intros k ia. unfold ma. destruct (decide (k = nd)) as [-> | Hne].
    - rewrite lookup_insert_eq. intros [= <-]. by left.
    - rewrite lookup_insert_ne by done. by right. }
  split_and!.
  - intros k. rewrite Hmap. unfold ma.
    destruct (decide (k = nd)) as [-> | Hne].
    + rewrite lookup_insert_eq. simpl. rewrite <- Hsg, Hi. done.
    + rewrite lookup_insert_ne by done. rewrite <- Hsg.
      by destruct (m !! k).
  - rewrite <- app_assoc. simpl. apply NoDup_app. split_and!; try done.
    by apply NoDup_cons.
  - intros k Hk. apply Hsub. rewrite <- app_assoc in Hk. done.
  - apply NoDup_app. split_and!; try done.
    intros k Hk. rewrite Hextra. intros (Hin & _).
    apply Hready in Hk as (ik & Hik & H0).
    rewrite HEi in Hin. apply occ_pos in Hin.
    pose proof (pending_le E keys D k nd Hndk HndD) as Hle.
    destruct (Hst k ik Hik) as (H1 & H2 & H3).
    destruct (decide (k ∈ D)) as [HkD|HkD]; [apply H1 in HkD; lia |].
    destruct (decide (k ∈ nd :: rest)) as [Hkr|Hkr]; [apply H2 in Hkr; lia |].
    specialize (H3 HkD Hkr). lia.
  - intros k i'' Hk.
    destruct (Hlook k i'' Hk) as (ia & Hia & Hnp & _).
    specialize (Hpd k). rewrite Hnp.
    destruct (Hma k ia Hia) as [[-> ->] | [Hne Hmk]].
    + simpl. split_and!.
      * intros _. unfold graphlib.NODE_DONE in *. lia.
      * intros H. done.
      * intros H. exfalso. apply H. set_solver.
    + destruct (Hst k ia Hmk) as (H1 & H2 & H3). split_and!.
      * intros [HkD | Hk']%elem_of_app; [| set_solver].
        apply H1 in HkD. lia.
      * intros Hkr. destruct H2 as [H2 H2']; [set_solver |]. lia.
      * intros HkD Hkr. rewrite H3 by set_solver. lia.
  - intros k. rewrite elem_of_app, Hextra, Hready. split.
    + intros [(ik & Hik & H0) | (Hin & ia & Hia & Hocc)].
      * assert (Hne : k ≠ nd).
        { intros ->. simplify_eq. rewrite Hout in H0. done. }
        assert (Hoz : occ k (E nd) = O).
        { pose proof (pending_le E keys D k nd Hndk HndD) as Hle.
          destruct (Hst k ik Hik) as (H1 & H2 & H3).
          destruct (decide (k ∈ D)) as [HkD|HkD]; [apply H1 in HkD; lia |].
          destruct (decide (k ∈ nd :: rest)) as [Hkr|Hkr];
            [apply H2 in Hkr; lia |].
          specialize (H3 HkD Hkr). lia. }
        rewrite Hmap. unfold ma. rewrite lookup_insert_ne, Hik by done.
        simpl. eexists. split; [done |]. simpl. rewrite HEi, Hoz. lia.
      * rewrite Hmap, Hia. simpl. eexists. split; [done |]. simpl. lia.
    + intros (i'' & Hk & H0).
      destruct (Hlook k i'' Hk) as (ia & Hia & Hnp & _).
      destruct (decide (k ∈ E nd)) as [Hin | Hnin].
      * right. rewrite HEi. split; [done |]. exists ia. split; [done |]. lia.
      * left. apply occ_zero in Hnin.
        destruct (Hma k ia Hia) as [[-> ->] | [Hne Hmk]].
        -- simpl in Hnp. unfold graphlib.NODE_DONE in Hnp. lia.
        -- exists ia. split; [done |]. lia.
Qed.

Lemma done_loop rest m D ready :
  state_ok m0 keys m D rest ready →
  ∃ m' ready',
    for_each graphlib.done_node rest (m, ready) = Ok (m', ready') ∧
    state_ok m0 keys m' (D ++ rest) [] ready'.
Proof.
  revert m D ready. induction rest as [|nd rest IH]; intros m D ready Hst.
  - exists m, ready. split; [done |]. by rewrite app_nil_r.
  - destruct (done_node_step _ _ _ _ _ Hst) as (m1 & ready1 & Hrun & Hst1).
    destruct (IH _ _ _ Hst1) as (m' & ready' & Hrun' & Hst').
    exists m', ready'. rewrite (for_each_cons_ok _ _ _ _ _ Hrun).
    split; [done |]. by rewrite <- app_assoc in Hst'.
Qed.

Lemma mark_out_loop l m :
  (∀ k, k ∈ l → is_Some (m !! k)) →
  ∃ m',
    for_each (fun nd m => graphlib.mark_out m nd) l m = Ok m' ∧
    ∀ k, m' !! k =
         if decide (k ∈ l)
         then graphlib.set_npredecessors graphlib.NODE_OUT <$> m !! k
         else m !! k.
Proof.
  revert m. induction l as [|x l IH]; intros m Hl.
  - exists m. split; [done |]. intros k. by rewrite decide_False by set_solver.
  - destruct (Hl x) as [i Hi]; [set_solver |].
    set (m1 := alter (graphlib.set_npredecessors graphlib.NODE_OUT) x m).
    destruct (IH m1) as (m' & Hrun & Hm').
    { intros k Hk. unfold m1. apply lookup_alter_is_Some. apply Hl. set_solver. }
    exists m'. split.
    + rewrite (for_each_cons_ok _ _ _ _ m1); [done |].
      unfold graphlib.mark_out. by rewrite Hi.
    + intros k. rewrite Hm'. unfold m1.
      destruct (decide (k = x)) as [-> | Hne].
      * rewrite lookup_alter_eq.
        rewrite (decide_True (P := x ∈ x :: l)) by apply list_elem_of_here.
        destruct (decide (x ∈ l)); [| done]. by destruct (m !! x).
      * rewrite lookup_alter_ne by done.
        destruct (decide (k ∈ l)) as [Hkl | Hkl].
        -- rewrite (decide_True (P := k ∈ x :: l)); [done |].
           by apply list_elem_of_further.
        -- rewrite (decide_False (P := k ∈ x :: l)); [done |].
           rewrite not_elem_of_cons. by split.
Qed.

Lemma get_ready_step m out ready :
  state_ok m0 keys m out [] ready →
  ∃ m',
    for_each (fun nd m => graphlib.mark_out m nd) ready m = Ok m' ∧
    state_ok m0 keys m' out ready [].
Proof.
  intros (Hsg & Hnd & Hsub & Hrd & Hst & Hready).
  rewrite app_nil_r in Hnd. setoid_rewrite app_nil_r in Hsub.
  destruct (mark_out_loop ready m) as (m' & Hrun & Hm').
  { intros k (i & Hi & _)%Hready. by exists i. }
  exists m'. split; [done |].
  assert (Hrk : ∀ k, k ∈ ready →
            ∃ i, m !! k = Some i ∧ graphlib.npredecessors i = 0 ∧
                 (k ∉ out) ∧ pending E keys out k = O).
  { intros k (i & Hi & H0)%Hready. exists i.
    destruct (Hst k i Hi) as (H1 & _ & H3).
    assert (k ∉ out).
    { intros H. apply H1 in H as [H _]. rewrite H0 in H. done. }
    split_and!; try done. rewrite H3 in H0; [lia | done | set_solver]. }
  split_and!.
  - intros k. rewrite Hm'. destruct (decide (k ∈ ready)); [| apply Hsg].
    rewrite <- Hsg. by destruct (m !! k).
  - apply NoDup_app. split_and!; try done.
    intros k Hk Hk'. apply Hrk in Hk' as (_ & _ & _ & H & _). done.
  - intros k [Hk | Hk]%elem_of_app; [by apply Hsub |].
    apply Hrk in Hk as (i & Hi & _).
    by apply (same_graph_lookup m k i).
  - constructor.
  - intros k i1 Hk. rewrite Hm' in Hk.
    destruct (decide (k ∈ ready)) as [Hkr | Hkr].
    + destruct (Hrk k Hkr) as (i & Hi & H0 & Hko & Hp).
      rewrite Hi in Hk. simpl in Hk. simplify_eq. simpl.
      split_and!; [done | done | done].
    + destruct (Hst k i1 Hk) as (H1 & _ & H3).
      split_and!; [done | done |]. intros Hko _. apply H3; [done | set_solver].
  - intros k. split; [by intros ?%elem_of_nil |].
    intros (i1 & Hk & H0). rewrite Hm' in Hk.
    destruct (decide (k ∈ ready)) as [Hkr | Hkr].
    + destruct (m !! k); simpl in Hk; by simplify_eq.
    + exfalso. apply Hkr, Hready. by exists i1.
Qed.

Lemma ordered_app m out ready :
  state_ok m0 keys m out [] ready → ordered m0 out → ordered m0 (out ++ ready).
Proof.
  intros (Hsg & Hnd & Hsub & Hrd & Hst & Hready) Hord i s Hi p Hp.
  apply lookup_app_Some in Hi as [Hi | [Hlen Hi]].
  - destruct (Hord i s Hi p Hp) as (j & Hj & Hjp).
    exists j. split; [done |]. by apply lookup_app_l_Some.
  - assert (Hs : s ∈ ready) by (by eapply list_elem_of_lookup_2).
    apply Hready in Hs as (is' & His & H0).
    destruct (Hst s is' His) as (H1 & _ & H3).
    assert (Hso : s ∉ out).
    { intros H. apply H1 in H as [H _]. rewrite H0 in H. done. }
    rewrite H3 in H0; [| done | set_solver].
    destruct (succ_is_key _ _ Hp) as [_ Hpk].
    destruct (decide (p ∈ out)) as [Hpo | Hpo].
    + apply list_elem_of_lookup_1 in Hpo as [j Hj]. exists j.
      split; [apply lookup_lt_Some in Hj; lia | by apply lookup_app_l_Some].
    + pose proof (pending_le E keys out s p Hpk Hpo) as Hle.
      apply occ_pos in Hp. lia.
Qed.

Lemma all_done fin m out :
  finished_ok E fin → (∀ k, k ∈ keys → k ∈ fin) →
  state_ok m0 keys m out [] [] → ∀ k, k ∈ keys → k ∈ out.
Proof.
  intros Hfin Hall (Hsg & Hnd & Hsub & Hrd & Hst & Hready).
  assert (Hgen : ∀ l1 l2, fin = l1 ++ l2 →
            ∀ k, k ∈ l1 → k ∈ keys → k ∈ out).
  { induction l1 as [|n l1 IH] using rev_ind; intros l2 Heq k Hk Hkk.
    { by apply elem_of_nil in Hk. }
    rewrite <- app_assoc in Heq. simpl in Heq.
    apply elem_of_app in Hk as [Hk | ->%list_elem_of_singleton].
    { by apply (IH (n :: l2)). }
    destruct (decide (n ∈ out)) as [| Hno]; [done | exfalso].
    destruct (same_graph_key m n Hsg Hkk) as (i & Hi & _).
    destruct (Hst n i Hi) as (_ & _ & H3).
    assert (Hfin2 : finished_ok E (n :: l2))
      by (apply (finished_ok_app E l1); by rewrite <- Heq).
    destruct Hfin2 as (Hn2 & HEn & Hfin2).
    assert (Hp0 : pending E keys out n = O).
    { apply pending_zero. intros p Hpk Hpo Hnp.
      assert (Hpf : p ∈ fin) by (by apply Hall).
      rewrite Heq in Hpf.
      apply elem_of_app in Hpf as [Hpf | Hpf].
      - apply Hpo. by apply (IH (n :: l2)).
      - apply elem_of_cons in Hpf as [-> | Hpf].
        + apply Hn2. by apply HEn.
        + destruct (finished_ok_later E l2 p n Hfin2 Hpf Hnp)
            as (l3 & l4 & -> & Hn4 & _).
          apply Hn2. set_solver. }
    assert (Hin : n ∈ @nil string).
    { apply Hready. exists i. split; [done |].
      rewrite H3; [lia | done | set_solver]. }
    by apply elem_of_nil in Hin. }
  intros k Hk. apply (Hgen fin []); [by rewrite app_nil_r | by apply Hall | done].
Qed.

(** The [while] loop of [static_order] ends within its fuel, and has
    then yielded every node once, each after the nodes it succeeds. *)
Lemma static_order_loop_spec fin fuel s out :
  finished_ok E fin → (∀ k, k ∈ keys → k ∈ fin) →
  loop_inv m0 keys s out → (length keys < fuel + length out)%nat →
  ∃ order,
    graphlib.static_order_loop fuel s out = Ok order ∧
    NoDup order ∧ (∀ k, k ∈ order ↔ k ∈ keys) ∧ ordered m0 order.
Proof.
  intros Hfin Hall. revert s out.
  induction fuel as [|fuel IH]; intros s out (ready & Hr & Hk & Hn & Hst & Hord) Hfuel.
  { destruct Hst as (_ & Hnd & Hsub & _). rewrite app_nil_r in Hnd.
    setoid_rewrite app_nil_r in Hsub.
    pose proof (submseteq_length _ _ (NoDup_submseteq _ _ Hnd Hsub)). lia. }
  simpl. unfold graphlib.is_active. rewrite Hr. simpl.
  rewrite (bool_decide_eq_false_2 (graphlib.nfinished s < graphlib.npassedout s))
    by lia.
  simpl. destruct (decide (ready = [])) as [-> | Hne].
  - rewrite bool_decide_eq_false_2 by (intros H; by apply H).
    exists out. pose proof Hst as (_ & Hnd & Hsub & _).
    rewrite app_nil_r in Hnd. setoid_rewrite app_nil_r in Hsub.
    split_and!; try done.
    intros k. split; [apply Hsub | by apply (all_done fin _ _ Hfin Hall Hst)].
  - rewrite bool_decide_eq_true_2 by done.
    destruct (get_ready_step _ _ _ Hst) as (m1 & Hrun1 & Hst1).
    destruct (done_loop _ _ _ _ Hst1) as (m2 & ready2 & Hrun2 & Hst2).
    unfold graphlib.get_ready. rewrite Hr. simpl. rewrite Hrun1. simpl.
    unfold graphlib.done. simpl. rewrite Hrun2. simpl.
    apply IH.
    + exists ready2. simpl. split_and!; try done; [lia |].
      by apply (ordered_app (graphlib.node2info s)).
    + rewrite length_app. destruct ready; [done |]. simpl. lia.
Qed.

End kahn.

(** ** Building the sorter from a graph *)

Lemma dep_snoc G nd preds n p :
  dep (G ++ [(nd, preds)]) n p ↔ dep G n p ∨ (n = nd ∧ p ∈ preds).
Proof.
  unfold dep. split.
  - intros (ps & [Hin | Hin%list_elem_of_singleton]%elem_of_app & Hp).
    + left. by exists ps.
    + right. by simplify_eq.
  - intros [(ps & Hin & Hp) | [-> Hp]].
    + exists ps. split; [| done]. apply elem_of_app. by left.
    + exists preds. split; [| done]. apply elem_of_app. right.
      by apply list_elem_of_singleton.
Qed.

Lemma node_of_snoc G nd preds k :
  node_of (G ++ [(nd, preds)]) k ↔ node_of G k ∨ k = nd ∨ k ∈ preds.
Proof.
  unfold node_of. setoid_rewrite dep_snoc. setoid_rewrite elem_of_app.
  setoid_rewrite list_elem_of_singleton. split.
  - intros [(ps & [H | H]) | (n & [H | [-> H]])]; simplify_eq; eauto.
  - intros [[(ps & H) | (n & H)] | [-> | H]]; eauto.
Qed.

Lemma pending_ext E E' keys D k :
  (∀ p, p ∈ keys → E' p = E p) → pending E' keys D k = pending E keys D k.
Proof.
  unfold pending. induction keys as [|q l IH]; intros H; [done |].
  rewrite !sum_list_with_cons, IH, H; [done | apply list_elem_of_here |].
  intros p Hp. apply H. by apply list_elem_of_further.
Qed.

Lemma pending_snoc E keys k p :
  pending E (keys ++ [p]) [] k = (pending E keys [] k + occ k (E p))%nat.
Proof.
  unfold pending. rewrite sum_list_with_app, sum_list_with_cons.
  rewrite (decide_False (P := p ∈ [])) by apply not_elem_of_nil.
  simpl. lia.
Qed.

Lemma pending_append E E' keys k p nd :
  NoDup keys → p ∈ keys → (∀ q, q ≠ p → E' q = E q) → E' p = E p ++ [nd] →
  pending E' keys [] k
  = (pending E keys [] k + if decide (k = nd) then 1 else 0)%nat.
Proof.
  intros Hnd Hp Hne Heq. unfold pending.
  induction keys as [|q l IH]; [by apply elem_of_nil in Hp |].
  apply NoDup_cons in Hnd as [Hq Hnd]. rewrite !sum_list_with_cons.
  rewrite !(decide_False (P := q ∈ [])) by apply not_elem_of_nil.
  destruct (decide (q = p)) as [-> | Hqp].
  - rewrite Heq, occ_app.
    assert (Hl : sum_list_with
                   (fun p0 => if decide (p0 ∈ []) then O else occ k (E' p0)) l
                 = sum_list_with
                   (fun p0 => if decide (p0 ∈ []) then O else occ k (E p0)) l).
    { apply (pending_ext E E' l [] k). intros q Hql. apply Hne.
      intros ->. done. }
    rewrite Hl. unfold occ at 2. rewrite filter_cons.
    destruct (decide (nd = k)) as [-> | Hn].
    + rewrite decide_True by done. simpl. lia.
    + rewrite decide_False by congruence. simpl. lia.
  - apply elem_of_cons in Hp as [-> | Hp]; [done |].
    rewrite (Hne q) by done. rewrite IH by done. lia.
Qed.

Lemma succs_insert m k i q :
  succs (<[k := i]> m) q
  = if decide (q = k) then graphlib.successors i else succs m q.
Proof.
  unfold succs. destruct (decide (q = k)) as [-> | Hne].
  - by rewrite lookup_insert_eq.
  - by rewrite lookup_insert_ne.
Qed.

Lemma succs_alter m f k q :
  succs (alter f k m) q
  = if decide (q = k)
    then match m !! k with
         | Some i => graphlib.successors (f i)
         | None => []
         end
    else succs m q.
Proof.
  unfold succs. destruct (decide (q = k)) as [-> | Hne].
  - rewrite lookup_alter_eq. by destruct (m !! k).
  - by rewrite lookup_alter_ne.
Qed.

Lemma graph_inv_equiv Edge Edge' Node Node' owed owed' m keys :
  (∀ s p, Edge s p ↔ Edge' s p) → (∀ k, Node k ↔ Node' k) →
  (∀ k, owed k = owed' k) →
  graph_inv Edge Node owed m keys → graph_inv Edge' Node' owed' m keys.
Proof.
  intros HE HN Ho (H1 & H2 & H3 & H4 & H5 & H6 & H7).
  split_and!; try done.
  - intros p s. by rewrite H4.
  - intros k. by rewrite H5.
  - intros p s Hs. apply HN, (H6 p), HE, Hs.
  - intros k i Hk. rewrite <- Ho. by apply H7.
Qed.

Lemma get_nodeinfo_inv Edge Node owed m keys nd :
  graph_inv Edge Node owed m keys → (m !! nd = None → owed nd = 0) →
  graph_inv Edge (fun k => Node k ∨ k = nd) owed
    (graphlib.get_nodeinfo nd m keys).1 (graphlib.get_nodeinfo nd m keys).2 ∧
  is_Some ((graphlib.get_nodeinfo nd m keys).1 !! nd).
Proof.
  intros (H1 & H2 & H3 & H4 & H5 & H6 & H7) Ho. unfold graphlib.get_nodeinfo.
  destruct (m !! nd) as [i|] eqn:Hnd; simpl.
  - split; [| by rewrite Hnd]. split_and!; try done.
    + intros k. rewrite H5. split; [by left |].
      intros [? | ->]; [done |]. apply H5, H2. by rewrite Hnd.
    + intros p s Hs. left. by apply (H6 p).
  - assert (Hnk : nd ∉ keys) by (rewrite H2, Hnd; by intros [? ?]).
    assert (Hsucc : ∀ q, succs (<[nd := graphlib.mkNodeInfo nd 0 []]> m) q
                         = succs m q).
    { intros q. rewrite succs_insert. destruct (decide (q = nd)) as [-> |]; [| done].
      unfold succs. by rewrite Hnd. }
    split; [| by rewrite lookup_insert_eq]. split_and!.
    + apply NoDup_app. split_and!; [done | | apply NoDup_singleton].
      intros k Hk ->%list_elem_of_singleton. done.
    + intros k. rewrite elem_of_app, list_elem_of_singleton, H2.
      destruct (decide (k = nd)) as [-> | Hne].
      * rewrite lookup_insert_eq. split; [by eexists | by right].
      * rewrite lookup_insert_ne by done. split; [by intros [? | ?] | by left].
    + intros k i. destruct (decide (k = nd)) as [-> | Hne].
      * rewrite lookup_insert_eq. by intros [= <-].
      * rewrite lookup_insert_ne by done. apply H3.
    + intros p s. rewrite Hsucc. apply H4.
    + intros k. rewrite elem_of_app, list_elem_of_singleton, H5. done.
    + intros p s Hs. left. by apply (H6 p).
    + intros k i Hk.
      rewrite (pending_ext (succs m) _ _ [] k) by (intros; apply Hsucc).
      rewrite pending_snoc. unfold succs at 2. rewrite Hnd.
      unfold occ at 1. simpl. rewrite Nat.add_0_r.
      destruct (decide (k = nd)) as [-> | Hne].
      * rewrite lookup_insert_eq in Hk. simplify_eq. simpl.
        rewrite Ho by done. rewrite pending_zero; [done |].
        intros p Hp _ Hin. apply Hnk, H5, (H6 p), H4, Hin.
      * rewrite lookup_insert_ne in Hk by done. by apply H7.
Qed.

Lemma add_pred_inv G nd dn rem m keys p :
  add_inv G nd dn (S rem) m keys →
  add_inv G nd (dn ++ [p]) rem
    (graphlib.add_pred nd (m, keys) p).1 (graphlib.add_pred nd (m, keys) p).2.
Proof.
  intros Hinv.
  assert (Hndk : is_Some (m !! nd)).
  { destruct Hinv as (_ & H2 & _ & _ & H5 & _). apply H2, H5. right. by left. }
  destruct (get_nodeinfo_inv _ _ _ m keys p Hinv) as [Hg Hp].
  { intros Hnone. rewrite decide_False; [done |]. intros ->.
    rewrite Hnone in Hndk. by destruct Hndk. }
  unfold graphlib.add_pred. simpl.
  destruct (graphlib.get_nodeinfo p m keys) as [m1 keys1]. simpl in *.
  destruct Hg as (H1 & H2 & H3 & H4 & H5 & H6 & H7). destruct Hp as [ip Hip].
  assert (Hpk : p ∈ keys1) by (apply H2; by exists ip).
  assert (Hsucc : ∀ q, succs (alter (graphlib.append_successor nd) p m1) q
                       = if decide (q = p) then succs m1 p ++ [nd]
                         else succs m1 q).
  { intros q. rewrite succs_alter, Hip. destruct (decide (q = p)); [| done].
    unfold succs. by rewrite Hip. }
  split_and!.
  - done.
  - intros k. rewrite H2. symmetry. apply lookup_alter_is_Some.
  - intros k i. destruct (decide (k = p)) as [-> | Hne].
    + rewrite lookup_alter_eq, Hip. intros [= <-]. simpl. by apply H3.
    + rewrite lookup_alter_ne by done. apply H3.
  - intros q s. rewrite Hsucc. destruct (decide (q = p)) as [-> | Hne].
    + rewrite elem_of_app, list_elem_of_singleton, H4, elem_of_app,
        list_elem_of_singleton. tauto.
    + rewrite H4, elem_of_app, list_elem_of_singleton. tauto.
  - intros k. rewrite H5, elem_of_app, list_elem_of_singleton. tauto.
  - intros q s [(ps & Hd & _) | [-> _]]; [| right; by left].
    left. left. by exists ps.
  - intros k i Hk.
    rewrite (pending_append (succs m1) _ keys1 k p nd H1 Hpk).
    + assert (Hold : ∃ i1, m1 !! k = Some i1 ∧
                graphlib.npredecessors i = graphlib.npredecessors i1).
      { destruct (decide (k = p)) as [-> | Hne].
        - rewrite lookup_alter_eq, Hip in Hk. simpl in Hk. simplify_eq.
          exists ip. by split.
        - rewrite lookup_alter_ne in Hk by done. by exists i. }
      destruct Hold as (i1 & Hi1 & ->). rewrite (H7 _ _ Hi1).
      destruct (decide (k = nd)); lia.
    + intros q Hq. by rewrite Hsucc, decide_False.
    + by rewrite Hsucc, decide_True.
Qed.

Lemma add_preds_inv G nd preds dn m keys :
  add_inv G nd dn (length preds) m keys →
  add_inv G nd (dn ++ preds) O
    (foldl (graphlib.add_pred nd) (m, keys) preds).1
    (foldl (graphlib.add_pred nd) (m, keys) preds).2.
Proof.
  revert dn m keys. induction preds as [|p preds IH]; intros dn m keys Hinv.
  - by rewrite app_nil_r.
  - simpl. apply (add_pred_inv _ _ _ _ _ _ p) in Hinv.
    destruct (graphlib.add_pred nd (m, keys) p) as [m1 keys1].
    apply IH in Hinv. by rewrite <- app_assoc in Hinv.
Qed.

Lemma add_inv_spec G nd preds s :
  init_inv G (graphlib.node2info s) (graphlib.node2info_keys s) →
  graphlib.ready_nodes s = None →
  ∃ s', graphlib.add nd preds s = Ok s' ∧
        init_inv (G ++ [(nd, preds)])
          (graphlib.node2info s') (graphlib.node2info_keys s') ∧
        graphlib.ready_nodes s' = None ∧
        graphlib.npassedout s' = graphlib.npassedout s ∧
        graphlib.nfinished s' = graphlib.nfinished s.
Proof.
  intros Hinv Hr. unfold graphlib.add. rewrite Hr.
  destruct (get_nodeinfo_inv _ _ _ _ _ nd Hinv) as [Hg Hnd]; [done |].
  destruct (graphlib.get_nodeinfo nd _ _) as [m1 keys1]. simpl in *.
  set (m2 := alter (graphlib.add_npredecessors (Z.of_nat (length preds))) nd m1).
  assert (H2 : add_inv G nd [] (length preds) m2 keys1).
  { destruct Hg as (H1 & H2 & H3 & H4 & H5 & H6 & H7). destruct Hnd as [i Hi].
    assert (Hsucc : ∀ q, succs m2 q = succs m1 q).
    { intros q. unfold m2. rewrite succs_alter, Hi.
      destruct (decide (q = nd)) as [-> |]; [| done]. unfold succs.
      by rewrite Hi. }
    split_and!.
    - done.
    - intros k. rewrite H2. symmetry. apply lookup_alter_is_Some.
    - intros k i'. unfold m2. destruct (decide (k = nd)) as [-> | Hne].
      + rewrite lookup_alter_eq, Hi. intros [= <-]. simpl. by apply H3.
      + rewrite lookup_alter_ne by done. apply H3.
    - intros p s'. rewrite Hsucc, H4. split; [by left |].
      intros [? | [_ ?%elem_of_nil]]; done.
    - intros k. rewrite H5. split.
      + intros [? | ?]; [by left | right; by left].
      + intros [? | [? | ?%elem_of_nil]]; [by left | by right | done].
    - intros p s' [(ps & Hd & _) | [_ ?%elem_of_nil]]; [| done].
      left. left. by exists ps.
    - intros k i' Hk.
      rewrite (pending_ext (succs m1) _ _ [] k) by (intros; apply Hsucc).
      unfold m2 in Hk. destruct (decide (k = nd)) as [-> | Hne].
      + rewrite lookup_alter_eq, Hi in Hk. simpl in Hk. simplify_eq. simpl.
        rewrite (H7 _ _ Hi). lia.
      + rewrite lookup_alter_ne in Hk by done. rewrite (H7 _ _ Hk). lia. }
  apply add_preds_inv in H2.
  destruct (foldl (graphlib.add_pred nd) (m2, keys1) preds) as [m3 keys3].
  eexists. split; [done |]. simpl in *. split_and!; try done.
  eapply graph_inv_equiv; [| | | exact H2].
  - intros s' p. by rewrite dep_snoc.
  - intros k. rewrite node_of_snoc. done.
  - intros k. simpl. by destruct (decide (k = nd)).
Qed.

Lemma init_from_spec G1 G2 s :
  init_inv G1 (graphlib.node2info s) (graphlib.node2info_keys s) →
  graphlib.ready_nodes s = None →
  ∃ s', for_each (fun e s => graphlib.add e.1 e.2 s) G2 s = Ok s' ∧
        init_inv (G1 ++ G2)
          (graphlib.node2info s') (graphlib.node2info_keys s') ∧
        graphlib.ready_nodes s' = None ∧
        graphlib.npassedout s' = graphlib.npassedout s ∧
        graphlib.nfinished s' = graphlib.nfinished s.
Proof.
  revert G1 s. induction G2 as [|[nd preds] G2 IH]; intros G1 s Hinv Hr.
  - exists s. by rewrite app_nil_r.
  - destruct (add_inv_spec G1 nd preds s Hinv Hr) as (s1 & Hadd & Hinv1 & Hr1 & Hp1 & Hf1).
    destruct (IH _ s1 Hinv1 Hr1) as (s' & Hrun & Hinv' & Hr' & Hp' & Hf').
    exists s'. rewrite (for_each_cons_ok _ _ _ _ s1) by done.
    rewrite <- app_assoc in Hinv'. split_and!; try done; congruence.
Qed.

Lemma init_spec G :
  ∃ s, graphlib.init G = Ok s ∧
       init_inv G (graphlib.node2info s) (graphlib.node2info_keys s) ∧
       graphlib.ready_nodes s = None ∧
       graphlib.npassedout s = 0 ∧ graphlib.nfinished s = 0.
Proof.
  destruct (init_from_spec [] G graphlib.new_sorter) as (s & H1 & H2 & H3 & H4 & H5).
  - split_and!; simpl.
    + constructor.
    + intros k. rewrite lookup_empty. split; [by intros ?%elem_of_nil |].
      by intros [? ?].
    + intros k i. by rewrite lookup_empty.
    + intros p s. unfold succs, dep. rewrite lookup_empty. split.
      * by intros ?%elem_of_nil.
      * by intros (? & ?%elem_of_nil & _).
    + intros k. unfold node_of, dep. split; [by intros ?%elem_of_nil |].
      intros [(? & ?%elem_of_nil) | (? & ? & ?%elem_of_nil & _)]; done.
    + intros p s (? & ?%elem_of_nil & _). done.
    + intros k i. by rewrite lookup_empty.
  - done.
  - exists s. by split_and!.
Qed.

(** ** Cycles and the result of [static_order] *)

Lemma tc_flip {A} (R : relation A) x y : tc (flip R) x y → tc R y x.
Proof.
  induction 1 as [x y H | x y z H _ IH].
  - by apply tc_once.
  - eapply tc_r; [exact IH | exact H].
Qed.

Lemma tc_mono {A} (R R' : relation A) x y :
  (∀ a b, R a b → R' a b) → tc R x y → tc R' x y.
Proof.
  intros HR. induction 1 as [x y H | x y z H _ IH].
  - apply tc_once. by apply HR.
  - eapply tc_l; [apply HR, H | exact IH].
Qed.

Lemma path_lookup E c i a b :
  path E c → c !! i = Some a → c !! S i = Some b → b ∈ E a.
Proof.
  intros Hp. revert i. induction Hp as [x | x y l Hy Hp IH]; intros i Ha Hb.
  - by destruct i.
  - destruct i as [|i]; simpl in *; [by simplify_eq |]. by apply (IH i).
Qed.

Lemma path_tc E a l b :
  path E (a :: l ++ [b]) → tc (fun x y => y ∈ E x) a b.
Proof.
  revert a. induction l as [|x l IH]; intros a Hp; simpl in Hp.
  - inversion Hp; subst. by apply tc_once.
  - inversion Hp; subst. eapply tc_l; [done |]. by apply IH.
Qed.

Lemma finished_no_cycle E fin :
  finished_ok E fin → (∀ p s, s ∈ E p → p ∈ fin) →
  ∀ n, ¬ tc (fun x y => y ∈ E x) n n.
Proof.
  intros Hfin Hall.
  assert (Hgen : ∀ a b, tc (fun x y => y ∈ E x) a b →
            ∀ l1 l2, fin = l1 ++ a :: l2 → b ∈ l2).
  { induction 1 as [a b H | a c b H _ IH]; intros l1 l2 Heq.
    - subst fin. apply finished_ok_app in Hfin as (_ & HE & _). by apply HE.
    - assert (Hc : c ∈ l2).
      { pose proof Hfin as Hfin'. rewrite Heq in Hfin'.
        apply finished_ok_app in Hfin' as (_ & HE & _). by apply HE. }
      apply list_elem_of_split in Hc as (l3 & l4 & ->).
      specialize (IH (l1 ++ a :: l3) l4).
      rewrite <- app_assoc in IH. specialize (IH Heq). set_solver. }
  intros n Hn.
  assert (Hnf : n ∈ fin).
  { inversion Hn as [? ? H | ? c ? H]; subst; by apply (Hall n _ H). }
  apply list_elem_of_split in Hnf as (l1 & l2 & Heq).
  pose proof (Hgen n n Hn l1 l2 Heq) as Hin.
  rewrite Heq in Hfin. apply finished_ok_app in Hfin as (Hnin & _). done.
Qed.

Lemma ready_spec (m : gmap string graphlib.NodeInfo) keys :
  NoDup keys → (∀ k, k ∈ keys ↔ is_Some (m !! k)) →
  (∀ k i, m !! k = Some i → graphlib.node i = k) →
  let ready :=
    graphlib.node <$> filter (fun i => graphlib.npredecessors i = 0)
                        (graphlib.values m keys) in
  NoDup ready ∧
  ∀ k, k ∈ ready ↔ ∃ i, m !! k = Some i ∧ graphlib.npredecessors i = 0.
Proof.
  intros Hnd Hdom Hnode ready.
  assert (Hmem : ∀ l k, k ∈ graphlib.node <$>
                   filter (fun i => graphlib.npredecessors i = 0)
                     (graphlib.values m l)
                 ↔ k ∈ l ∧ ∃ i, m !! k = Some i ∧ graphlib.npredecessors i = 0).
  { intros l k. rewrite list_elem_of_fmap. unfold graphlib.values. split.
    - intros (i & -> & Hi). apply list_elem_of_filter in Hi as [H0 Hi].
      apply list_elem_of_omap in Hi as (k' & Hk' & Hl).
      rewrite (Hnode _ _ Hl). split; [done |]. by exists i.
    - intros (Hk & i & Hi & H0). exists i. split; [by rewrite (Hnode _ _ Hi) |].
      apply list_elem_of_filter. split; [done |].
      apply list_elem_of_omap. by exists k. }
  split.
  - unfold ready. clear Hdom ready. induction keys as [|x l IH]; [constructor |].
    apply NoDup_cons in Hnd as [Hx Hnd]. unfold graphlib.values. simpl.
    destruct (m !! x) as [i|] eqn:Hi; [| by apply IH].
    rewrite filter_cons. destruct (decide (graphlib.npredecessors i = 0));
      [| by apply IH].
    rewrite fmap_cons. apply NoDup_cons. split; [| by apply IH].
    rewrite (Hnode _ _ Hi). intros [Hin _]%Hmem. done.
  - intros k. unfold ready. rewrite Hmem. split; [by intros [_ ?] |].
    intros (i & Hi & H0). split; [apply Hdom; by exists i | by exists i].
Qed.

Local Arguments graphlib.static_order_loop : simpl never.

(** [static_order] either raises [CycleError] with a cycle of the graph,
    and then the graph is not acyclic, or returns every node once, each
    after its predecessors, and then the graph is acyclic. No other
    exception and no fuel exhaustion is possible. *)
Lemma static_order_spec G :
  match graphlib.static_order G with
  | Ok order =>
      acyclic G ∧ NoDup order ∧ (∀ k, k ∈ order ↔ node_of G k) ∧
      after_dependencies G order
  | Err (CycleError msg c) =>
      msg = "nodes are in a cycle" ∧ cycle_in G c ∧ ¬ acyclic G
  | Err _ => False
  end.
Proof.
  unfold graphlib.static_order.
  destruct (init_spec G) as (s & -> & Hinv & Hr & Hp & Hf). simpl.
  destruct Hinv as (Hnd & Hdom & Hnode & Hedge & Hkeys & Hen & Hcount).
  set (m := graphlib.node2info s) in *.
  set (keys := graphlib.node2info_keys s) in *.
  assert (Hclosed : ∀ k s', s' ∈ succs m k → is_Some (m !! s')).
  { intros k s' Hs. apply Hdom, Hkeys, (Hen k), Hedge, Hs. }
  assert (Htc : ∀ a b, tc (fun x y => y ∈ succs m x) a b → tc (dep G) b a).
  { intros a b H. apply tc_flip. eapply tc_mono; [| exact H].
    intros x y Hxy. by apply Hedge. }
  unfold graphlib.prepare. rewrite Hr. simpl.
  unfold graphlib.find_cycle. simpl. fold m keys.
  pose proof (find_cycle_from_keys m keys Hdom Hclosed) as Hfc.
  destruct (graphlib.find_cycle_from _ m keys []) as [[c|]|e]; simpl;
    [| | done].
  - destruct Hfc as (n & mid & -> & Hpath). simpl. split; [done |].
    split.
    + split; [by exists n, mid |]. intros i a b Ha Hb.
      apply Hedge. by apply (path_lookup _ _ i a b Hpath).
    + intros Hac. apply (Hac n), Htc. by apply (path_tc _ n mid n).
  - destruct Hfc as (fin & Hfin & Hall).
    destruct (ready_spec m keys Hnd Hdom Hnode) as [Hrnd Hrmem].
    set (ready := graphlib.node <$> _) in *.
    destruct (static_order_loop_spec m keys Hdom Hnd Hclosed fin
                (S (length keys))
                (graphlib.mkSorter m keys (Some ready)
                   (graphlib.npassedout s) (graphlib.nfinished s)) [])
      as (order & Hrun & Ho1 & Ho2 & Ho3); try done.
    + exists ready. simpl. split_and!; try done; [congruence |].
      split_and!; try done.
      * constructor.
      * intros k Hk. by apply elem_of_nil in Hk.
      * intros k i Hk. split_and!; [by intros ?%elem_of_nil.. |].
        intros _ _. rewrite (Hcount _ _ Hk). lia.
    + simpl. lia.
    + fold keys. rewrite Hrun. split_and!.
      * intros n Hn. apply tc_flip in Hn.
        apply (finished_no_cycle (succs m) fin Hfin) with n.
        -- intros p x Hx. apply Hall, Hdom. unfold succs in Hx.
           destruct (m !! p); [done | by apply elem_of_nil in Hx].
        -- eapply tc_mono; [| exact Hn]. intros x y Hxy. by apply Hedge.
      * done.
      * intros k. by rewrite Ho2, Hkeys.
      * intros i j n p Hi Hj Hd.
        destruct (Ho3 i n Hi p) as (j' & Hlt & Hj'); [by apply Hedge |].
        by rewrite (NoDup_lookup _ _ _ _ Ho1 Hj Hj').
Qed.

(** ** The metadata template *)

Lemma string_length_app (a b : string) :
  String.length (a +:+ b) = (String.length a + String.length b)%nat.
Proof. induction a as [|c a IH]; simpl; [done | by rewrite IH]. Qed.

Lemma str_mul_length s n :
  String.length (str_mul s n) = (n * String.length s)%nat.
Proof.
  induction n as [|n IH]; simpl; [done |].
  rewrite string_length_app, IH. lia.
Qed.

Local Arguments str_mul : simpl never.

(** C5, as the code has it: from a descriptor of type [ChainPartition]
    the template is marked [Sha256Rsa4096] and carries a hash of 64
    zeros, a signature of 512 zeros and a public key of 1032 zeros; from
    any other descriptor it is marked [None] and the three fields are
    empty. In both cases the flags are 0, the rollback index location
    is the constant 0, and the only descriptor is the one given. *)
Theorem avb_generate_metadata_spec (d : descriptor) (ty pn : value) :
  d !! "type" = Some ty → d !! "partition_name" = Some pn →
  ∃ info,
    avb_generate_metadata d = Ok info ∧
    flags (header info) = 0 ∧
    rollback_index_location (header info) = 0 ∧
    descriptors (header info) = [d] ∧
    (ty = VStr "ChainPartition" →
     algorithm_type (header info) = "Sha256Rsa4096" ∧
     hash (header info) = str_mul "0" 64 ∧
     String.length (hash (header info)) = 64%nat ∧
     signature (header info) = str_mul "0" 512 ∧
     String.length (signature (header info)) = 512%nat ∧
     public_key (header info) = str_mul "0" 1032 ∧
     String.length (public_key (header info)) = 1032%nat) ∧
    (ty ≠ VStr "ChainPartition" →
     algorithm_type (header info) = "None" ∧
     hash (header info) = "" ∧
     signature (header info) = "" ∧
     public_key (header info) = "").
Proof.
  intros Hty Hpn. unfold avb_generate_metadata. rewrite Hpn, Hty.
  eexists. split; [done |]. simpl. split_and!; try done.
  - intros ->. rewrite bool_decide_eq_true_2 by done.
    rewrite !str_mul_length. by split_and!.
  - intros Hne. by rewrite bool_decide_eq_false_2.
Qed.

Lemma avb_generate_metadata_spec_witness :
  ∃ info,
    avb_generate_metadata chain_ref = Ok info ∧
    flags (header info) = 0 ∧
    rollback_index_location (header info) = 0 ∧
    descriptors (header info) = [chain_ref] ∧
    (VStr "ChainPartition" = VStr "ChainPartition" →
     algorithm_type (header info) = "Sha256Rsa4096" ∧
     hash (header info) = str_mul "0" 64 ∧
     String.length (hash (header info)) = 64%nat ∧
     signature (header info) = str_mul "0" 512 ∧
     String.length (signature (header info)) = 512%nat ∧
     public_key (header info) = str_mul "0" 1032 ∧
     String.length (public_key (header info)) = 1032%nat) ∧
    (VStr "ChainPartition" ≠ VStr "ChainPartition" →
     algorithm_type (header info) = "None" ∧
     hash (header info) = "" ∧
     signature (header info) = "" ∧
     public_key (header info) = "").
Proof.
  apply (avb_generate_metadata_spec chain_ref (VStr "ChainPartition")
           (VStr "vbmeta_system")); reflexivity.
Defined.

(** C5 as the specification states it fails on a chain descriptor whose
    rollback index location is 1: the signature of the template has 512
    characters, not 1024, and its rollback index location is 0, not the
    descriptor's. *)
Lemma avb_generate_metadata_counterexample :
  chain_ref !! "type" = Some (VStr "ChainPartition") ∧
  chain_ref !! "rollback_index_location" = Some (VInt 1) ∧
  ∃ info,
    avb_generate_metadata chain_ref = Ok info ∧
    String.length (signature (header info)) = 512%nat ∧
    String.length (signature (header info)) ≠ 1024%nat ∧
    Some (VInt (rollback_index_location (header info)))
      ≠ chain_ref !! "rollback_index_location".
Proof.
  split; [reflexivity |]. split; [reflexivity |].
  eexists. split; [reflexivity |].
  assert (Hlen : String.length (str_mul "0" 512) = 512%nat)
    by (by rewrite str_mul_length).
  split_and!; [exact Hlen | | done].
  intros H. change (String.length (str_mul "0" 512) = 1024%nat) in H.
  rewrite Hlen in H. lia.
Qed.

(** ** Packing one image *)

Lemma any_hash_tree_spec (ds : list descriptor) :
  (∀ d, d ∈ ds → is_Some (d !! "type")) →
  ∃ b, any_hash_tree ds = Ok b ∧
       (b = true ↔ ∃ d, d ∈ ds ∧ d !! "type" = Some (VStr "HashTree")).
Proof.
  induction ds as [|d ds IH]; intros Hty; simpl.
  - exists false. split; [done |]. split; [done |].
    intros (d & Hd & _). by apply elem_of_nil in Hd.
  - destruct (Hty d) as [ty Hd]; [apply list_elem_of_here |]. rewrite Hd.
    destruct (decide (ty = VStr "HashTree")) as [-> | Hne].
    + exists true. split; [done |]. split; [| done]. intros _.
      exists d. split; [apply list_elem_of_here | done].
    + destruct IH as (b & Hb & Hiff).
      { intros d' Hd'. apply Hty. by apply list_elem_of_further. }
      exists b. split; [done |]. rewrite Hiff. split.
      * intros (d' & Hd' & Ht). exists d'. split; [by apply list_elem_of_further | done].
      * intros (d' & [-> | Hd']%elem_of_cons & Ht); [congruence |]. by exists d'.
Qed.

(** C10: [avb_pack] runs [avbroot avb pack] on the metadata it read, and
    passes [--recompute-size] exactly when one of the descriptors of that
    metadata has type [HashTree]; otherwise it passes no extra argument. *)
Theorem avb_pack_recompute_size (w : World) (name : string) (s : FS)
    (avb_info : AvbInfo) :
  tomls s !! name = Some avb_info →
  (∀ d, d ∈ descriptors (header avb_info) → is_Some (d !! "type")) →
  ∃ extra_args,
    calls (avb_pack w name s).2
    = calls s ++ [CallAvbPack name avb_info extra_args] ∧
    ("--recompute-size" ∈ extra_args ↔
     ∃ d, d ∈ descriptors (header avb_info) ∧
          d !! "type" = Some (VStr "HashTree")) ∧
    (extra_args = ["--recompute-size"] ∨ extra_args = []).
Proof.
  intros Htoml Hty.
  destruct (any_hash_tree_spec _ Hty) as (b & Hb & Hiff).
  exists (if b then ["--recompute-size"] else []).
  split_and!.
  - unfold avb_pack, bindM, read_toml, liftM, avb_pack_extra_args. simpl.
    rewrite Htoml, Hb. simpl.
    by destruct (avb_pack_out w name avb_info _).
  - rewrite <- Hiff. destruct b.
    + split; [done |]. intros _. apply list_elem_of_here.
    + split; [by intros ?%elem_of_nil | done].
  - destruct b; [by left | by right].
Qed.

Lemma avb_pack_recompute_size_witness :
  ∃ extra_args,
    calls (avb_pack pack_world "system" unpacked_fs).2
    = calls unpacked_fs ++ [CallAvbPack "system" system_info extra_args] ∧
    ("--recompute-size" ∈ extra_args ↔
     ∃ d, d ∈ descriptors (header system_info) ∧
          d !! "type" = Some (VStr "HashTree")) ∧
    (extra_args = ["--recompute-size"] ∨ extra_args = []).
Proof.
  apply (avb_pack_recompute_size pack_world "system" unpacked_fs system_info).
  - reflexivity.
  - intros d Hd. apply list_elem_of_singleton in Hd. subst d.
    exists (VStr "HashTree"). reflexivity.
Defined.

(** ** The version gate *)

(** C8: when the version [avbroot] reports compares below
    [AVBROOT_REQUIRED_VERSION], [main], the command line parsed, raises
    [ValueError] right after asking for the version: neither subcommand
    runs, so nothing is unpacked or packed and no file is written. *)
Theorem version_gate (w : World) (output : string) (vs : string * list Z)
    (args_action : option action) (s : FS) :
  version_stdout w = Ok output → parse_version output = Ok vs →
  tuple_lt vs.2 AVBROOT_REQUIRED_VERSION = true →
  main w (Namespace args_action) s
  = (Err (ValueError ("avbroot version " +:+ vs.1 +:+ " < 3.19.0")),
     mkFS (calls s ++ [CallVersion]) (tomls s) (out_images s) (lp_images s)).
Proof.
  intros Hout Hparse Hlt.
  unfold main, bindM, check_avbroot_version, bindM, log, liftM.
  rewrite Hout, Hparse, Hlt. reflexivity.
Qed.

Lemma version_gate_witness :
  main (mkWorld elements (Ok "avbroot 3.18.2") (fun _ => false) unpacked
          resign true (fun _ => true) None true [] None)
    (Namespace (Some Pack)) unpacked_fs
  = (Err (ValueError "avbroot version 3.18.2 < 3.19.0"),
     mkFS [CallVersion] (tomls unpacked_fs) ∅ ∅).
Proof.
  apply (version_gate _ "avbroot 3.18.2" ("3.18.2", [3; 18; 2]));
    reflexivity.
Defined.

(** ** The slots of the LP metadata *)

Lemma for_M_app {A V} (body : A → V → M V) l1 l2 v s :
  for_M body (l1 ++ l2) v s
  = match for_M body l1 v s with
    | (Ok v', s') => for_M body l2 v' s'
    | (Err e, s') => (Err e, s')
    end.
Proof.
  revert v s. induction l1 as [|x l1 IH]; intros v s; simpl; [done |].
  unfold bindM. destruct (body x v s) as [[v'|e] s']; [apply IH | done].
Qed.

Lemma for_M_cons_err {A V} (body : A → V → M V) x l v s e s' :
  body x v s = (Err e, s') → for_M body (x :: l) v s = (Err e, s').
Proof. intros H. simpl. unfold bindM. by rewrite H. Qed.

Lemma unpack_b_not_empty w ds lp_name names s size :
  endswith lp_name "_b" = true → lp_images s !! lp_name = Some size →
  size ≠ 0 →
  unpack_lp_partition w ds lp_name names s
  = (Err (ValueError (lp_name +:+ " should be empty")), s).
Proof.
  intros Hb Hsize Hne. unfold unpack_lp_partition. rewrite Hb.
  unfold bindM, get_fs. rewrite Hsize. by rewrite decide_True.
Qed.

Lemma unpack_unknown_suffix w ds lp_name names s :
  endswith lp_name "_a" = false → endswith lp_name "_b" = false →
  unpack_lp_partition w ds lp_name names s
  = (Err (ValueError ("Unknown LP partition name: " +:+ lp_name)), s).
Proof.
  intros Ha Hb. unfold unpack_lp_partition. by rewrite Hb, Ha.
Qed.

Lemma pack_unknown_suffix lp_name s :
  endswith lp_name "_a" = false → endswith lp_name "_b" = false →
  pack_lp_partition lp_name tt s
  = (Err (ValueError ("Unknown LP partition name: " +:+ lp_name)), s).
Proof.
  intros Ha Hb. unfold pack_lp_partition. by rewrite Ha, Hb.
Qed.

(** The body of the unpack loop leaves the [_b] images as they are. *)
Lemma unpack_lp_partition_keeps_b w ds x names s b :
  endswith b "_b" = true →
  lp_images (unpack_lp_partition w ds x names s).2 !! b = lp_images s !! b.
Proof.
  intros Hb. unfold unpack_lp_partition.
  destruct (endswith x "_b") eqn:Hxb.
  { unfold bindM, get_fs. destruct (lp_images s !! x); [| done].
    by destruct (decide (z ≠ 0)). }
  destruct (endswith x "_a") eqn:Hxa; [| done]. simpl.
  unfold bindM, log, avb_is_valid, bindM, log, retM. simpl.
  destruct (avb_info_ok w x).
  - unfold avb_unpack, bindM, log, write_toml. simpl.
    by destruct (avb_unpack_out w (LpImage x)).
  - destruct (ds !! removesuffix x "_a") as [d|]; [| done].
    unfold liftM. destruct (avb_generate_metadata d) as [i|e]; [| done].
    unfold write_toml, get_fs, set_lp_images. simpl.
    destruct (lp_images s !! x) eqn:Hx; [| done]. simpl.
    rewrite lookup_delete_ne; [done |]. intros ->. congruence.
Qed.

Lemma unpack_never_completes_b w ds l lp_name names s size :
  lp_name ∈ l → endswith lp_name "_b" = true →
  lp_images s !! lp_name = Some size → size ≠ 0 →
  ∃ e s', for_M (unpack_lp_partition w ds) l names s = (Err e, s').
Proof.
  intros Hin Hb. revert names s.
  induction l as [|x l IH]; intros names s Hsize Hne;
    [by apply elem_of_nil in Hin |].
  simpl. unfold bindM.
  destruct (unpack_lp_partition w ds x names s) as [[names'|e] s'] eqn:Hx;
    [| by eauto].
  apply elem_of_cons in Hin as [-> | Hin].
  - rewrite (unpack_b_not_empty _ _ _ _ _ size) in Hx by done. done.
  - apply IH; [done | | done].
    pose proof (unpack_lp_partition_keeps_b w ds x names s lp_name Hb) as Hk.
    rewrite Hx in Hk. simpl in Hk. by rewrite Hk.
Qed.

Lemma never_completes_unknown {V} (body : string → V → M V) l lp_name
    (msg : string) :
  (∀ v s, body lp_name v s = (Err (ValueError msg), s)) →
  lp_name ∈ l →
  ∀ v s, ∃ e s', for_M body l v s = (Err e, s').
Proof.
  intros Hbody Hin. induction l as [|x l IH]; intros v s;
    [by apply elem_of_nil in Hin |].
  simpl. unfold bindM.
  destruct (body x v s) as [[v'|e] s'] eqn:Hx; [| by eauto].
  apply elem_of_cons in Hin as [-> | Hin].
  - rewrite Hbody in Hx. done.
  - by apply IH.
Qed.

Lemma bindM_err {A B} (c : M A) (k : A → M B) s :
  (∀ a s1, c s = (Ok a, s1) → ∃ e s', k a s1 = (Err e, s')) →
  ∃ e s', bindM c k s = (Err e, s').
Proof.
  intros Hk. unfold bindM.
  destruct (c s) as [[a|e] s1]; [by apply Hk | by eauto].
Qed.

Lemma bindM_err_l {A B} (c : M A) (k : A → M B) s :
  (∃ e s', c s = (Err e, s')) → ∃ e s', bindM c k s = (Err e, s').
Proof. intros (e & s' & H). exists e, s'. unfold bindM. by rewrite H. Qed.

Lemma lp_unpack_ok w s groups s' :
  lp_unpack w s = (Ok groups, s') →
  ∃ imgs, lp_unpack_out w = Some (groups, imgs) ∧ lp_images s' = imgs.
Proof.
  unfold lp_unpack, bindM, log, set_lp_images, retM, raiseM. simpl.
  destruct (lp_unpack_out w) as [[g imgs]|]; simpl; [| done].
  intros [= <- <-]. by exists imgs.
Qed.

(** An unpack run on a super image that holds a slot [_b] with data, or a
    slot with neither suffix, ends with an exception. *)
Lemma unpack_subcommand_rejects w s groups imgs lp_name :
  lp_unpack_out w = Some (groups, imgs) → lp_name ∈ concat groups →
  (endswith lp_name "_b" = true ∧
   ∃ size, imgs !! lp_name = Some size ∧ size ≠ 0) ∨
  (endswith lp_name "_a" = false ∧ endswith lp_name "_b" = false) →
  ∃ e s', unpack_subcommand w s = (Err e, s').
Proof.
  intros Hout Hin Hbad. unfold unpack_subcommand.
  apply bindM_err. intros _ s1 _. cbv beta zeta.
  apply bindM_err. intros ds s2 _.
  apply bindM_err. intros _ s3 _.
  apply bindM_err. intros _ s4 _.
  apply bindM_err. intros groups' s5 Hlp.
  apply lp_unpack_ok in Hlp as (imgs' & Hout' & Himgs).
  rewrite Hout in Hout'. injection Hout' as <- <-.
  apply bindM_err_l.
  destruct Hbad as [(Hb & size & Hsize & Hne) | (Ha & Hb)].
  - apply (unpack_never_completes_b _ _ _ lp_name _ _ size); try done.
    by rewrite Himgs.
  - eapply never_completes_unknown; [| exact Hin].
    intros v s0. by apply unpack_unknown_suffix.
Qed.

(** A pack run on an LP metadata that holds a slot with neither suffix
    ends with an exception. *)
Lemma pack_subcommand_rejects w s groups lp_name :
  input_lp_toml w = Some groups → lp_name ∈ concat groups →
  endswith lp_name "_a" = false → endswith lp_name "_b" = false →
  ∃ e s', pack_subcommand w s = (Err e, s').
Proof.
  intros Hlp Hin Ha Hb. unfold pack_subcommand.
  apply bindM_err. intros _ s1 _.
  apply bindM_err. intros s2 s3 _.
  apply bindM_err. intros order s4 _.
  apply bindM_err. intros _ s5 _.
  apply bindM_err. intros _ s6 _.
  apply bindM_err. intros _ s7 _.
  rewrite Hlp. apply bindM_err_l.
  eapply never_completes_unknown; [| exact Hin].
  intros [] s0. by apply pack_unknown_suffix.
Qed.

(** C6 ([InvariantViolation] is the script's [ValueError]). When the
    unpack loop reaches a slot whose name ends in [_b] and whose image is
    not empty, it raises [ValueError] there; when the unpack loop or the
    pack loop reaches a slot whose name ends in neither [_a] nor [_b], it
    raises [ValueError] there; a list of slots that holds such a slot
    is never unpacked, or packed, to its end; and an unpack or pack run
    on a super image with such a slot ends with an exception. *)
Theorem lp_slot_rejected (w : World) (avb_descriptors : gmap string descriptor)
    (pre post : list string) (lp_name : string) :
  (∀ names names' s s' size,
     for_M (unpack_lp_partition w avb_descriptors) pre names s = (Ok names', s') →
     endswith lp_name "_b" = true →
     lp_images s' !! lp_name = Some size → size ≠ 0 →
     for_M (unpack_lp_partition w avb_descriptors) (pre ++ lp_name :: post)
       names s
     = (Err (ValueError (lp_name +:+ " should be empty")), s')) ∧
  (∀ names names' s s',
     for_M (unpack_lp_partition w avb_descriptors) pre names s = (Ok names', s') →
     endswith lp_name "_a" = false → endswith lp_name "_b" = false →
     for_M (unpack_lp_partition w avb_descriptors) (pre ++ lp_name :: post)
       names s
     = (Err (ValueError ("Unknown LP partition name: " +:+ lp_name)), s')) ∧
  (∀ s s',
     for_M pack_lp_partition pre tt s = (Ok tt, s') →
     endswith lp_name "_a" = false → endswith lp_name "_b" = false →
     for_M pack_lp_partition (pre ++ lp_name :: post) tt s
     = (Err (ValueError ("Unknown LP partition name: " +:+ lp_name)), s')) ∧
  (∀ names s size,
     endswith lp_name "_b" = true →
     lp_images s !! lp_name = Some size → size ≠ 0 →
     ∃ e s', for_M (unpack_lp_partition w avb_descriptors)
               (pre ++ lp_name :: post) names s = (Err e, s')) ∧
  (∀ names s,
     endswith lp_name "_a" = false → endswith lp_name "_b" = false →
     (∃ e s', for_M (unpack_lp_partition w avb_descriptors)
                (pre ++ lp_name :: post) names s = (Err e, s')) ∧
     (∃ e s', for_M pack_lp_partition (pre ++ lp_name :: post) tt s
              = (Err e, s'))) ∧
  (∀ s groups imgs,
     lp_unpack_out w = Some (groups, imgs) → lp_name ∈ concat groups →
     (endswith lp_name "_b" = true ∧
      ∃ size, imgs !! lp_name = Some size ∧ size ≠ 0) ∨
     (endswith lp_name "_a" = false ∧ endswith lp_name "_b" = false) →
     ∃ e s', unpack_subcommand w s = (Err e, s')) ∧
  (∀ s groups,
     input_lp_toml w = Some groups → lp_name ∈ concat groups →
     endswith lp_name "_a" = false → endswith lp_name "_b" = false →
     ∃ e s', pack_subcommand w s = (Err e, s')).
Proof.
  assert (Hin : lp_name ∈ pre ++ lp_name :: post).
  { apply elem_of_app. right. apply list_elem_of_here. }
  split_and!; [| | | | | intros s groups imgs; apply unpack_subcommand_rejects
               | intros s groups; apply pack_subcommand_rejects].
  - intros names names' s s' size Hpre Hb Hsize Hne.
    rewrite for_M_app, Hpre. apply for_M_cons_err.
    by apply (unpack_b_not_empty _ _ _ _ _ size).
  - intros names names' s s' Hpre Ha Hb.
    rewrite for_M_app, Hpre. apply for_M_cons_err.
    by apply unpack_unknown_suffix.
  - intros s s' Hpre Ha Hb.
    rewrite for_M_app, Hpre. apply for_M_cons_err.
    by apply pack_unknown_suffix.
  - intros names s size Hb Hsize Hne.
    by apply (unpack_never_completes_b _ _ _ lp_name _ _ size).
  - intros names s Ha Hb. split.
    + eapply never_completes_unknown; [| exact Hin].
      intros v s0. by apply unpack_unknown_suffix.
    + eapply never_completes_unknown; [| exact Hin].
      intros [] s0. by apply pack_unknown_suffix.
Qed.

(** The three rejections on an LP metadata of three slots: [system_b]
    with data, and the slot [odm] with no suffix. *)
Lemma lp_slot_rejected_witness :
  for_M (unpack_lp_partition unpack_world ∅) ["system_b"; "odm"] []
    (mkFS [] ∅ ∅ (<["system_b" := 512]> ∅))
  = (Err (ValueError "system_b should be empty"),
     mkFS [] ∅ ∅ (<["system_b" := 512]> ∅)) ∧
  for_M (unpack_lp_partition unpack_world ∅) ["odm"; "system_b"] [] empty_fs
  = (Err (ValueError "Unknown LP partition name: odm"), empty_fs) ∧
  for_M pack_lp_partition ["odm"; "system_b"] tt empty_fs
  = (Err (ValueError "Unknown LP partition name: odm"), empty_fs).
Proof.
  split_and!.
  - apply (proj1 (lp_slot_rejected unpack_world ∅ [] ["odm"] "system_b")
             [] [] _ _ 512); [reflexivity | reflexivity | reflexivity | done].
  - apply (proj1 (proj2 (lp_slot_rejected unpack_world ∅ [] ["system_b"] "odm"))
             [] []); reflexivity.
  - apply (proj1 (proj2 (proj2
             (lp_slot_rejected unpack_world ∅ [] ["system_b"] "odm"))));
      reflexivity.
Defined.

(** ** What a run leaves behind *)

Section yields.
Variable T : FS → FS → Prop.
Hypothesis T_refl : ∀ s, T s s.
Hypothesis T_trans : ∀ s1 s2 s3, T s1 s2 → T s2 s3 → T s1 s3.

Lemma yields_ret {A} (R : A → Prop) a : R a → yields T R (retM a).
Proof. intros Ha s. split; [apply T_refl |]. by intros a' [= <-]. Qed.

Lemma yields_raise {A} (R : A → Prop) e : yields T R (raiseM e).
Proof. intros s. split; [apply T_refl | done]. Qed.

Lemma yields_lift {A} (R : A → Prop) (r : result A) :
  (∀ a, r = Ok a → R a) → yields T R (liftM r).
Proof. intros Hr s. split; [apply T_refl | apply Hr]. Qed.

Lemma yields_get_fs : yields T (fun _ => True) get_fs.
Proof. intros s. split; [apply T_refl | done]. Qed.

Lemma yields_read_toml dir : yields T (fun _ => True) (read_toml dir).
Proof.
  intros s. unfold read_toml. destruct (tomls s !! dir); (split; [apply T_refl | done]).
Qed.

Lemma yields_weaken {A} (R R' : A → Prop) c :
  (∀ a, R a → R' a) → yields T R c → yields T R' c.
Proof. intros HR Hc s. destruct (Hc s) as [H1 H2]. split; [done |]. auto. Qed.

Lemma yields_bind {A B} (R : A → Prop) (R' : B → Prop) c (k : A → M B) :
  yields T R c → (∀ a, R a → yields T R' (k a)) → yields T R' (bindM c k).
Proof.
  intros Hc Hk s. unfold bindM. destruct (Hc s) as [H1 H2].
  destruct (c s) as [[a|e] s1]; simpl in *; [| done].
  destruct (Hk a (H2 a eq_refl) s1) as [H3 H4]. split; [| done].
  by apply T_trans with s1.
Qed.

Lemma yields_for_M {A V} (I : V → Prop) (body : A → V → M V) l v :
  (∀ x v, x ∈ l → I v → yields T I (body x v)) → I v →
  yields T I (for_M body l v).
Proof.
  revert v. induction l as [|x l IH]; intros v Hbody Hv; simpl.
  - by apply yields_ret.
  - apply yields_bind with I.
    + apply Hbody; [apply list_elem_of_here | done].
    + intros v' Hv'. apply IH; [| done].
      intros y v0 Hy. apply Hbody. by apply list_elem_of_further.
Qed.

End yields.

Lemma extends_refl P s : extends P s s.
Proof. exists []. by rewrite app_nil_r. Qed.

Lemma extends_trans P s1 s2 s3 :
  extends P s1 s2 → extends P s2 s3 → extends P s1 s3.
Proof.
  intros (l1 & H1 & HP1) (l2 & H2 & HP2). exists (l1 ++ l2).
  rewrite H2, H1, app_assoc. split; [done |]. by apply Forall_app.
Qed.

Lemma extends_log P c s : P c → extends P s (log c s).2.
Proof. intros Hc. exists [c]. split; [done |]. by apply Forall_singleton. Qed.

Lemma extends_same_calls P s s' : calls s' = calls s → extends P s s'.
Proof. intros H. exists []. by rewrite app_nil_r. Qed.

Lemma yields_log P c : P c → yields (extends P) (fun _ => True) (log c).
Proof. intros Hc s. split; [by apply extends_log | done]. Qed.

Lemma yields_quiet P {A} (c : M A) :
  (∀ s, calls (c s).2 = calls s) → yields (extends P) (fun _ => True) c.
Proof. intros Hc s. split; [by apply extends_same_calls | done]. Qed.

(** ** The flags of a packed image *)

Lemma land_lnot_3 f : Z.land (Z.land f (Z.lnot 3)) 3 = 0.
Proof. rewrite <- Z.land_assoc. change (Z.land (Z.lnot 3) 3) with 0. apply Z.land_0_r. Qed.

Lemma land_lnot_3_bits f :
  Z.testbit (Z.land f (Z.lnot 3)) 0 = false ∧
  Z.testbit (Z.land f (Z.lnot 3)) 1 = false.
Proof.
  rewrite !Z.land_spec. change (Z.testbit (Z.lnot 3) 0) with false.
  change (Z.testbit (Z.lnot 3) 1) with false. by rewrite !andb_false_r.
Qed.

Lemma prepare_vbmeta_flags ds pks info info' :
  prepare_vbmeta ds pks info = Ok info' →
  flags (header info') = Z.land (flags (header info)) (Z.lnot 3).
Proof.
  unfold prepare_vbmeta. destruct (propagate ds pks _); simpl; [| done].
  by intros [= <-].
Qed.

Lemma pack_image_extends w name v s :
  extends flags_cleared s (pack_image w name v s).2.
Proof.
  unfold pack_image, bindM.
  assert (Hprep : calls (prepare_image name v s).2 = calls s ∧
            ∀ u i, (prepare_image name v s).1 = Ok u →
                   startswith name "vbmeta" = true →
                   tomls (prepare_image name v s).2 !! name = Some i →
                   Z.land (flags (header i)) 3 = 0).
  { unfold prepare_image. destruct (startswith name "vbmeta"); [| by split].
    unfold bindM, read_toml, liftM, write_toml.
    destruct (tomls s !! name) as [i0|]; [| by split].
    destruct (prepare_vbmeta v.1 v.2 i0) as [i1|e] eqn:Hp; [| by split].
    simpl. split; [done |]. intros _ i _ _. rewrite lookup_insert_eq.
    intros [= <-]. rewrite (prepare_vbmeta_flags _ _ _ _ Hp).
    apply land_lnot_3. }
  destruct (prepare_image name v s) as [[u|e] s1]; simpl in *;
    [| apply extends_same_calls, Hprep].
  destruct Hprep as [Hcalls Hflags].
  assert (Hpack : extends flags_cleared s1 (avb_pack w name s1).2).
  { unfold avb_pack, bindM, read_toml, liftM.
    destruct (tomls s1 !! name) as [i|] eqn:Hi; [| apply extends_refl].
    destruct (avb_pack_extra_args i) as [args|e]; [| apply extends_refl].
    simpl. exists [CallAvbPack name i args]. split.
    - by destruct (avb_pack_out w name i args).
    - apply Forall_singleton. simpl. intros Hvb. by apply (Hflags u). }
  assert (Hs1 : extends flags_cleared s s1) by (by apply extends_same_calls).
  destruct (avb_pack w name s1) as [[[]|e] s2]; simpl in *;
    [| by apply extends_trans with s1].
  apply extends_trans with s2; [by apply extends_trans with s1 |].
  apply extends_same_calls. unfold read_toml.
  by destruct (tomls s2 !! name).
Qed.

(** C3, as the code has it: the two low flag bits are cleared for the
    images whose name starts with [vbmeta], and for those only. Every
    call of [avbroot avb pack] on such an image in a pack run hands over
    flags with both bits zero; the block that prepares it writes the old
    flags with the two bits cleared and the others kept (3 gives 0, 5
    gives 4); for any other image the block does nothing. *)
Theorem vbmeta_flags_cleared (w : World) (s : FS) :
  extends flags_cleared s (pack_subcommand w s).2 ∧
  (∀ name v s0 info info',
     startswith name "vbmeta" = true → tomls s0 !! name = Some info →
     prepare_vbmeta v.1 v.2 info = Ok info' →
     prepare_image name v s0
     = (Ok tt, mkFS (calls s0) (<[name := info']> (tomls s0)) (out_images s0)
                 (lp_images s0)) ∧
     flags (header info') = Z.land (flags (header info)) (Z.lnot 3) ∧
     Z.land (flags (header info')) 3 = 0 ∧
     Z.testbit (flags (header info')) 0 = false ∧
     Z.testbit (flags (header info')) 1 = false) ∧
  (∀ name v s0,
     startswith name "vbmeta" = false → prepare_image name v s0 = (Ok tt, s0)) ∧
  Z.land 3 (Z.lnot 3) = 0 ∧ Z.land 5 (Z.lnot 3) = 4.
Proof.
  split_and!; [| | | done | done].
  - pose (T := extends flags_cleared).
    assert (Hq : ∀ {A} (c : M A), (∀ s, calls (c s).2 = calls s) →
              yields T (fun _ => True) c) by (intros; by apply yields_quiet).
    assert (Hl : ∀ c, flags_cleared c → yields T (fun _ => True) (log c))
      by (intros; by apply yields_log).
    assert (Hb : ∀ {A B} (c : M A) (k : A → M B),
              yields T (fun _ => True) c →
              (∀ a, yields T (fun _ => True) (k a)) →
              yields T (fun _ => True) (bindM c k)).
    { intros A B c k Hc Hk. eapply yields_bind; [apply extends_trans | exact Hc |].
      intros a _. apply Hk. }
    assert (Hr : ∀ {A} (e : error), yields T (fun _ : A => True) (raiseM e))
      by (intros; apply yields_raise, extends_refl).
    assert (Hret : ∀ {A} (a : A), yields T (fun _ => True) (retM a))
      by (intros; by apply yields_ret; [apply extends_refl |]).
    assert (Hfor : ∀ {A V} (body : A → V → M V) l v,
              (∀ x v, yields T (fun _ => True) (body x v)) →
              yields T (fun _ => True) (for_M body l v)).
    { intros A V body l v Hbody.
      apply yields_for_M; [apply extends_refl | apply extends_trans | | done].
      intros; apply Hbody. }
    cut (yields T (fun _ => True) (pack_subcommand w));
      [intros Hy; exact (proj1 (Hy s)) |].
    unfold pack_subcommand.
    apply Hb; [by apply Hl |]. intros _.
    apply Hb; [by apply Hq |]. intros s0.
    apply Hb; [by apply Hq |]. intros order.
    apply Hb.
    { apply Hfor. intros x v s1. split; [apply pack_image_extends | done]. }
    intros _. apply Hb.
    { unfold avb_verify. apply Hb; [by apply Hl |]. intros _.
      destruct (avb_verify_ok w); [apply Hret | apply Hr]. }
    intros _. apply Hb; [by apply Hl |]. intros _.
    destruct (input_lp_toml w) as [groups|]; [| apply Hr].
    apply Hb.
    { apply Hfor. intros x [] s1. split; [| done]. unfold pack_lp_partition.
      destruct (endswith x "_a").
      - unfold bindM, get_fs. simpl.
        destruct (decide (removesuffix x "_a" ∈ out_images s1));
          [| apply extends_refl].
        simpl. eexists [_]. split; [reflexivity | by apply Forall_singleton].
      - destruct (endswith x "_b"); [| apply extends_refl].
        by apply extends_same_calls. }
    intros _. apply Hb.
    { unfold lp_pack. apply Hb; [by apply Hl |]. intros _.
      destruct (lp_pack_ok w); [apply Hret | apply Hr]. }
    intros _. apply Hb; [by apply Hl |]. intros _. by apply Hq.
  - intros name v s0 info info' Hvb Htoml Hprep.
    pose proof (prepare_vbmeta_flags _ _ _ _ Hprep) as Hf.
    split_and!.
    + unfold prepare_image. rewrite Hvb. unfold bindM, read_toml, liftM.
      by rewrite Htoml, Hprep.
    + done.
    + rewrite Hf. apply land_lnot_3.
    + rewrite Hf. apply land_lnot_3_bits.
    + rewrite Hf. apply land_lnot_3_bits.
  - intros name v s0 Hvb. unfold prepare_image. by rewrite Hvb.
Qed.

(** The pack run over the four unpacked directories: [vbmeta], unpacked
    with flags 3, is the fifth call of the run and is handed to [avbroot]
    with flags 0. *)
Lemma vbmeta_flags_cleared_witness :
  extends flags_cleared unpacked_fs (pack_subcommand pack_world unpacked_fs).2 ∧
  flags (header vbmeta_info) = 3 ∧
  match calls (pack_subcommand pack_world unpacked_fs).2 !! 4%nat with
  | Some (CallAvbPack name info _) =>
      name = "vbmeta" ∧ flags (header info) = 0
  | _ => False
  end.
Proof.
  split; [exact (proj1 (vbmeta_flags_cleared pack_world unpacked_fs)) |].
  split; [reflexivity |]. vm_compute. split; reflexivity.
Defined.

(** C3 as the specification states it fails on the image [boot], whose
    name does not start with [vbmeta]: the pack run completes, hands the
    metadata of [boot] to [avbroot] with flags 3, and leaves them 3. *)
Lemma flags_not_cleared_counterexample :
  (pack_subcommand pack_world unpacked_fs).1 = Ok tt ∧
  CallAvbPack "boot" boot_info []
    ∈ calls (pack_subcommand pack_world unpacked_fs).2 ∧
  flags (header boot_info) = 3 ∧
  Z.land (flags (header boot_info)) 3 = 3 ∧
  (fun i => flags (header i))
    <$> tomls (pack_subcommand pack_world unpacked_fs).2 !! "boot" = Some 3.
Proof.
  split_and!; try (vm_compute; reflexivity).
  apply list_elem_of_lookup. exists 1%nat. vm_compute. reflexivity.
Qed.

(** ** The pack order *)

Lemma references_spec name info p :
  p ∈ references name info ↔
  ∃ d, d ∈ descriptors (header info) ∧ partition_name_of d = Some p ∧ p ≠ name.
Proof.
  unfold references.
  assert (Hgen : ∀ ds (acc : gset string),
            p ∈ foldl (fun acc d =>
                         match partition_name_of d with
                         | Some pn => if decide (pn ≠ name) then {[pn]} ∪ acc else acc
                         | None => acc
                         end) acc ds
            ↔ p ∈ acc ∨ ∃ d, d ∈ ds ∧ partition_name_of d = Some p ∧ p ≠ name).
  { induction ds as [|d ds IH]; intros acc; simpl.
    - split; [by left |]. intros [? | (d & Hd & _)]; [done |].
      by apply elem_of_nil in Hd.
    - rewrite IH. setoid_rewrite elem_of_cons. split.
      + intros [Hacc | (d' & Hd' & Hp)].
        * destruct (partition_name_of d) as [pn|] eqn:Hpn; [| by left].
          destruct (decide (pn ≠ name)) as [Hne|]; [| by left].
          apply elem_of_union in Hacc as [->%elem_of_singleton | Hacc];
            [| by left].
          right. exists d. split_and!; [by left | done | done].
        * right. exists d'. destruct Hp as [Hp Hne].
          split_and!; [by right | done | done].
      + intros [Hacc | (d' & [-> | Hd'] & Hp & Hne)].
        * left. destruct (partition_name_of d) as [pn|]; [| done].
          destruct (decide (pn ≠ name)); [| done]. set_solver.
        * left. rewrite Hp. rewrite decide_True by done. set_solver.
        * right. by exists d'. }
  rewrite Hgen. split; [| by right]. intros [H | H]; [| done]. set_solver.
Qed.

Lemma dep_graph_items iter parts n p :
  iter_ok iter →
  dep (graph_items iter (avb_dep_graph parts)) n p ↔ refers parts n p.
Proof.
  intros Hiter. unfold dep, graph_items, avb_dep_graph, refers.
  rewrite <- list_fmap_compose. split.
  - intros (ps & Hin & Hp). apply list_elem_of_fmap in Hin as ([n' info] & Heq & Hin).
    simpl in Heq. simplify_eq. apply Hiter, references_spec in Hp
      as (d & Hd & Hpn & Hne).
    by exists info, d.
  - intros (info & d & Hin & Hd & Hpn & Hne).
    exists (iter (references n info)). split.
    + apply list_elem_of_fmap. by exists (n, info).
    + apply Hiter, references_spec. by exists d.
Qed.

Lemma node_of_graph_items iter parts k :
  iter_ok iter →
  node_of (graph_items iter (avb_dep_graph parts)) k ↔
  k ∈ parts.*1 ∨ ∃ n, refers parts n k.
Proof.
  intros Hiter. unfold node_of. setoid_rewrite (dep_graph_items iter parts); [| done].
  unfold graph_items, avb_dep_graph. rewrite <- list_fmap_compose.
  split; (intros [H | H]; [left | by right]).
  - destruct H as (ps & Hin). apply list_elem_of_fmap in Hin as ([n' info] & Heq & Hin).
    simpl in Heq. injection Heq as -> _. apply list_elem_of_fmap.
    by exists (n', info).
  - apply list_elem_of_fmap in H as ([n' info] & -> & Hin). simpl.
    exists (iter (references n' info)). apply list_elem_of_fmap.
    by exists (n', info).
Qed.

(** What [avb_pack_order] returns, in terms of the headers. *)
Lemma avb_pack_order_spec iter parts :
  iter_ok iter →
  match avb_pack_order iter parts with
  | Ok order =>
      (∀ n, ¬ tc (refers parts) n n) ∧ NoDup order ∧
      (∀ k, k ∈ order ↔ k ∈ parts.*1 ∨ ∃ n, refers parts n k) ∧
      (∀ i j n p, order !! i = Some n → order !! j = Some p →
                  refers parts n p → (j < i)%nat)
  | Err (CycleError msg c) =>
      msg = "nodes are in a cycle" ∧ (∃ n mid, c = n :: mid ++ [n]) ∧
      (∀ i a b, c !! i = Some a → c !! S i = Some b → refers parts b a) ∧
      ∃ n, tc (refers parts) n n
  | Err _ => False
  end.
Proof.
  intros Hiter. unfold avb_pack_order.
  pose proof (static_order_spec (graph_items iter (avb_dep_graph parts))) as H.
  assert (Hac : acyclic (graph_items iter (avb_dep_graph parts)) ↔
                ∀ n, ¬ tc (refers parts) n n).
  { unfold acyclic. split; intros Ha n Hn; apply (Ha n);
      (eapply tc_mono; [| exact Hn]); intros a b Hab;
      by apply (dep_graph_items iter parts a b Hiter). }
  destruct (graphlib.static_order _) as [order|[]]; try done.
  - destruct H as (H1 & H2 & H3 & H4). split_and!.
    + by apply Hac.
    + done.
    + intros k. rewrite H3. by apply node_of_graph_items.
    + intros i j n p Hi Hj Hr. apply (H4 i j n p Hi Hj).
      by apply dep_graph_items.
  - destruct H as (H1 & [H2 H3] & H4). split_and!; try done.
    + intros i a b Ha Hb. apply (dep_graph_items iter parts b a Hiter).
      by apply (H3 i).
    + destruct H2 as (n & mid & ->). exists n.
      assert (Hp : ∀ l a b, (∀ i x y, (a :: l ++ [b]) !! i = Some x →
                               (a :: l ++ [b]) !! S i = Some y →
                               refers parts y x) →
                            tc (refers parts) b a).
      { induction l as [|z l IH]; intros a b Hall.
        - apply tc_once. by apply (Hall 0%nat).
        - eapply tc_r.
          + apply (IH z b). intros i x y Hx Hy. by apply (Hall (S i)).
          + by apply (Hall 0%nat). }
      apply (Hp mid n n). intros i x y Hx Hy.
      apply (dep_graph_items iter parts y x Hiter). by apply (H3 i).
Qed.

Lemma iter_ok_elements : iter_ok elements.
Proof. intros s x. apply elem_of_elements. Qed.

Lemma iter_ok_reversed : iter_ok reversed.
Proof. intros s x. unfold reversed. rewrite elem_of_reverse. apply elem_of_elements. Qed.

(** C1, as the code has it. When no image refers to itself through a
    chain of references, [avb_pack_order] returns an order that lists
    every image and every name referred to exactly once and puts each
    image strictly after everything its descriptors name. The order is
    fixed by the listing of the directory together with the order in
    which the interpreter iterates each set of references: two runs that
    agree on these return the same order. *)
Theorem pack_order_topological (iter : gset string → list string)
    (parts : list (string * AvbInfo)) :
  iter_ok iter → (∀ n, ¬ tc (refers parts) n n) →
  ∃ order,
    avb_pack_order iter parts = Ok order ∧ NoDup order ∧
    (∀ k, k ∈ order ↔ k ∈ parts.*1 ∨ ∃ n, refers parts n k) ∧
    (∀ i j n p, order !! i = Some n → order !! j = Some p →
                refers parts n p → (j < i)%nat) ∧
    (∀ iter', (∀ e, e ∈ avb_dep_graph parts → iter' e.2 = iter e.2) →
              avb_pack_order iter' parts = Ok order).
Proof.
  intros Hiter Hac. pose proof (avb_pack_order_spec iter parts Hiter) as H.
  destruct (avb_pack_order iter parts) as [order|[]] eqn:Horder; try done.
  - destruct H as (_ & H2 & H3 & H4). exists order. split_and!; try done.
    intros iter' Hsame. rewrite <- Horder. unfold avb_pack_order, graph_items.
    f_equal. apply list_fmap_ext. intros i e He. f_equal. apply Hsame.
    by eapply list_elem_of_lookup_2.
  - destruct H as (_ & _ & _ & n & Hn). by destruct (Hac n).
Qed.

Lemma listed_parts_acyclic : ∀ n, ¬ tc (refers listed_parts) n n.
Proof.
  pose proof (avb_pack_order_spec elements listed_parts iter_ok_elements) as H.
  assert (Heq : avb_pack_order elements listed_parts
                = Ok ["system"; "boot"; "vbmeta_system"])
    by (vm_compute; reflexivity).
  rewrite Heq in H. apply H.
Qed.

Lemma pack_order_topological_witness :
  ∃ order,
    avb_pack_order elements listed_parts = Ok order ∧ NoDup order ∧
    (∀ k, k ∈ order ↔ k ∈ listed_parts.*1 ∨ ∃ n, refers listed_parts n k) ∧
    (∀ i j n p, order !! i = Some n → order !! j = Some p →
                refers listed_parts n p → (j < i)%nat) ∧
    (∀ iter', (∀ e, e ∈ avb_dep_graph listed_parts → iter' e.2 = elements e.2) →
              avb_pack_order iter' listed_parts = Ok order).
Proof.
  apply (pack_order_topological elements listed_parts).
  - exact iter_ok_elements.
  - exact listed_parts_acyclic.
Defined.

(** C1 as the specification states it fails on the same three images: the
    graph is acyclic, yet two runs that iterate the set of references of
    [vbmeta_system] in opposite orders pack [boot] and [system] in
    opposite orders. *)
Lemma pack_order_counterexample :
  iter_ok elements ∧ iter_ok reversed ∧
  (∀ n, ¬ tc (refers listed_parts) n n) ∧
  avb_pack_order elements listed_parts
  = Ok ["system"; "boot"; "vbmeta_system"] ∧
  avb_pack_order reversed listed_parts
  = Ok ["boot"; "system"; "vbmeta_system"] ∧
  avb_pack_order elements listed_parts ≠ avb_pack_order reversed listed_parts.
Proof.
  split_and!.
  - exact iter_ok_elements.
  - exact iter_ok_reversed.
  - exact listed_parts_acyclic.
  - vm_compute. reflexivity.
  - vm_compute. reflexivity.
  - vm_compute. discriminate.
Qed.

(** ** Cycles *)

(** C4. When some image refers to itself through a chain of references,
    [pack_subcommand] raises [CycleError] as soon as it has computed the
    graph: the exception carries a list of names that closes on itself
    and in which each name is referred to by the next, no pack order
    exists, no image has been packed and no file has been written. *)
Theorem cycle_rejected (w : World) (s : FS) :
  iter_ok (iter_set w) →
  (∃ n, tc (refers (glob_avb_toml w s)) n n) →
  ∃ c,
    avb_pack_order (iter_set w) (glob_avb_toml w s)
    = Err (CycleError "nodes are in a cycle" c) ∧
    pack_subcommand w s
    = (Err (CycleError "nodes are in a cycle" c),
       mkFS (calls s ++ [CallMkdirOutput]) (tomls s) (out_images s)
         (lp_images s)) ∧
    (∃ n mid, c = n :: mid ++ [n]) ∧
    (∀ i a b, c !! i = Some a → c !! S i = Some b →
              refers (glob_avb_toml w s) b a).
Proof.
  intros Hiter [n Hn].
  pose proof (avb_pack_order_spec (iter_set w) (glob_avb_toml w s) Hiter) as H.
  destruct (avb_pack_order (iter_set w) (glob_avb_toml w s))
    as [order|[]] eqn:Horder; try done.
  - destruct H as (Hac & _). by destruct (Hac n).
  - destruct H as (-> & H2 & H3 & _). exists cycle. split_and!; try done.
    unfold pack_subcommand, bindM, log, get_fs, liftM. simpl.
    change (glob_avb_toml w _) with (glob_avb_toml w s). by rewrite Horder.
Qed.

Lemma cycle_rejected_witness :
  ∃ c,
    avb_pack_order elements (glob_avb_toml cyclic_world cyclic_fs)
    = Err (CycleError "nodes are in a cycle" c) ∧
    pack_subcommand cyclic_world cyclic_fs
    = (Err (CycleError "nodes are in a cycle" c),
       mkFS [CallMkdirOutput] (tomls cyclic_fs) ∅ ∅) ∧
    (∃ n mid, c = n :: mid ++ [n]) ∧
    (∀ i a b, c !! i = Some a → c !! S i = Some b →
              refers (glob_avb_toml cyclic_world cyclic_fs) b a).
Proof.
  apply (cycle_rejected cyclic_world cyclic_fs).
  - exact iter_ok_elements.
  - exists "a".
    assert (Hab : refers (glob_avb_toml cyclic_world cyclic_fs) "a" "b").
    { exists (mk_info "None" "" 0 [mk_descriptor "Hash" "b"]),
        (mk_descriptor "Hash" "b").
      split_and!; [| apply list_elem_of_here | reflexivity | done].
      vm_compute. apply list_elem_of_here. }
    assert (Hba : refers (glob_avb_toml cyclic_world cyclic_fs) "b" "a").
    { exists (mk_info "None" "" 0 [mk_descriptor "Hash" "a"]),
        (mk_descriptor "Hash" "a").
      split_and!; [| apply list_elem_of_here | reflexivity | done].
      vm_compute. apply list_elem_of_further, list_elem_of_here. }
    eapply tc_l; [exact Hab | by apply tc_once].
Defined.

(** ** Names without an image *)






(** ** Propagating the recomputed descriptors *)

Lemma propagate_spec (avb_descriptors : gmap string descriptor)
    (avb_public_keys : gmap string string) (ds : list descriptor) :
  (∀ d c, d ∈ ds → partition_name_of d = Some c →
          is_Some (avb_public_keys !! c) ∨ is_Some (avb_descriptors !! c)) →
  ∃ ds',
    propagate avb_descriptors avb_public_keys ds = Ok ds' ∧
    length ds' = length ds ∧
    ∀ i d, ds !! i = Some d →
           ∃ d', propagate_one avb_descriptors avb_public_keys d = Ok d' ∧
                 ds' !! i = Some d'.
Proof.
  induction ds as [|d ds IH]; intros Hres.
  - exists []. split_and!; [done | done |]. intros i d Hi. by destruct i.
  - destruct IH as (ds' & Hrun & Hlen & Hall).
    { intros d' c Hd'. apply Hres. by apply list_elem_of_further. }
    assert (Hone : ∃ d', propagate_one avb_descriptors avb_public_keys d = Ok d').
    { unfold propagate_one. destruct (partition_name_of d) as [c|] eqn:Hc; [| by eauto].
      destruct (Hres d c) as [[pk Hpk] | [dc Hdc]];
        [apply list_elem_of_here | done | |].
      - rewrite Hpk. by eauto.
      - rewrite Hdc. destruct (avb_public_keys !! c); by eauto. }
    destruct Hone as [d' Hd']. exists (d' :: ds'). split_and!.
    + simpl. rewrite Hd'. simpl. rewrite Hrun. done.
    + simpl. by rewrite Hlen.
    + intros [|i] d0 Hi; simpl in *.
      * simplify_eq. by exists d'.
      * by apply Hall.
Qed.

(** The descriptor the loop records for an image is the first one of the
    packed metadata that names the image. *)
Lemma own_descriptor_spec (name : string) (i : AvbInfo) (dC : descriptor) :
  own_descriptor name i = Some dC ↔
  first_named name (descriptors (header i)) dC.
Proof.
  unfold own_descriptor, first_named. split.
  - destruct (list_find _ _) as [[j d]|] eqn:Hfind; [| done].
    simpl. intros [= <-]. apply list_find_Some in Hfind as (Hj & Hd & Hfirst).
    exists j. split_and!; [done | done |].
    intros j' d' Hj' Hlt. by apply (Hfirst j' d').
  - intros (j & Hj & Hd & Hfirst).
    assert (Hfind : list_find (fun d => d !! "partition_name" = Some (VStr name))
                      (descriptors (header i)) = Some (j, dC)).
    { apply list_find_Some. split_and!; [done | done |].
      intros j' d' Hj' Hlt. by apply (Hfirst j' d'). }
    by rewrite Hfind.
Qed.

Lemma own_descriptor_is_Some (name : string) (i : AvbInfo) (d : descriptor) :
  d ∈ descriptors (header i) → d !! "partition_name" = Some (VStr name) →
  is_Some (own_descriptor name i).
Proof.
  intros Hd Hname. unfold own_descriptor.
  destruct (list_find_elem_of
              (fun d => d !! "partition_name" = Some (VStr name))
              (descriptors (header i)) d Hd Hname) as [[j d'] Hfind].
  rewrite Hfind. by eexists.
Qed.

(** One turn of the pack loop that does not raise: the one call it issues,
    what it leaves in [avb.toml] and what it records. *)
Lemma pack_image_ok (w : World) (name : string)
    (v v' : gmap string descriptor * gmap string string) (s s' : FS) :
  pack_image w name v s = (Ok v', s') →
  ∃ before extra_args infoC,
    calls s' = calls s ++ [CallAvbPack name before extra_args] ∧
    avb_pack_out w name before extra_args = Some infoC ∧
    tomls s' !! name = Some infoC ∧
    v'.2 !! name
    = (if decide (algorithm_type (header infoC) ≠ "None")
       then Some (public_key (header infoC)) else v.2 !! name) ∧
    v'.1 !! name
    = (match own_descriptor name infoC with
       | Some d => Some d
       | None => v.1 !! name
       end).
Proof.
  unfold pack_image, bindM.
  assert (Hprep : calls (prepare_image name v s).2 = calls s).
  { unfold prepare_image. destruct (startswith name "vbmeta"); [| done].
    unfold bindM, read_toml, liftM, write_toml.
    destruct (tomls s !! name) as [i0|]; [| done].
    by destruct (prepare_vbmeta v.1 v.2 i0). }
  destruct (prepare_image name v s) as [[u|e] s1]; simpl in *; [| done].
  unfold avb_pack, bindM, read_toml, liftM.
  destruct (tomls s1 !! name) as [before|]; [| done].
  destruct (avb_pack_extra_args before) as [args|e]; [| done]. simpl.
  destruct (avb_pack_out w name before args) as [i|] eqn:Hout; simpl; [| done].
  rewrite lookup_insert_eq. unfold retM. intros [= <- <-].
  exists before, args, i. simpl. split_and!.
  - by rewrite Hprep.
  - done.
  - by rewrite lookup_insert_eq.
  - destruct (decide (algorithm_type (header i) ≠ "None")); [| done].
    by rewrite lookup_insert_eq.
  - destruct (own_descriptor name i); [| done]. by rewrite lookup_insert_eq.
Qed.

Lemma pack_image_frame w x v s v' s' name :
  pack_image w x v s = (Ok v', s') → x ≠ name →
  tomls s' !! name = tomls s !! name ∧
  v'.1 !! name = v.1 !! name ∧ v'.2 !! name = v.2 !! name.
Proof.
  intros Hrun Hne. revert Hrun. unfold pack_image, bindM.
  assert (Hprep : tomls (prepare_image x v s).2 !! name = tomls s !! name).
  { unfold prepare_image. destruct (startswith x "vbmeta"); [| done].
    unfold bindM, read_toml, liftM, write_toml.
    destruct (tomls s !! x) as [i0|]; [| done].
    destruct (prepare_vbmeta v.1 v.2 i0); simpl; [| done].
    by rewrite lookup_insert_ne. }
  destruct (prepare_image x v s) as [[u|e] s1]; simpl in *; [| done].
  assert (Hpack : tomls (avb_pack w x s1).2 !! name = tomls s1 !! name).
  { unfold avb_pack, bindM, read_toml, liftM.
    destruct (tomls s1 !! x) as [i|]; [| done].
    destruct (avb_pack_extra_args i) as [args|e]; [| done]. simpl.
    destruct (avb_pack_out w x i args); simpl; [| done].
    by rewrite lookup_insert_ne. }
  destruct (avb_pack w x s1) as [[[]|e] s2]; simpl in *; [| done].
  unfold read_toml. destruct (tomls s2 !! x) as [i|]; [| done].
  unfold retM. intros [= <- <-]. simpl. split_and!.
  - congruence.
  - destruct (own_descriptor x i); [| done]. by rewrite lookup_insert_ne.
  - destruct (decide (algorithm_type (header i) ≠ "None")); [| done].
    by rewrite lookup_insert_ne.
Qed.

(** The pack loop over images that are all different: of each image it has
    gone through, the call it issued, the metadata [avbroot] left and what
    the loop has recorded; of every other name, nothing has changed. *)
Lemma pack_loop_records (w : World) (pre : list string) :
  ∀ v0 s0 v s1,
    NoDup pre →
    for_M (pack_image w) pre v0 s0 = (Ok v, s1) →
    (∃ l, calls s1 = calls s0 ++ l ∧
          ∀ c, c ∈ pre →
               ∃ before extra_args infoC,
                 CallAvbPack c before extra_args ∈ l ∧
                 avb_pack_out w c before extra_args = Some infoC ∧
                 tomls s1 !! c = Some infoC ∧
                 v.2 !! c
                 = (if decide (algorithm_type (header infoC) ≠ "None")
                    then Some (public_key (header infoC)) else v0.2 !! c) ∧
                 v.1 !! c
                 = (match own_descriptor c infoC with
                    | Some d => Some d
                    | None => v0.1 !! c
                    end)) ∧
    (∀ n, n ∉ pre →
          tomls s1 !! n = tomls s0 !! n ∧
          v.1 !! n = v0.1 !! n ∧ v.2 !! n = v0.2 !! n).
Proof.
  induction pre as [|x pre IH]; intros v0 s0 v s1 Hnodup Hrun.
  { simpl in Hrun. injection Hrun as <- <-. split; [| done].
    exists []. rewrite app_nil_r. split; [done |].
    intros c Hc. by apply elem_of_nil in Hc. }
  apply NoDup_cons in Hnodup as [Hx Hnodup].
  simpl in Hrun. unfold bindM in Hrun.
  destruct (pack_image w x v0 s0) as [[va|e] sa] eqn:Hpack; [| done].
  destruct (IH va sa v s1 Hnodup Hrun) as [(l & Hl & Hrec) Hframe].
  destruct (pack_image_ok w x v0 va s0 sa Hpack)
    as (before & args & infoC & Hcalls & Hout & Htoml & Hpk & Hown).
  split.
  - exists (CallAvbPack x before args :: l). split.
    { rewrite Hl, Hcalls, <- app_assoc. done. }
    intros c [-> | Hc]%elem_of_cons.
    + exists before, args, infoC.
      destruct (Hframe x Hx) as (Ht & H1 & H2).
      split_and!; [apply list_elem_of_here | done | congruence | |].
      * by rewrite H2.
      * by rewrite H1.
    + destruct (Hrec c Hc) as (b & a & i & Hin & Ho & Ht & H2 & H1).
      assert (Hne : x ≠ c) by (intros ->; done).
      destruct (pack_image_frame w x v0 s0 va sa c Hpack Hne)
        as (_ & Hf1 & Hf2).
      exists b, a, i.
      split_and!; [by apply list_elem_of_further | done | done | |].
      * by rewrite H2, Hf2.
      * by rewrite H1, Hf1.
  - intros n Hn. apply not_elem_of_cons in Hn as [Hne Hn].
    destruct (Hframe n Hn) as (Ht & H1 & H2).
    destruct (pack_image_frame w x v0 s0 va sa n Hpack (not_eq_sym Hne))
      as (Hft & Hf1 & Hf2).
    split_and!; congruence.
Qed.

(** C2. In a pack run over metadata as [avbroot] writes it, the names of
    the descriptors being strings, let the loop have packed the images
    [pre] that precede the vbmeta image [P] in the pack order, and let no
    descriptor of [P] name [P] itself. Every descriptor of [P] with a name
    then names a child [c] among [pre], which the run has packed,
    [avbroot] leaving the metadata [infoC]. Provided the metadata of each unsigned child
    holds a descriptor that names the child, the [if is_vbmeta] block
    rewrites the metadata of [P], with as many descriptors as before, so
    that: a descriptor without a name is kept; when the child is signed
    (the algorithm of [infoC] is not [None]), the descriptor is the old
    one with [public_key] set to the public key of [infoC], its rollback
    index location and every other field unchanged; when the child is
    unsigned, the descriptor is replaced by the first descriptor of
    [infoC] that names the child. *)
Theorem descriptor_propagation (w : World) (s s1 : FS)
    (pre post : list string)
    (v : gmap string descriptor * gmap string string)
    (P : string) (info : AvbInfo) :
  iter_ok (iter_set w) →
  names_are_strings (glob_avb_toml w s) = true →
  avb_pack_order (iter_set w) (glob_avb_toml w s) = Ok (pre ++ P :: post) →
  for_M (pack_image w) pre (∅, ∅) s = (Ok v, s1) →
  startswith P "vbmeta" = true →
  (P, info) ∈ glob_avb_toml w s →
  (∀ d, d ∈ descriptors (header info) → partition_name_of d ≠ Some P) →
  (∀ d c infoC,
     d ∈ descriptors (header info) → partition_name_of d = Some c →
     tomls s1 !! c = Some infoC → algorithm_type (header infoC) = "None" →
     ∃ dC, dC ∈ descriptors (header infoC) ∧
           dC !! "partition_name" = Some (VStr c)) →
  ∃ info',
    prepare_image P v s1
    = (Ok tt, mkFS (calls s1) (<[P := info']> (tomls s1)) (out_images s1)
                (lp_images s1)) ∧
    length (descriptors (header info')) = length (descriptors (header info)) ∧
    ∀ i d,
      descriptors (header info) !! i = Some d →
      match partition_name_of d with
      | None => descriptors (header info') !! i = Some d
      | Some c =>
          c ∈ pre ∧
          ∃ infoC,
            packed_as w s s1 c infoC ∧
            (algorithm_type (header infoC) ≠ "None" →
             ∃ d', descriptors (header info') !! i = Some d' ∧
                   d' = <["public_key" := VStr (public_key (header infoC))]> d ∧
                   d' !! "public_key"
                   = Some (VStr (public_key (header infoC))) ∧
                   d' !! "rollback_index_location"
                   = d !! "rollback_index_location" ∧
                   ∀ k, k ≠ "public_key" → d' !! k = d !! k) ∧
            (algorithm_type (header infoC) = "None" →
             ∃ dC, first_named c (descriptors (header infoC)) dC ∧
                   descriptors (header info') !! i = Some dC)
      end.
Proof.
  intros Hiter _ Horder Hloop HP Hglob Hself Hown.
  pose proof (avb_pack_order_spec (iter_set w) (glob_avb_toml w s) Hiter)
    as Hspec.
  rewrite Horder in Hspec. destruct Hspec as (_ & Hnodup & Hmem & Hbefore).
  assert (Hpre : NoDup pre) by (by apply NoDup_app in Hnodup as (? & _ & _)).
  assert (HPpre : P ∉ pre).
  { apply NoDup_app in Hnodup as (_ & Hdisj & _). intros Hin.
    apply (Hdisj P Hin), list_elem_of_here. }
  destruct (pack_loop_records w pre (∅, ∅) s v s1 Hpre Hloop)
    as [(l & Hl & Hrec) Hframe].
  assert (Htoml : tomls s1 !! P = Some info).
  { destruct (Hframe P HPpre) as (-> & _).
    unfold glob_avb_toml in Hglob.
    apply list_elem_of_omap in Hglob as (name & _ & Hname).
    destruct (tomls s !! name) as [i0|] eqn:Hi0; [| done].
    simpl in Hname. by simplify_eq. }
  assert (Hchild : ∀ d c, d ∈ descriptors (header info) →
                          partition_name_of d = Some c → c ∈ pre).
  { intros d c Hd Hc.
    assert (Href : refers (glob_avb_toml w s) P c).
    { exists info, d. split_and!; [done | done | done |].
      intros ->. by apply (Hself d). }
    assert (Hin : c ∈ pre ++ P :: post) by (apply Hmem; right; by exists P).
    apply list_elem_of_lookup in Hin as [j Hj].
    assert (HPi : (pre ++ P :: post) !! length pre = Some P)
      by (by rewrite list_lookup_middle).
    pose proof (Hbefore _ _ _ _ HPi Hj Href) as Hlt.
    rewrite lookup_app_l in Hj by done.
    by apply list_elem_of_lookup_2 in Hj. }
  assert (Hres : ∀ d c, d ∈ descriptors (header info) →
                        partition_name_of d = Some c →
                        is_Some (v.2 !! c) ∨ is_Some (v.1 !! c)).
  { intros d c Hd Hc.
    destruct (Hrec c (Hchild d c Hd Hc))
      as (b & a & infoC & _ & _ & Ht & H2 & H1).
    destruct (decide (algorithm_type (header infoC) ≠ "None")) as [Hs|Hu].
    { left. rewrite H2. by eexists. }
    right. apply dec_stable in Hu.
    destruct (Hown d c infoC Hd Hc Ht Hu) as (dC & HdC & Hnamed).
    destruct (own_descriptor_is_Some c infoC dC HdC Hnamed) as [d0 Hd0].
    rewrite H1, Hd0. by eexists. }
  destruct (propagate_spec v.1 v.2 _ Hres) as (ds' & Hrun & Hlen & Hall).
  eexists. split_and!.
  - unfold prepare_image. rewrite HP. unfold bindM, read_toml, liftM.
    rewrite Htoml. unfold prepare_vbmeta. rewrite Hrun. simpl. reflexivity.
  - simpl. done.
  - intros i d Hi. simpl.
    destruct (Hall i d Hi) as (d' & Hone & Hi').
    unfold propagate_one in Hone.
    destruct (partition_name_of d) as [c|] eqn:Hc; [| by simplify_eq].
    assert (Hd : d ∈ descriptors (header info))
      by (by apply list_elem_of_lookup_2 in Hi).
    pose proof (Hchild d c Hd Hc) as Hcpre. split; [done |].
    destruct (Hrec c Hcpre) as (b & a & infoC & Hin & Hout & Ht & H2 & H1).
    exists infoC. split; [by exists l, b, a |].
    simpl in H2, H1. rewrite lookup_empty in H2. rewrite lookup_empty in H1.
    split.
    + intros Hsigned. rewrite decide_True in H2 by done.
      rewrite H2 in Hone. simplify_eq. eexists. split_and!; try done.
      * by rewrite lookup_insert_eq.
      * by rewrite lookup_insert_ne.
      * intros k Hk. by rewrite lookup_insert_ne.
    + intros Hunsigned. rewrite decide_False in H2 by (intros Hne; done).
      rewrite H2 in Hone.
      destruct (Hown d c infoC Hd Hc Ht Hunsigned) as (dC & HdC & Hnamed).
      destruct (own_descriptor_is_Some c infoC dC HdC Hnamed) as [d0 Hd0].
      rewrite Hd0 in H1. rewrite H1 in Hone. injection Hone as <-.
      exists d0. split; [by apply own_descriptor_spec | done].
Qed.

Lemma descriptor_propagation_witness :
  (∃ info',
     prepare_image "vbmeta"
       (loop_variables (packed_through ["boot"; "system"; "vbmeta_system"]))
       (packed_through ["boot"; "system"; "vbmeta_system"]).2
     = (Ok tt,
        mkFS (calls (packed_through ["boot"; "system"; "vbmeta_system"]).2)
          (<["vbmeta" := info']>
             (tomls (packed_through ["boot"; "system"; "vbmeta_system"]).2))
          (out_images (packed_through ["boot"; "system"; "vbmeta_system"]).2)
          (lp_images (packed_through ["boot"; "system"; "vbmeta_system"]).2)) ∧
     descriptors (header info') !! 0%nat
     = Some (<["public_key" := VStr "bb"]> chain_ref)) ∧
  (∃ info',
     prepare_image "vbmeta_system"
       (loop_variables (packed_through ["boot"; "system"]))
       (packed_through ["boot"; "system"]).2
     = (Ok tt,
        mkFS (calls (packed_through ["boot"; "system"]).2)
          (<["vbmeta_system" := info']>
             (tomls (packed_through ["boot"; "system"]).2))
          (out_images (packed_through ["boot"; "system"]).2)
          (lp_images (packed_through ["boot"; "system"]).2)) ∧
     descriptors (header info') !! 1%nat
     = Some (mk_descriptor "Hash" "boot")).
Proof.
  split.
  - destruct (descriptor_propagation pack_world unpacked_fs
                (packed_through ["boot"; "system"; "vbmeta_system"]).2
                ["boot"; "system"; "vbmeta_system"] []
                (loop_variables
                   (packed_through ["boot"; "system"; "vbmeta_system"]))
                "vbmeta" vbmeta_info)
      as (info' & Hrun & _ & Hdesc).
    + exact iter_ok_elements.
    + reflexivity.
    + vm_compute. reflexivity.
    + vm_compute. reflexivity.
    + reflexivity.
    + vm_compute. do 2 apply list_elem_of_further. apply list_elem_of_here.
    + intros d Hd. apply list_elem_of_singleton in Hd as ->.
      vm_compute. discriminate.
    + intros d c infoC Hd Hc. apply list_elem_of_singleton in Hd as ->.
      vm_compute in Hc. injection Hc as <-.
      vm_compute. intros [= <-]. discriminate.
    + exists info'. split; [exact Hrun |].
      destruct (Hdesc 0%nat chain_ref eq_refl) as (_ & infoC & Hpacked & Hs & _).
      destruct Hpacked as (l & b & a & _ & _ & _ & Ht).
      vm_compute in Ht. injection Ht as <-.
      destruct Hs as (d' & Hd' & -> & _); [discriminate |].
      exact Hd'.
  - destruct (descriptor_propagation pack_world unpacked_fs
                (packed_through ["boot"; "system"]).2
                ["boot"; "system"] ["vbmeta"]
                (loop_variables (packed_through ["boot"; "system"]))
                "vbmeta_system" vbmeta_system_info)
      as (info' & Hrun & _ & Hdesc).
    + exact iter_ok_elements.
    + reflexivity.
    + vm_compute. reflexivity.
    + vm_compute. reflexivity.
    + reflexivity.
    + vm_compute. do 3 apply list_elem_of_further. apply list_elem_of_here.
    + intros d Hd. apply elem_of_cons in Hd as [-> | Hd];
        [vm_compute; discriminate |].
      apply list_elem_of_singleton in Hd as ->. vm_compute. discriminate.
    + intros d c infoC Hd Hc Ht _.
      apply elem_of_cons in Hd as [-> | Hd].
      { vm_compute in Hc. injection Hc as <-.
        vm_compute in Ht. injection Ht as <-.
        exists (mk_descriptor "HashTree" "system").
        split; [apply list_elem_of_here | reflexivity]. }
      apply list_elem_of_singleton in Hd as ->.
      vm_compute in Hc. injection Hc as <-.
      vm_compute in Ht. injection Ht as <-.
      exists (mk_descriptor "Hash" "boot").
      split; [apply list_elem_of_here | reflexivity].
    + exists info'. split; [exact Hrun |].
      destruct (Hdesc 1%nat (mk_descriptor "Hash" "boot") eq_refl)
        as (_ & infoC & Hpacked & _ & Hu).
      destruct Hpacked as (l & b & a & _ & _ & _ & Ht).
      vm_compute in Ht. injection Ht as <-.
      destruct (Hu eq_refl) as (dC & (j & Hj & Hnamed & Hfirst) & HdC).
      destruct j as [|[|j]]; [| discriminate | discriminate].
      injection Hj as <-. exact HdC.
Defined.

(** ** Images no vbmeta image refers to *)

Lemma substring_full (s : string) :
  String.substring 0 (String.length s) s = s.
Proof. induction s as [|c s IH]; simpl; [done | by rewrite IH]. Qed.

Lemma string_app_cons (c : ascii) (a b : string) :
  String c a +:+ b = String c (a +:+ b).
Proof. reflexivity. Qed.

Lemma substring_split (s : string) (m : nat) :
  (m ≤ String.length s)%nat →
  s = String.substring 0 m s
      +:+ String.substring m (String.length s - m) s.
Proof.
  revert m. induction s as [|c s IH]; intros m Hm; simpl in *.
  - by replace m with O by lia.
  - destruct m as [|m]; simpl.
    + by rewrite substring_full.
    + rewrite string_app_cons. f_equal. apply IH. lia.
Qed.

Lemma endswith_removesuffix (s suf : string) :
  endswith s suf = true → s = removesuffix s suf +:+ suf.
Proof.
  intros H. unfold removesuffix. rewrite H. unfold endswith in H.
  apply andb_true_iff in H as [Hle Heq].
  apply Nat.leb_le in Hle. apply String.eqb_eq in Heq.
  pose proof (substring_split s (String.length s - String.length suf)) as Hs.
  replace (String.length s - (String.length s - String.length suf))%nat
    with (String.length suf) in Hs by lia.
  rewrite Heq in Hs. apply Hs. lia.
Qed.


Lemma string_forall_app P (a b : string) :
  string_forall P (a +:+ b) = string_forall P a && string_forall P b.
Proof.
  induction a as [|c a IH]; [done |].
  rewrite string_app_cons. simpl. by rewrite IH, andb_assoc.
Qed.





















(** * Further properties of the script *)

(** ** The names of the LP slots *)

Lemma endswith_app (s suf : string) :
  endswith s suf = true → ∃ pre, s = pre +:+ suf.
Proof. intros H. eexists. by apply endswith_removesuffix. Qed.

Lemma string_app_inj_l (t s1 s2 : string) : t +:+ s1 = t +:+ s2 → s1 = s2.
Proof.
  induction t as [|c t IH]; intros H; [done |].
  rewrite !string_app_cons in H. injection H as H. by apply IH.
Qed.

(** Two suffixes of the same length of one string are the same string. *)
Lemma string_app_suffix (a b x y : string) :
  a +:+ x = b +:+ y → String.length x = String.length y → a = b ∧ x = y.
Proof.
  revert b. induction a as [|c a IH]; intros [|c' b] H Hlen.
  - done.
  - change ("" +:+ x) with x in H. apply (f_equal String.length) in H.
    rewrite string_length_app in H. simpl in H. lia.
  - change ("" +:+ y) with y in H. apply (f_equal String.length) in H.
    rewrite string_length_app in H. simpl in H. lia.
  - rewrite !string_app_cons in H. injection H as -> H.
    destruct (IH b H Hlen) as [-> ->]. done.
Qed.

Lemma endswith_a_not_b (s : string) :
  endswith s "_a" = true → endswith s "_b" = false.
Proof.
  intros Ha. destruct (endswith s "_b") eqn:Hb; [| done].
  apply endswith_app in Ha as [pa Ha]. apply endswith_app in Hb as [pb Hb].
  rewrite Ha in Hb. by apply string_app_suffix in Hb as [_ [=]].
Qed.





(** ** The descriptors [avb_pack] looks at *)

Lemma any_hash_tree_error (ds : list descriptor) (e : error) :
  any_hash_tree ds = Err e →
  e = KeyError "type" ∧
  ∃ i d, ds !! i = Some d ∧ d !! "type" = None ∧
         ∀ j d', (j < i)%nat → ds !! j = Some d' →
                 d' !! "type" ≠ Some (VStr "HashTree").
Proof.
  induction ds as [|d ds IH]; simpl; [done |].
  destruct (d !! "type") as [ty|] eqn:Hty.
  - destruct (decide (ty = VStr "HashTree")) as [-> | Hne]; [done |].
    intros He. destruct (IH He) as (-> & i & d0 & Hi & Hd0 & Hbefore).
    split; [done |]. exists (S i), d0. split_and!; [done | done |].
    intros [|j] d' Hj Hd'; simpl in Hd'.
    + injection Hd' as <-. rewrite Hty. by intros [= ->].
    + apply (Hbefore j); [lia | done].
  - intros [= <-]. split; [done |]. exists O, d. split_and!; [done | done |].
    intros j d' Hj. lia.
Qed.

Lemma any_hash_tree_first_untyped (ds : list descriptor) (i : nat)
    (d : descriptor) :
  ds !! i = Some d → d !! "type" = None →
  (∀ j d', (j < i)%nat → ds !! j = Some d' →
           d' !! "type" ≠ Some (VStr "HashTree")) →
  any_hash_tree ds = Err (KeyError "type").
Proof.
  revert i. induction ds as [|d0 ds IH]; intros i Hi Hd Hbefore; [done |].
  destruct i as [|i]; simpl in *.
  - injection Hi as ->. by rewrite Hd.
  - destruct (d0 !! "type") as [ty|] eqn:Hty; [| done].
    destruct (decide (ty = VStr "HashTree")) as [-> | Hne].
    + by destruct (Hbefore O d0 ltac:(lia) eq_refl).
    + apply (IH i); [done | done |].
      intros j d' Hj Hd'. apply (Hbefore (S j)); [lia | done].
Qed.

(** X3. [avb_pack] raises [KeyError('type')] exactly when the metadata has
    a descriptor without a type that no [HashTree] descriptor precedes
    (the search for a hash tree stops at the first one it finds); it then
    has not run [avbroot] and has written nothing. *)
Theorem avb_pack_untyped_descriptor (w : World) (name : string) (s : FS)
    (avb_info : AvbInfo) :
  tomls s !! name = Some avb_info →
  ((avb_pack w name s).1 = Err (KeyError "type") ↔
   ∃ i d, descriptors (header avb_info) !! i = Some d ∧ d !! "type" = None ∧
          ∀ j d', (j < i)%nat → descriptors (header avb_info) !! j = Some d' →
                  d' !! "type" ≠ Some (VStr "HashTree")) ∧
  ((avb_pack w name s).1 = Err (KeyError "type") →
   avb_pack w name s = (Err (KeyError "type"), s)).
Proof.
  intros Htoml. unfold avb_pack, bindM, read_toml, liftM, avb_pack_extra_args.
  rewrite Htoml. simpl.
  destruct (any_hash_tree (descriptors (header avb_info))) as [b|e] eqn:Hany;
    simpl.
  - split.
    + split.
      * by destruct (avb_pack_out w name avb_info _).
      * intros (i & d & Hi & Hd & Hbefore).
        rewrite (any_hash_tree_first_untyped _ i d Hi Hd Hbefore) in Hany.
        done.
    + by destruct (avb_pack_out w name avb_info _).
  - destruct (any_hash_tree_error _ _ Hany) as (-> & Hex). by split.
Qed.

Lemma avb_pack_untyped_descriptor_witness :
  ((avb_pack pack_world "system"
      (mkFS [] (<["system" := mk_info "None" "" 0
                                [mk_descriptor "HashTree" "system"; ∅]]> ∅)
         ∅ ∅)).1 ≠ Err (KeyError "type")) ∧
  (avb_pack pack_world "system"
     (mkFS [] (<["system" := mk_info "None" "" 0
                               [∅; mk_descriptor "HashTree" "system"]]> ∅)
        ∅ ∅)).1 = Err (KeyError "type").
Proof.
  split.
  - vm_compute. discriminate.
  - apply (avb_pack_untyped_descriptor pack_world "system" _
             (mk_info "None" "" 0 [∅; mk_descriptor "HashTree" "system"])).
    + reflexivity.
    + exists O, ∅. split_and!; [reflexivity | reflexivity |].
      intros j d' Hj. lia.
Defined.

(** ** The descriptors the vbmeta images name *)

Lemma collect_descriptors_snoc ds d acc :
  collect_descriptors (ds ++ [d]) acc
  = match partition_name_of d with
    | Some pn => <[pn := d]> (collect_descriptors ds acc)
    | None => collect_descriptors ds acc
    end.
Proof. unfold collect_descriptors. by rewrite foldl_app. Qed.

(** X4. The loop that collects the descriptors of a vbmeta header keeps,
    for each partition name, the last descriptor that carries it, and
    leaves what was recorded for every other name as it was; a descriptor
    without a name is not recorded. *)
Theorem collect_descriptors_lookup (ds : list descriptor)
    (acc : gmap string descriptor) (pn : string) :
  collect_descriptors ds acc !! pn
  = match last (filter (fun d => partition_name_of d = Some pn) ds) with
    | Some d => Some d
    | None => acc !! pn
    end.
Proof.
  induction ds as [|d ds IH] using rev_ind; [done |].
  rewrite collect_descriptors_snoc, filter_app, filter_cons, filter_nil.
  destruct (partition_name_of d) as [pn'|] eqn:Hd.
  - destruct (decide (pn' = pn)) as [-> | Hne].
    + rewrite decide_True by done. by rewrite lookup_insert_eq, last_snoc.
    + rewrite decide_False by congruence.
      by rewrite lookup_insert_ne, app_nil_r.
  - rewrite decide_False by done. by rewrite app_nil_r.
Qed.

(** ** The names of the vbmeta images *)

Lemma prefix_app (p a b : string) :
  String.prefix p (a +:+ b) = true → (String.length p ≤ String.length a)%nat →
  String.prefix p a = true.
Proof.
  revert a. induction p as [|c p IH]; intros a H Hlen; [by destruct a |].
  destruct a as [|c' a]; simpl in Hlen; [lia |].
  rewrite string_app_cons in H. simpl in *.
  destruct (ascii_dec c c'); [| done]. apply IH; [done | lia].
Qed.

(** X5. A file that the pattern [vbmeta*.img] matches is unpacked into a
    directory whose name, followed by [.img], is the file's name, and
    whose name starts with [vbmeta]: the pack loop, which tells the vbmeta
    images by that prefix, treats every directory the vbmeta loop of
    unpack made as a vbmeta image. *)
Theorem vbmeta_directory_name (w : World) (name : string) :
  name ∈ vbmeta_names w →
  name +:+ ".img" ∈ input_files w ∧
  glob_vbmeta (name +:+ ".img") = true ∧
  startswith name "vbmeta" = true.
Proof.
  intros Hin. unfold vbmeta_names in Hin.
  apply list_elem_of_fmap in Hin as (f & -> & Hf).
  apply list_elem_of_filter in Hf as [Hglob Hf].
  assert (Hend : endswith f ".img" = true).
  { unfold glob_vbmeta in Hglob. apply andb_true_iff in Hglob as [Hglob _].
    by apply andb_true_iff in Hglob as [_ Hglob]. }
  pose proof (endswith_removesuffix f ".img" Hend) as Hname.
  rewrite <- Hname. split_and!; [done | done |].
  unfold glob_vbmeta in Hglob. apply andb_true_iff in Hglob as [Hglob Hlen].
  apply andb_true_iff in Hglob as [Hpre _]. apply Nat.leb_le in Hlen.
  unfold startswith in *. rewrite Hname in Hpre.
  apply prefix_app in Hpre; [done |].
  rewrite Hname, string_length_app in Hlen. simpl in *. lia.
Qed.

Lemma vbmeta_directory_name_witness :
  "vbmeta_system" +:+ ".img" ∈ input_files unpack_world ∧
  glob_vbmeta ("vbmeta_system" +:+ ".img") = true ∧
  startswith "vbmeta_system" "vbmeta" = true.
Proof.
  apply (vbmeta_directory_name unpack_world "vbmeta_system").
  vm_compute. apply list_elem_of_further, list_elem_of_here.
Defined.

(** ** The version threshold *)

Lemma check_avbroot_version_ok (w : World) (output : string)
    (vs : string * list Z) (s : FS) :
  version_stdout w = Ok output → parse_version output = Ok vs →
  (check_avbroot_version w s).1 = Ok tt ↔
  tuple_lt vs.2 AVBROOT_REQUIRED_VERSION = false.
Proof.
  intros Hout Hparse. unfold check_avbroot_version, bindM, log, liftM.
  rewrite Hout, Hparse. simpl.
  by destruct (tuple_lt vs.2 AVBROOT_REQUIRED_VERSION).
Qed.

(** X6. Which versions pass the check: a version of three components
    exactly when it is 3.19.0 or later in the order of tuples, and a
    version of two components exactly when it is later than 3.19, so that
    [3.19] itself, a proper prefix of the required version, is turned
    down. *)
Theorem version_threshold (w : World) (output version : string)
    (a b : Z) (rest : list Z) (s : FS) :
  version_stdout w = Ok output →
  parse_version output = Ok (version, a :: b :: rest) →
  (∀ c, rest = [c] →
        (check_avbroot_version w s).1 = Ok tt ↔
        3 < a ∨ (a = 3 ∧ 19 < b) ∨ (a = 3 ∧ b = 19 ∧ 0 ≤ c)) ∧
  (rest = [] →
   (check_avbroot_version w s).1 = Ok tt ↔ 3 < a ∨ (a = 3 ∧ 19 < b)).
Proof.
  intros Hout Hparse.
  pose proof (check_avbroot_version_ok w output _ s Hout Hparse) as Hok.
  simpl in Hok. split.
  - intros c ->. rewrite Hok. unfold AVBROOT_REQUIRED_VERSION. simpl.
    destruct (Z.eqb_spec a 3); [| rewrite Z.ltb_ge; lia].
    destruct (Z.eqb_spec b 19); [| rewrite Z.ltb_ge; lia].
    destruct (Z.eqb_spec c 0); [lia | rewrite Z.ltb_ge; lia].
  - intros ->. rewrite Hok. unfold AVBROOT_REQUIRED_VERSION. simpl.
    destruct (Z.eqb_spec a 3); [| rewrite Z.ltb_ge; lia].
    destruct (Z.eqb_spec b 19); [| rewrite Z.ltb_ge; lia].
    split; [done | lia].
Qed.

Lemma version_threshold_witness :
  (check_avbroot_version unpack_world empty_fs).1 = Ok tt ∧
  (check_avbroot_version
     (mkWorld elements (Ok "avbroot 3.19") (fun _ => false) unpacked resign
        true (fun _ => true) None true [] None) empty_fs).1 ≠ Ok tt.
Proof.
  split.
  - apply (proj1 (version_threshold unpack_world "avbroot 3.19.0" "3.19.0"
                    3 19 [0] empty_fs eq_refl eq_refl) 0 eq_refl). lia.
  - pose proof (proj2 (version_threshold
                         (mkWorld elements (Ok "avbroot 3.19") (fun _ => false)
                            unpacked resign true (fun _ => true) None true []
                            None)
                         "avbroot 3.19" "3.19" 3 19 [] empty_fs
                         eq_refl eq_refl) eq_refl) as H.
    intros Hok. apply H in Hok. lia.
Defined.

(** ** The order of the calls of a pack run *)

Lemma pack_image_calls w name v s :
  (calls (pack_image w name v s).2 = calls s ∧
   ∃ e, (pack_image w name v s).1 = Err e) ∨
  (∃ c, is_pack_of c name ∧ calls (pack_image w name v s).2 = calls s ++ [c]).
Proof.
  unfold pack_image, bindM.
  assert (Hprep : calls (prepare_image name v s).2 = calls s).
  { unfold prepare_image. destruct (startswith name "vbmeta"); [| done].
    unfold bindM, read_toml, liftM, write_toml.
    destruct (tomls s !! name) as [i0|]; [| done].
    by destruct (prepare_vbmeta v.1 v.2 i0). }
  destruct (prepare_image name v s) as [[u|e] s1]; simpl in *.
  2:{ left. split; [done | by eexists]. }
  assert (Hpack :
            (calls (avb_pack w name s1).2 = calls s1 ∧
             ∃ e, (avb_pack w name s1).1 = Err e) ∨
            (∃ c, is_pack_of c name ∧
                  calls (avb_pack w name s1).2 = calls s1 ++ [c])).
  { unfold avb_pack, bindM, read_toml, liftM.
    destruct (tomls s1 !! name) as [i|]; [| left; split; [done | by eexists]].
    destruct (avb_pack_extra_args i) as [args|e];
      [| left; split; [done | by eexists]].
    simpl. right. exists (CallAvbPack name i args).
    split; [by eexists _, _ |]. by destruct (avb_pack_out w name i args). }
  destruct (avb_pack w name s1) as [[[]|e] s2]; simpl in *.
  - destruct Hpack as [[_ [e [=]]] | (c & Hc & Hcalls)].
    right. exists c. split; [done |]. unfold read_toml.
    destruct (tomls s2 !! name); simpl; congruence.
  - destruct Hpack as [[Hc _] | (c & Hc & Hcalls)].
    + left. split; [congruence | by eexists].
    + right. exists c. split; [done | congruence].
Qed.

Lemma pack_loop_calls w order v s :
  ∃ k packs,
    calls (for_M (pack_image w) order v s).2 = calls s ++ packs ∧
    Forall2 is_pack_of packs (take k order) ∧
    (∀ v', (for_M (pack_image w) order v s).1 = Ok v' → k = length order).
Proof.
  revert v s. induction order as [|x order IH]; intros v s; simpl.
  { exists O, []. by rewrite app_nil_r. }
  unfold bindM. pose proof (pack_image_calls w x v s) as Hx.
  destruct (pack_image w x v s) as [[v1|e] s1]; simpl in *.
  - destruct Hx as [[_ [e [=]]] | (c & Hc & Hcalls)].
    destruct (IH v1 s1) as (k & packs & Hk & Hpacks & Hok).
    exists (S k), (c :: packs). split_and!.
    + rewrite Hk, Hcalls, <- app_assoc. done.
    + simpl. by constructor.
    + intros v' Hv'. simpl. f_equal. by apply (Hok v').
  - destruct Hx as [[Hcalls _] | (c & Hc & Hcalls)].
    + exists O, []. rewrite app_nil_r. split_and!; [done | constructor | done].
    + exists 1%nat, [c]. split_and!; [done | | done].
      simpl. rewrite take_0. by repeat constructor.
Qed.

Section pack_tail.
Variable P : call → Prop.
Hypothesis P_mkdir : ∀ d, P (CallMkdir d).
Hypothesis P_rename : ∀ a b, P (CallRename a b).
Hypothesis P_lp_pack : P CallLpPack.
Hypothesis P_rmtree : ∀ d, P (CallRmtree d).

Lemma pack_lp_partition_calls lp_name u :
  yields (extends P) (fun _ => True) (pack_lp_partition lp_name u).
Proof.
  intros s. split; [| done]. unfold pack_lp_partition.
  destruct (endswith lp_name "_a").
  - unfold bindM, get_fs. simpl.
    destruct (decide (removesuffix lp_name "_a" ∈ out_images s));
      [| apply extends_refl].
    simpl. eexists [_]. split; [reflexivity | by apply Forall_singleton].
  - destruct (endswith lp_name "_b"); [| apply extends_refl].
    by apply extends_same_calls.
Qed.

(** What follows the verification in a pack run: it creates directories,
    moves images and runs [avbroot lp pack]. *)
Lemma pack_tail_calls w :
  yields (extends P) (fun _ => True)
    (let* _ := log (CallMkdir "super/lp_images") in
     match input_lp_toml w with
     | None => raiseM (FileNotFoundError "super/lp.toml")
     | Some groups =>
         let* _ := for_M pack_lp_partition (concat groups) tt in
         let* _ := lp_pack w in
         let* _ := log (CallRmtree "super") in
         set_lp_images ∅
     end).
Proof.
  pose proof (extends_refl P) as Hrefl.
  pose proof (extends_trans P) as Htrans.
  apply (yields_bind _ Htrans (fun _ => True)); [by apply yields_log |].
  intros _ _. destruct (input_lp_toml w) as [groups|];
    [| by apply yields_raise].
  apply (yields_bind _ Htrans (fun _ => True)).
  { apply (yields_for_M _ Hrefl Htrans); [| done].
    intros x u _ _. apply pack_lp_partition_calls. }
  intros _ _. apply (yields_bind _ Htrans (fun _ => True)).
  { unfold lp_pack.
    apply (yields_bind _ Htrans (fun _ => True)); [by apply yields_log |].
    intros _ _. destruct (lp_pack_ok w);
      [by apply yields_ret | by apply yields_raise]. }
  intros _ _.
  apply (yields_bind _ Htrans (fun _ => True)); [by apply yields_log |].
  intros _ _. by apply yields_quiet.
Qed.

End pack_tail.

Lemma bindM_unfold {A B} (c : M A) (k : A → M B) s :
  bindM c k s
  = match c s with
    | (Ok a, s') => k a s'
    | (Err e, s') => (Err e, s')
    end.
Proof. reflexivity. Qed.

Lemma avb_verify_eq w s :
  avb_verify w s
  = (if avb_verify_ok w then Ok tt
     else Err (CalledProcessError ["avbroot"; "avb"; "verify"]),
     mkFS (calls s ++ [CallAvbVerify]) (tomls s) (out_images s) (lp_images s)).
Proof.
  unfold avb_verify, bindM, log. simpl. by destruct (avb_verify_ok w).
Qed.

Lemma pack_subcommand_eq w s :
  pack_subcommand w s
  = let s1 := mkFS (calls s ++ [CallMkdirOutput]) (tomls s) (out_images s)
                (lp_images s) in
    match avb_pack_order (iter_set w) (glob_avb_toml w s) with
    | Ok order =>
        (let* _ := for_M (pack_image w) order (∅, ∅) in
         let* _ := avb_verify w in
         let* _ := log (CallMkdir "super/lp_images") in
         match input_lp_toml w with
         | None => raiseM (FileNotFoundError "super/lp.toml")
         | Some groups =>
             let* _ := for_M pack_lp_partition (concat groups) tt in
             let* _ := lp_pack w in
             let* _ := log (CallRmtree "super") in
             set_lp_images ∅
         end) s1
    | Err e => (Err e, s1)
    end.
Proof. reflexivity. Qed.

(** X7. A pack run hands the images to [avbroot avb pack] in the pack
    order, each once and with nothing in between, starting right after it
    has made the output directory; it stops at the first image that
    fails. Whatever else it does (the verification of the chain first,
    then the LP image) it does only after every image of the order has
    been packed, and a run that succeeds has done it. *)
Theorem pack_follows_order (w : World) (s : FS) (order : list string) :
  avb_pack_order (iter_set w) (glob_avb_toml w s) = Ok order →
  ∃ k packs rest,
    calls (pack_subcommand w s).2
    = calls s ++ CallMkdirOutput :: packs ++ rest ∧
    Forall2 is_pack_of packs (take k order) ∧
    Forall no_pack rest ∧
    (rest = [] ∨ (k = length order ∧ ∃ rest', rest = CallAvbVerify :: rest')) ∧
    ((pack_subcommand w s).1 = Ok tt → rest ≠ []).
Proof.
  intros Horder. rewrite pack_subcommand_eq. cbv zeta. rewrite Horder.
  set (s1 := mkFS (calls s ++ [CallMkdirOutput]) (tomls s) (out_images s)
               (lp_images s)).
  rewrite bindM_unfold.
  destruct (pack_loop_calls w order (∅, ∅) s1) as (k & packs & Hk & Hpacks & Hok).
  destruct (for_M (pack_image w) order (∅, ∅) s1) as [[v|e] s2]; simpl in *.
  2:{ exists k, packs, []. rewrite app_nil_r, Hk, <- app_assoc.
      split_and!; [done | done | constructor | by left | done]. }
  rewrite bindM_unfold, avb_verify_eq.
  set (s3 := mkFS (calls s2 ++ [CallAvbVerify]) (tomls s2) (out_images s2)
               (lp_images s2)).
  destruct (avb_verify_ok w); simpl.
  2:{ exists k, packs, [CallAvbVerify]. simpl. rewrite Hk, <- !app_assoc.
      split_and!; [done | done | by repeat constructor | | done].
      right. split; [by apply (Hok v) | by exists []]. }
  destruct (pack_tail_calls no_pack (fun _ => I) (fun _ _ => I) I
              (fun _ => I) w s3) as [(rest' & Hrest & Hno) _].
  exists k, packs, (CallAvbVerify :: rest'). split_and!.
  - rewrite Hrest. simpl. rewrite Hk, <- !app_assoc. done.
  - done.
  - by constructor.
  - right. split; [by apply (Hok v) | by exists rest'].
  - done.
Qed.

Lemma pack_follows_order_witness :
  ∃ k packs rest,
    calls (pack_subcommand pack_world unpacked_fs).2
    = calls unpacked_fs ++ CallMkdirOutput :: packs ++ rest ∧
    Forall2 is_pack_of packs
      (take k ["boot"; "system"; "vbmeta_system"; "vbmeta"]) ∧
    Forall no_pack rest ∧
    (rest = [] ∨
     (k = length ["boot"; "system"; "vbmeta_system"; "vbmeta"] ∧
      ∃ rest', rest = CallAvbVerify :: rest')) ∧
    ((pack_subcommand pack_world unpacked_fs).1 = Ok tt → rest ≠ []).
Proof.
  apply (pack_follows_order pack_world unpacked_fs).
  vm_compute. reflexivity.
Defined.

(** ** Descriptors that name a partition the loop has not recorded *)

Lemma propagate_unrecorded ads pks (ds : list descriptor) i d c :
  ds !! i = Some d → partition_name_of d = Some c →
  pks !! c = None → ads !! c = None →
  ∃ c' j d',
    propagate ads pks ds = Err (KeyError c') ∧
    (j ≤ i)%nat ∧ ds !! j = Some d' ∧ partition_name_of d' = Some c' ∧
    pks !! c' = None ∧ ads !! c' = None ∧
    ∀ j0 d0 c0, (j0 < j)%nat → ds !! j0 = Some d0 →
                partition_name_of d0 = Some c0 →
                is_Some (pks !! c0) ∨ is_Some (ads !! c0).
Proof.
  revert i. induction ds as [|d0 ds IH]; intros i Hi Hc Hpk Had; [done |].
  simpl. unfold propagate_one at 1.
  destruct (partition_name_of d0) as [c0|] eqn:Hc0.
  - destruct (pks !! c0) as [pk|] eqn:Hpk0; simpl.
    + destruct i as [|i]; simpl in Hi; [simplify_eq |].
      destruct (IH i Hi Hc Hpk Had)
        as (c' & j & d' & Hrun & Hj & Hd' & Hc' & H1 & H2 & Hmin).
      exists c', (S j), d'. rewrite Hrun. split_and!; try done; [lia |].
      intros [|j0] d1 c1 Hlt Hd1 Hc1; simpl in Hd1.
      * simplify_eq. left. by eauto.
      * apply (Hmin j0 d1); [lia | done | done].
    + destruct (ads !! c0) as [dc|] eqn:Had0; simpl.
      * destruct i as [|i]; simpl in Hi; [simplify_eq |].
        destruct (IH i Hi Hc Hpk Had)
          as (c' & j & d' & Hrun & Hj & Hd' & Hc' & H1 & H2 & Hmin).
        exists c', (S j), d'. rewrite Hrun. split_and!; try done; [lia |].
        intros [|j0] d1 c1 Hlt Hd1 Hc1; simpl in Hd1.
        -- simplify_eq. right. by eauto.
        -- apply (Hmin j0 d1); [lia | done | done].
      * exists c0, O, d0. split_and!; try done; [lia |].
        intros j0 d1 c1 Hlt. lia.
  - simpl. destruct i as [|i]; simpl in Hi; [simplify_eq |].
    destruct (IH i Hi Hc Hpk Had)
      as (c' & j & d' & Hrun & Hj & Hd' & Hc' & H1 & H2 & Hmin).
    exists c', (S j), d'. rewrite Hrun. split_and!; try done; [lia |].
    intros [|j0] d1 c1 Hlt Hd1 Hc1; simpl in Hd1.
    + simplify_eq.
    + apply (Hmin j0 d1); [lia | done | done].
Qed.


(** X8. When the header of a vbmeta image has a descriptor that names a
    partition for which the pack loop has recorded neither a public key
    nor a descriptor, the loop raises [KeyError] for the first such
    descriptor of the header, before it rewrites [avb.toml] and before it
    runs [avbroot]: nothing has changed. *)
Theorem propagation_unrecorded_partition (w : World) (name : string)
    (v : gmap string descriptor * gmap string string) (s : FS)
    (info : AvbInfo) (i : nat) (d : descriptor) (c : string) :
  startswith name "vbmeta" = true → tomls s !! name = Some info →
  descriptors (header info) !! i = Some d → partition_name_of d = Some c →
  v.2 !! c = None → v.1 !! c = None →
  ∃ c' j d',
    pack_image w name v s = (Err (KeyError c'), s) ∧
    (j ≤ i)%nat ∧ descriptors (header info) !! j = Some d' ∧
    partition_name_of d' = Some c' ∧ v.2 !! c' = None ∧ v.1 !! c' = None ∧
    ∀ j0 d0 c0, (j0 < j)%nat → descriptors (header info) !! j0 = Some d0 →
                partition_name_of d0 = Some c0 →
                is_Some (v.2 !! c0) ∨ is_Some (v.1 !! c0).
Proof.
  intros Hvb Htoml Hi Hc Hpk Had.
  destruct (propagate_unrecorded v.1 v.2 _ i d c Hi Hc Hpk Had)
    as (c' & j & d' & Hrun & Hrest).
  exists c', j, d'. split; [| exact Hrest].
  unfold pack_image, prepare_image, bindM, read_toml, liftM, prepare_vbmeta.
  by rewrite Hvb, Htoml, Hrun.
Qed.

Lemma propagation_unrecorded_partition_witness :
  ∃ c' j d',
    pack_image pack_world "vbmeta_system" (∅, ∅) unpacked_fs
    = (Err (KeyError c'), unpacked_fs) ∧
    (j ≤ 1)%nat ∧ descriptors (header vbmeta_system_info) !! j = Some d' ∧
    partition_name_of d' = Some c' ∧
    (∅ : gmap string string) !! c' = None ∧
    (∅ : gmap string descriptor) !! c' = None ∧
    ∀ j0 d0 c0, (j0 < j)%nat →
                descriptors (header vbmeta_system_info) !! j0 = Some d0 →
                partition_name_of d0 = Some c0 →
                is_Some ((∅ : gmap string string) !! c0) ∨
                is_Some ((∅ : gmap string descriptor) !! c0).
Proof.
  apply (propagation_unrecorded_partition pack_world "vbmeta_system" (∅, ∅)
           unpacked_fs vbmeta_system_info 1 (mk_descriptor "Hash" "boot")
           "boot"); reflexivity.
Defined.

(** ** A vbmeta image that names itself *)





(** ** The directories of a successful unpack *)

Lemma bindM_ok_inv {A B} (c : M A) (k : A → M B) s b s' :
  bindM c k s = (Ok b, s') →
  ∃ a s1, c s = (Ok a, s1) ∧ k a s1 = (Ok b, s').
Proof.
  unfold bindM. destruct (c s) as [[a|e] s1]; [| done]. by eauto.
Qed.

Lemma for_M_ok_inv {A V} (I : V → FS → Prop) (Q : A → V → FS → Prop)
    (body : A → V → M V) l v s v' s' :
  (∀ x v s v1 s1, x ∈ l → I v s → body x v s = (Ok v1, s1) →
                  I v1 s1 ∧ Q x v1 s1) →
  (∀ x y v s v1 s1, y ∈ l → Q x v s → body y v s = (Ok v1, s1) → Q x v1 s1) →
  I v s → for_M body l v s = (Ok v', s') →
  I v' s' ∧ ∀ x, x ∈ l → Q x v' s'.
Proof.
  revert v s. induction l as [|y l IH]; intros v s Hbody Hstable Hv Hrun.
  - simpl in Hrun. injection Hrun as <- <-. split; [done |].
    intros x Hx. by apply elem_of_nil in Hx.
  - simpl in Hrun. apply bindM_ok_inv in Hrun as (v1 & s1 & Hy & Hrun).
    destruct (Hbody y v s v1 s1) as [Hv1 HQ];
      [apply list_elem_of_here | done | done |].
    assert (Htail : ∀ l0 v0 s0 v2 s2,
              l0 ⊆ l → for_M body l0 v0 s0 = (Ok v2, s2) →
              ∀ x, Q x v0 s0 → Q x v2 s2).
    { induction l0 as [|z l0 IH0]; intros v0 s0 v2 s2 Hsub Hr x Hx.
      - simpl in Hr. by injection Hr as <- <-.
      - simpl in Hr. apply bindM_ok_inv in Hr as (v3 & s3 & Hz & Hr).
        apply (IH0 v3 s3 v2 s2); [set_solver | done |].
        apply (Hstable x z v0 s0); [| done | done].
        apply list_elem_of_further, Hsub, list_elem_of_here. }
    destruct (IH v1 s1) as [Hv' Hall]; [| | done | done |].
    + intros x v0 s0 v2 s2 Hx. apply Hbody. by apply list_elem_of_further.
    + intros x z v0 s0 v2 s2 Hz. apply Hstable. by apply list_elem_of_further.
    + split; [done |]. intros x [-> | Hx]%elem_of_cons; [| by apply Hall].
      by apply (Htail l v1 s1 v' s').
Qed.

Lemma keeps_refl s : keeps s s.
Proof. by intros x. Qed.

Lemma keeps_trans s1 s2 s3 : keeps s1 s2 → keeps s2 s3 → keeps s1 s3.
Proof. intros H1 H2 x Hx. by apply H2, H1. Qed.

Lemma keeps_same s s' : tomls s' = tomls s → keeps s s'.
Proof. intros H x. by rewrite H. Qed.

Lemma keeps_insert s s' x i : tomls s' = <[x := i]> (tomls s) → keeps s s'.
Proof.
  intros H y Hy. rewrite H, lookup_insert_is_Some.
  destruct (decide (x = y)); [by left | by right].
Qed.

Lemma collect_descriptors_dom_spec ds acc p :
  p ∈ dom (collect_descriptors ds acc) ↔
  p ∈ dom acc ∨ ∃ d, d ∈ ds ∧ partition_name_of d = Some p.
Proof.
  induction ds as [|d ds IH] using rev_ind.
  - split; [by left |]. intros [H | (d & Hd & _)]; [done |].
    by apply elem_of_nil in Hd.
  - rewrite collect_descriptors_snoc.
    destruct (partition_name_of d) as [pn|] eqn:Hd.
    + rewrite dom_insert, elem_of_union, elem_of_singleton, IH. split.
      * intros [-> | [H | (d' & Hd' & Hp)]]; [| by left |].
        -- right. exists d. split; [| done]. apply elem_of_app. right.
           apply list_elem_of_here.
        -- right. exists d'. split; [| done]. apply elem_of_app. by left.
      * intros [H | (d' & Hd' & Hp)]; [by right; left |].
        apply elem_of_app in Hd' as [Hd' | Hd'].
        -- right. right. by exists d'.
        -- apply list_elem_of_singleton in Hd' as ->. left. congruence.
    + rewrite IH. split.
      * intros [H | (d' & Hd' & Hp)]; [by left |].
        right. exists d'. split; [| done]. apply elem_of_app. by left.
      * intros [H | (d' & Hd' & Hp)]; [by left |].
        apply elem_of_app in Hd' as [Hd' | Hd'].
        -- right. by exists d'.
        -- apply list_elem_of_singleton in Hd' as ->. congruence.
Qed.

Lemma unpack_vbmeta_ok w name acc s acc' s' :
  unpack_vbmeta w name acc s = (Ok acc', s') →
  ∃ info,
    avb_unpack_out w (InputImage (name +:+ ".img")) = Some info ∧
    acc' = collect_descriptors (descriptors (header info)) acc ∧
    tomls s' = <[name := info]> (tomls s).
Proof.
  unfold unpack_vbmeta, avb_unpack, bindM, log, read_toml, write_toml, retM,
    raiseM. simpl.
  destruct (avb_unpack_out w (InputImage (name +:+ ".img"))) as [i|];
    simpl; [| done].
  rewrite lookup_insert_eq. simpl. intros [= <- <-]. by exists i.
Qed.

Lemma unpack_rest_ok w name u s u' s' :
  unpack_rest w name u s = (Ok u', s') →
  ∃ info, tomls s' = <[name := info]> (tomls s).
Proof.
  unfold unpack_rest, avb_unpack, bindM, log, write_toml, raiseM. simpl.
  destruct (avb_unpack_out w (InputImage (name +:+ ".img"))) as [i|];
    simpl; [| done].
  intros [= _ <-]. by exists i.
Qed.

Lemma unpack_lp_partition_ok w ds lp_name names s names' s' :
  unpack_lp_partition w ds lp_name names s = (Ok names', s') →
  keeps s s' ∧
  ((endswith lp_name "_b" = true ∧ names' = names) ∨
   (endswith lp_name "_a" = true ∧
    names' = names ++ [removesuffix lp_name "_a"] ∧
    is_Some (tomls s' !! removesuffix lp_name "_a"))).
Proof.
  unfold unpack_lp_partition.
  destruct (endswith lp_name "_b") eqn:Hb.
  { unfold bindM, get_fs. simpl.
    destruct (lp_images s !! lp_name) as [size|]; [| done].
    destruct (decide (size ≠ 0)); [done |].
    intros [= <- <-]. split; [apply keeps_refl | by left]. }
  destruct (endswith lp_name "_a") eqn:Ha; simpl; [| done].
  unfold bindM, log, avb_is_valid, avb_unpack, liftM, write_toml, get_fs,
    set_lp_images, retM, raiseM. simpl.
  destruct (avb_info_ok w lp_name); simpl.
  - destruct (avb_unpack_out w (LpImage lp_name)) as [i|]; simpl; [| done].
    intros [= <- <-]. split; [by eapply keeps_insert |].
    right. simpl. rewrite lookup_insert_eq. by eauto.
  - destruct (ds !! removesuffix lp_name "_a") as [d|]; simpl; [| done].
    destruct (avb_generate_metadata d) as [i|e]; simpl; [| done].
    destruct (lp_images s !! lp_name) as [size|]; simpl; [| done].
    intros [= <- <-]. split; [by eapply keeps_insert |].
    right. simpl. rewrite lookup_insert_eq. by eauto.
Qed.

Lemma for_M_tomls {A V} (body : A → V → M V) l v s :
  (∀ x v s, tomls (body x v s).2 = tomls s) →
  tomls (for_M body l v s).2 = tomls s.
Proof.
  intros Hbody. revert v s. induction l as [|x l IH]; intros v s; [done |].
  simpl. rewrite bindM_unfold. pose proof (Hbody x v s) as Hx.
  destruct (body x v s) as [[v1|e] s1]; simpl in *; [| done].
  by rewrite IH.
Qed.

Lemma sparse_unpack_tomls w f s : tomls (sparse_unpack w f s).2 = tomls s.
Proof.
  unfold sparse_unpack, bindM, log. simpl. by destruct (sparse_unpack_ok w f).
Qed.

Lemma lp_unpack_tomls w s : tomls (lp_unpack w s).2 = tomls s.
Proof.
  unfold lp_unpack, bindM, log, set_lp_images, retM, raiseM. simpl.
  by destruct (lp_unpack_out w) as [[groups imgs]|].
Qed.

Lemma run_state {A} (c : M A) s a s' : c s = (Ok a, s') → s' = (c s).2.
Proof. by intros ->. Qed.

(** X10. After an unpack run that succeeds, every vbmeta image, every
    partition [_a] of the super image and every partition that a
    descriptor of an unpacked vbmeta header names has its directory with
    an [avb.toml], and no [avb.toml] that was there before is gone: the
    pack run that follows finds metadata for every name the vbmeta
    images refer to. *)
Theorem unpack_covers_references (w : World) (s s' : FS) :
  iter_ok (iter_set w) →
  unpack_subcommand w s = (Ok tt, s') →
  keeps s s' ∧
  (∀ v, v ∈ vbmeta_names w → is_Some (tomls s' !! v)) ∧
  (∀ groups imgs lp_name,
     lp_unpack_out w = Some (groups, imgs) → lp_name ∈ concat groups →
     endswith lp_name "_a" = true →
     is_Some (tomls s' !! removesuffix lp_name "_a")) ∧
  (∀ v info d p,
     v ∈ vbmeta_names w →
     avb_unpack_out w (InputImage (v +:+ ".img")) = Some info →
     d ∈ descriptors (header info) → partition_name_of d = Some p →
     is_Some (tomls s' !! p)).
Proof.
  intros Hiter Hrun. unfold unpack_subcommand in Hrun.
  apply bindM_ok_inv in Hrun as (u1 & s1 & H1 & Hrun). cbv beta zeta in Hrun.
  apply bindM_ok_inv in Hrun as (ds & s2 & H2 & Hrun).
  apply bindM_ok_inv in Hrun as (u3 & s3 & H3 & Hrun).
  apply bindM_ok_inv in Hrun as (u4 & s4 & H4 & Hrun).
  apply bindM_ok_inv in Hrun as (groups & s5 & H5 & Hrun).
  apply bindM_ok_inv in Hrun as (lp_names & s6 & H6 & Hrun).
  apply bindM_ok_inv in Hrun as (u7 & s7 & H7 & Hrun).
  apply bindM_ok_inv in Hrun as (u8 & s8 & H8 & Hrun).
  assert (K1 : keeps s s1).
  { apply run_state in H1 as ->. by apply keeps_same. }
  (* the vbmeta loop *)
  apply (for_M_ok_inv (fun _ s0 => keeps s1 s0)
           (fun x acc s0 =>
              is_Some (tomls s0 !! x) ∧
              ∀ info d p,
                avb_unpack_out w (InputImage (x +:+ ".img")) = Some info →
                d ∈ descriptors (header info) →
                partition_name_of d = Some p → p ∈ dom acc)) in H2
    as [K2 Q2]; [| | | apply keeps_refl].
  2:{ intros x acc s0 acc' s0' _ Hk Hx.
      apply unpack_vbmeta_ok in Hx as (info & Hout & -> & Htoml).
      split_and!.
      - eapply keeps_trans; [exact Hk | by eapply keeps_insert].
      - rewrite Htoml, lookup_insert_eq. by eauto.
      - intros info' d p Hout' Hd Hp. rewrite Hout in Hout'.
        injection Hout' as <-. apply collect_descriptors_dom_spec.
        right. by exists d. }
  2:{ intros x y acc s0 acc' s0' _ [Hsome Hdom] Hy.
      apply unpack_vbmeta_ok in Hy as (info & Hout & -> & Htoml). split.
      - by apply (keeps_insert s0 s0' y info).
      - intros info' d p Hout' Hd Hp. apply collect_descriptors_dom_spec.
        left. by apply (Hdom info' d). }
  assert (K3 : keeps s2 s3).
  { apply run_state in H3 as ->. apply keeps_same, for_M_tomls.
    intros f _ s0. apply sparse_unpack_tomls. }
  assert (K4 : keeps s3 s4).
  { apply run_state in H4 as ->. by apply keeps_same. }
  assert (K5 : keeps s4 s5).
  { pose proof (run_state _ _ _ _ H5) as ->.
    apply keeps_same, lp_unpack_tomls. }
  apply lp_unpack_ok in H5 as (imgs & Hout & _).
  (* the loop over the LP partitions *)
  apply (for_M_ok_inv
           (fun names s0 =>
              keeps s5 s0 ∧ ∀ n, n ∈ names → is_Some (tomls s0 !! n))
           (fun lp_name names _ =>
              endswith lp_name "_a" = true →
              removesuffix lp_name "_a" ∈ names)) in H6
    as [[K6 N6] Q6].
  2:{ intros x names s0 names' s0' _ [Hk Hn] Hx.
      apply unpack_lp_partition_ok in Hx
        as [Hkeep [[Hb ->] | (Ha & -> & Hsome)]].
      - split_and!.
        + by eapply keeps_trans.
        + intros n Hin. by apply Hkeep, Hn.
        + intros Ha. apply endswith_a_not_b in Ha. congruence.
      - split_and!.
        + by eapply keeps_trans.
        + intros n [Hin | ->%list_elem_of_singleton]%elem_of_app;
            [by apply Hkeep, Hn | done].
        + intros _. apply elem_of_app. right. apply list_elem_of_here. }
  2:{ intros x y names s0 names' s0' _ HQ Hy Ha.
      apply unpack_lp_partition_ok in Hy as [_ [[_ ->] | (_ & -> & _)]];
        [by apply HQ |].
      apply elem_of_app. left. by apply HQ. }
  2:{ split; [apply keeps_refl |]. intros n Hn. by apply elem_of_nil in Hn. }
  assert (K7 : keeps s6 s7).
  { apply run_state in H7 as ->. by apply keeps_same. }
  assert (K8 : keeps s7 s8).
  { apply run_state in H8 as ->. by apply keeps_same. }
  (* the loop over the remaining images *)
  apply (for_M_ok_inv (fun _ s0 => keeps s8 s0)
           (fun x _ s0 => is_Some (tomls s0 !! x))) in Hrun
    as [K9 Q9]; [| | | apply keeps_refl].
  2:{ intros x u s0 u' s0' _ Hk Hx.
      apply unpack_rest_ok in Hx as (info & Htoml). split.
      - eapply keeps_trans; [exact Hk | by eapply keeps_insert].
      - rewrite Htoml, lookup_insert_eq. by eauto. }
  2:{ intros x y u s0 u' s0' _ Hsome Hy.
      apply unpack_rest_ok in Hy as (info & Htoml).
      by apply (keeps_insert s0 s0' y info). }
  assert (K26 : keeps s2 s6).
  { do 3 (eapply keeps_trans; [eassumption |]). done. }
  assert (K6' : keeps s6 s').
  { do 2 (eapply keeps_trans; [eassumption |]). done. }
  assert (Hvb : ∀ v, v ∈ vbmeta_names w → is_Some (tomls s' !! v)).
  { intros v Hv. apply K6', K26. apply Q2.
    by apply Hiter, elem_of_list_to_set. }
  split_and!.
  - do 2 (eapply keeps_trans; [eassumption |]).
    eapply keeps_trans; [exact K26 | exact K6'].
  - exact Hvb.
  - intros groups' imgs' lp_name Hout' Hin Ha. rewrite Hout in Hout'.
    injection Hout' as <- <-. apply K6', N6. by apply Q6.
  - intros v info d p Hv Hinfo Hd Hp.
    assert (Hdom : p ∈ dom ds).
    { destruct (Q2 v) as [_ Hdom]; [by apply Hiter, elem_of_list_to_set |].
      by apply (Hdom info d). }
    destruct (decide (p ∈ vbmeta_names w)) as [Hpv | Hpv]; [by apply Hvb |].
    destruct (decide (p ∈ lp_names)) as [Hpl | Hpl]; [by apply K6', N6 |].
    apply Q9, Hiter. rewrite !elem_of_difference, !elem_of_list_to_set.
    done.
Qed.

Lemma unpack_covers_references_witness :
  keeps empty_fs (unpack_subcommand unpack_world empty_fs).2 ∧
  (∀ v, v ∈ vbmeta_names unpack_world →
        is_Some (tomls (unpack_subcommand unpack_world empty_fs).2 !! v)) ∧
  (∀ groups imgs lp_name,
     lp_unpack_out unpack_world = Some (groups, imgs) →
     lp_name ∈ concat groups → endswith lp_name "_a" = true →
     is_Some (tomls (unpack_subcommand unpack_world empty_fs).2
                !! removesuffix lp_name "_a")) ∧
  (∀ v info d p,
     v ∈ vbmeta_names unpack_world →
     avb_unpack_out unpack_world (InputImage (v +:+ ".img")) = Some info →
     d ∈ descriptors (header info) → partition_name_of d = Some p →
     is_Some (tomls (unpack_subcommand unpack_world empty_fs).2 !! p)).
Proof.
  apply (unpack_covers_references unpack_world empty_fs).
  - exact iter_ok_elements.
  - vm_compute. reflexivity.
Defined.

(** ** Partitions of the super image without AVB metadata *)

(** X11. A partition [_a] of the super image whose image holds no valid
    AVB metadata gets its metadata from the descriptor the vbmeta images
    recorded under its name. The loop first creates the directory and
    asks [avbroot]; then, with nothing recorded under the name, it raises
    [KeyError] with the name; with a descriptor that lacks
    [partition_name] or [type], [KeyError] with that key, the first of
    the two; in both cases no [avb.toml] is written. Otherwise it writes
    the template, whose only descriptor is the recorded one, and moves
    the image to [raw.img], so that it is no longer among the images of
    the super directory. *)
Theorem unpack_unprotected_partition (w : World)
    (ds : gmap string descriptor) (lp_name : string) (names : list string)
    (s : FS) :
  endswith lp_name "_a" = true → avb_info_ok w lp_name = false →
  ∃ s1,
    s1 = mkFS (calls s ++ [CallMkdir (removesuffix lp_name "_a");
                           CallAvbInfo lp_name])
           (tomls s) (out_images s) (lp_images s) ∧
    (ds !! removesuffix lp_name "_a" = None →
     unpack_lp_partition w ds lp_name names s
     = (Err (KeyError (removesuffix lp_name "_a")), s1)) ∧
    (∀ d, ds !! removesuffix lp_name "_a" = Some d →
          d !! "partition_name" = None →
          unpack_lp_partition w ds lp_name names s
          = (Err (KeyError "partition_name"), s1)) ∧
    (∀ d, ds !! removesuffix lp_name "_a" = Some d →
          is_Some (d !! "partition_name") → d !! "type" = None →
          unpack_lp_partition w ds lp_name names s
          = (Err (KeyError "type"), s1)) ∧
    (∀ d size,
       ds !! removesuffix lp_name "_a" = Some d →
       is_Some (d !! "partition_name") → is_Some (d !! "type") →
       lp_images s !! lp_name = Some size →
       ∃ info,
         avb_generate_metadata d = Ok info ∧
         descriptors (header info) = [d] ∧
         unpack_lp_partition w ds lp_name names s
         = (Ok (names ++ [removesuffix lp_name "_a"]),
            mkFS (calls s1 ++ [CallRename (lp_name +:+ ".img")
                                 (removesuffix lp_name "_a" +:+ "/raw.img")])
              (<[removesuffix lp_name "_a" := info]> (tomls s))
              (out_images s) (delete lp_name (lp_images s)))).
Proof.
  intros Ha Hvalid. eexists. split; [reflexivity |].
  pose proof (endswith_a_not_b _ Ha) as Hb.
  assert (Hrun : unpack_lp_partition w ds lp_name names s
                 = match ds !! removesuffix lp_name "_a" with
                   | None =>
                       (Err (KeyError (removesuffix lp_name "_a")),
                        mkFS (calls s ++ [CallMkdir (removesuffix lp_name "_a");
                                          CallAvbInfo lp_name])
                          (tomls s) (out_images s) (lp_images s))
                   | Some d =>
                       match avb_generate_metadata d with
                       | Err e =>
                           (Err e,
                            mkFS (calls s
                                  ++ [CallMkdir (removesuffix lp_name "_a");
                                      CallAvbInfo lp_name])
                              (tomls s) (out_images s) (lp_images s))
                       | Ok info =>
                           match lp_images s !! lp_name with
                           | None =>
                               (Err (FileNotFoundError (lp_name +:+ ".img")),
                                mkFS (calls s
                                      ++ [CallMkdir (removesuffix lp_name "_a");
                                          CallAvbInfo lp_name])
                                  (<[removesuffix lp_name "_a" := info]>
                                     (tomls s))
                                  (out_images s) (lp_images s))
                           | Some _ =>
                               (Ok (names ++ [removesuffix lp_name "_a"]),
                                mkFS ((calls s
                                       ++ [CallMkdir (removesuffix lp_name "_a");
                                           CallAvbInfo lp_name])
                                      ++ [CallRename (lp_name +:+ ".img")
                                            (removesuffix lp_name "_a"
                                             +:+ "/raw.img")])
                                  (<[removesuffix lp_name "_a" := info]>
                                     (tomls s))
                                  (out_images s)
                                  (delete lp_name (lp_images s)))
                           end
                       end
                   end).
  { unfold unpack_lp_partition. rewrite Hb, Ha. simpl.
    unfold bindM, log, avb_is_valid, liftM, write_toml, get_fs,
      set_lp_images, retM, raiseM. simpl. rewrite Hvalid. simpl.
    rewrite <- !app_assoc. simpl.
    destruct (ds !! removesuffix lp_name "_a") as [d|]; simpl; [| done].
    destruct (avb_generate_metadata d) as [info|e]; simpl; [| done].
    destruct (lp_images s !! lp_name); simpl; [| done].
    by rewrite <- !app_assoc. }
  rewrite Hrun. split_and!.
  - by intros ->.
  - intros d -> Hpn. unfold avb_generate_metadata. by rewrite Hpn.
  - intros d -> [pn Hpn] Hty. unfold avb_generate_metadata.
    by rewrite Hpn, Hty.
  - intros d size -> [pn Hpn] [ty Hty] ->.
    unfold avb_generate_metadata. rewrite Hpn, Hty. eexists.
    split; [reflexivity |]. split; [reflexivity |]. done.
Qed.

Lemma unpack_unprotected_partition_witness :
  ∃ s1,
    s1 = mkFS (calls empty_fs ++ [CallMkdir (removesuffix "system_a" "_a");
                                  CallAvbInfo "system_a"])
           (tomls empty_fs) (out_images empty_fs) (lp_images empty_fs) ∧
    ((∅ : gmap string descriptor) !! removesuffix "system_a" "_a" = None →
     unpack_lp_partition unpack_world ∅ "system_a" [] empty_fs
     = (Err (KeyError (removesuffix "system_a" "_a")), s1)) ∧
    (∀ d, (∅ : gmap string descriptor) !! removesuffix "system_a" "_a"
          = Some d →
          d !! "partition_name" = None →
          unpack_lp_partition unpack_world ∅ "system_a" [] empty_fs
          = (Err (KeyError "partition_name"), s1)) ∧
    (∀ d, (∅ : gmap string descriptor) !! removesuffix "system_a" "_a"
          = Some d →
          is_Some (d !! "partition_name") → d !! "type" = None →
          unpack_lp_partition unpack_world ∅ "system_a" [] empty_fs
          = (Err (KeyError "type"), s1)) ∧
    (∀ d size,
       (∅ : gmap string descriptor) !! removesuffix "system_a" "_a" = Some d →
       is_Some (d !! "partition_name") → is_Some (d !! "type") →
       lp_images empty_fs !! "system_a" = Some size →
       ∃ info,
         avb_generate_metadata d = Ok info ∧
         descriptors (header info) = [d] ∧
         unpack_lp_partition unpack_world ∅ "system_a" [] empty_fs
         = (Ok ([] ++ [removesuffix "system_a" "_a"]),
            mkFS (calls s1 ++ [CallRename ("system_a" +:+ ".img")
                                 (removesuffix "system_a" "_a" +:+ "/raw.img")])
              (<[removesuffix "system_a" "_a" := info]> (tomls empty_fs))
              (out_images empty_fs) (delete "system_a" (lp_images empty_fs)))).
Proof.
  apply (unpack_unprotected_partition unpack_world ∅ "system_a" [] empty_fs);
    reflexivity.
Defined.

(** ** The images of the new super image *)




(** ** The calls of a run *)

Lemma extends_bind_log P c0 {B} (K : unit → M B) s :
  (∀ s1, extends P s1 (K tt s1).2) →
  ∃ l, calls (bindM (log c0) K s).2 = calls s ++ c0 :: l ∧ Forall P l.
Proof.
  intros HK. rewrite bindM_unfold. unfold log. simpl.
  destruct (HK (mkFS (calls s ++ [c0]) (tomls s) (out_images s) (lp_images s)))
    as (l & Hl & HP).
  exists l. split; [| done]. rewrite Hl. simpl. by rewrite <- app_assoc.
Qed.

Lemma unpack_subcommand_calls w s :
  ∃ l, calls (unpack_subcommand w s).2 = calls s ++ CallMkdirOutput :: l ∧
       Forall unpack_call l.
Proof.
  pose proof (extends_refl unpack_call) as Hrefl.
  pose proof (extends_trans unpack_call) as Htrans.
  assert (Hunpack : ∀ img dir,
            yields (extends unpack_call) (fun _ => True) (avb_unpack w img dir)).
  { intros img dir. unfold avb_unpack.
    apply (yields_bind _ Htrans (fun _ => True)); [by apply yields_log |].
    intros _ _. destruct (avb_unpack_out w img);
      [by apply yields_quiet | by apply yields_raise]. }
  unfold unpack_subcommand. apply extends_bind_log. intros s1. cbv beta zeta.
  refine (proj1 ((_ : yields (extends unpack_call) (fun _ => True) _) s1)).
  apply (yields_bind _ Htrans (fun _ => True)).
  { apply (yields_for_M _ Hrefl Htrans); [| done].
    intros name acc _ _. unfold unpack_vbmeta.
    apply (yields_bind _ Htrans (fun _ => True)); [by apply yields_log |].
    intros _ _. apply (yields_bind _ Htrans (fun _ => True)); [done |].
    intros _ _.
    apply (yields_bind _ Htrans (fun _ => True));
      [by apply yields_read_toml |].
    intros i _. by apply yields_ret. }
  intros ds _. apply (yields_bind _ Htrans (fun _ => True)).
  { apply (yields_for_M _ Hrefl Htrans); [| done].
    intros f u _ _. unfold sparse_unpack.
    apply (yields_bind _ Htrans (fun _ => True)); [by apply yields_log |].
    intros _ _. destruct (sparse_unpack_ok w f);
      [by apply yields_ret | by apply yields_raise]. }
  intros _ _.
  apply (yields_bind _ Htrans (fun _ => True)); [by apply yields_log |].
  intros _ _. apply (yields_bind _ Htrans (fun _ => True)).
  { unfold lp_unpack.
    apply (yields_bind _ Htrans (fun _ => True)); [by apply yields_log |].
    intros _ _. destruct (lp_unpack_out w) as [[groups imgs]|];
      [| by apply yields_raise].
    apply (yields_bind _ Htrans (fun _ => True)); [by apply yields_quiet |].
    intros _ _. by apply yields_ret. }
  intros groups _. apply (yields_bind _ Htrans (fun _ => True)).
  { apply (yields_for_M _ Hrefl Htrans); [| done].
    intros lp_name names _ _. unfold unpack_lp_partition.
    destruct (endswith lp_name "_b").
    { apply (yields_bind _ Htrans (fun _ => True));
        [by apply yields_get_fs |].
      intros s0 _. destruct (lp_images s0 !! lp_name) as [size|];
        [| by apply yields_raise].
      destruct (decide (size ≠ 0)); [by apply yields_raise | by apply yields_ret]. }
    destruct (endswith lp_name "_a"); simpl; [| by apply yields_raise].
    apply (yields_bind _ Htrans (fun _ => True)); [by apply yields_log |].
    intros _ _. apply (yields_bind _ Htrans (fun _ => True)).
    { unfold avb_is_valid.
      apply (yields_bind _ Htrans (fun _ => True)); [by apply yields_log |].
      intros _ _. by apply yields_ret. }
    intros valid _. apply (yields_bind _ Htrans (fun _ => True));
      [| intros _ _; by apply yields_ret].
    destruct valid; [done |].
    destruct (ds !! removesuffix lp_name "_a") as [d|];
      [| by apply yields_raise].
    apply (yields_bind _ Htrans (fun _ => True)); [by apply yields_lift |].
    intros info _.
    apply (yields_bind _ Htrans (fun _ => True)); [by apply yields_quiet |].
    intros _ _.
    apply (yields_bind _ Htrans (fun _ => True)); [by apply yields_get_fs |].
    intros s0 _. destruct (lp_images s0 !! lp_name);
      [| by apply yields_raise].
    apply (yields_bind _ Htrans (fun _ => True)); [by apply yields_log |].
    intros _ _. by apply yields_quiet. }
  intros lp_names _.
  apply (yields_bind _ Htrans (fun _ => True)); [by apply yields_log |].
  intros _ _.
  apply (yields_bind _ Htrans (fun _ => True)); [by apply yields_quiet |].
  intros _ _. apply (yields_for_M _ Hrefl Htrans); [| done].
  intros name u _ _. unfold unpack_rest.
  apply (yields_bind _ Htrans (fun _ => True)); [by apply yields_log |].
  intros _ _. done.
Qed.

Lemma pack_subcommand_calls w s :
  ∃ l, calls (pack_subcommand w s).2 = calls s ++ CallMkdirOutput :: l ∧
       Forall pack_call l.
Proof.
  rewrite pack_subcommand_eq. cbv zeta.
  set (s1 := mkFS (calls s ++ [CallMkdirOutput]) (tomls s) (out_images s)
               (lp_images s)).
  cut (∃ l, calls (match avb_pack_order (iter_set w) (glob_avb_toml w s) with
                   | Ok order =>
                       (let* _ := for_M (pack_image w) order (∅, ∅) in
                        let* _ := avb_verify w in
                        let* _ := log (CallMkdir "super/lp_images") in
                        match input_lp_toml w with
                        | None => raiseM (FileNotFoundError "super/lp.toml")
                        | Some groups =>
                            let* _ := for_M pack_lp_partition (concat groups) tt in
                            let* _ := lp_pack w in
                            let* _ := log (CallRmtree "super") in
                            set_lp_images ∅
                        end) s1
                   | Err e => (Err e, s1)
                   end).2 = calls s1 ++ l ∧ Forall pack_call l).
  { intros (l & Hl & HP). exists l. split; [| done]. rewrite Hl.
    simpl. by rewrite <- app_assoc. }
  destruct (avb_pack_order (iter_set w) (glob_avb_toml w s)) as [order|e].
  2:{ exists []. by rewrite app_nil_r. }
  rewrite bindM_unfold.
  destruct (pack_loop_calls w order (∅, ∅) s1) as (k & packs & Hk & Hpacks & _).
  assert (HP : Forall pack_call packs).
  { clear -Hpacks. induction Hpacks as [|c n packs ns (i & a & ->) _ IH];
      by constructor. }
  destruct (for_M (pack_image w) order (∅, ∅) s1) as [[v|e] s2]; simpl in *.
  2:{ by exists packs. }
  rewrite bindM_unfold, avb_verify_eq.
  set (s3 := mkFS (calls s2 ++ [CallAvbVerify]) (tomls s2) (out_images s2)
               (lp_images s2)).
  destruct (avb_verify_ok w).
  2:{ exists (packs ++ [CallAvbVerify]). simpl. rewrite Hk, <- app_assoc.
      split; [done |]. apply Forall_app. split; [done |].
      by apply Forall_singleton. }
  destruct (pack_tail_calls pack_call (fun _ => I) (fun _ _ => I) I
              (fun _ => I) w s3) as [(rest & Hrest & Hno) _].
  exists (packs ++ CallAvbVerify :: rest). rewrite Hrest. simpl.
  rewrite Hk, <- !app_assoc. split; [done |].
  apply Forall_app. split; [done |]. by constructor.
Qed.

Lemma check_avbroot_version_run w s :
  (check_avbroot_version w s).2
  = mkFS (calls s ++ [CallVersion]) (tomls s) (out_images s) (lp_images s) ∧
  ((check_avbroot_version w s).1 = Ok tt →
   ∃ output vs,
     version_stdout w = Ok output ∧ parse_version output = Ok vs ∧
     tuple_lt vs.2 AVBROOT_REQUIRED_VERSION = false).
Proof.
  unfold check_avbroot_version, bindM, log, liftM. simpl.
  destruct (version_stdout w) as [output|e] eqn:Hout; simpl; [| done].
  destruct (parse_version output) as [vs|e] eqn:Hparse; simpl; [| done].
  destruct (tuple_lt vs.2 AVBROOT_REQUIRED_VERSION) eqn:Hlt; simpl; [done |].
  split; [done |]. intros _. by exists output, vs.
Qed.

(** X13. The command line is parsed before anything else: when
    [argparse] exits, the run ends with that exit, [avbroot] is never
    called and every file is left as it was. Every other run starts with
    the version query. It does anything more only when [avbroot]
    answered, the answer parsed as a version that is not below the
    required one, and a subcommand was named; what it then does starts
    with the creation of the output directory and consists of the calls
    of that subcommand only: an unpack run never packs, verifies or
    signs, a pack run never unpacks. A run that does nothing more leaves
    every file as it was, and a run that succeeds has done more. *)
Theorem main_calls (w : World) (cmd : command_line) (s : FS) :
  match parse_args cmd with
  | Err e => main w cmd s = (Err e, s)
  | Ok args_action =>
      ∃ rest,
        calls (main w cmd s).2 = calls s ++ CallVersion :: rest ∧
        (rest = [] →
         (main w cmd s).2
         = mkFS (calls s ++ [CallVersion]) (tomls s) (out_images s)
             (lp_images s)) ∧
        (rest ≠ [] →
         ∃ output vs act rest',
           version_stdout w = Ok output ∧ parse_version output = Ok vs ∧
           tuple_lt vs.2 AVBROOT_REQUIRED_VERSION = false ∧
           args_action = Some act ∧ rest = CallMkdirOutput :: rest' ∧
           Forall (action_call act) rest') ∧
        ((main w cmd s).1 = Ok tt → rest ≠ [])
  end.
Proof.
  destruct cmd as [args_action | code]; [| reflexivity].
  unfold main, parse_args. rewrite bindM_unfold. unfold liftM.
  rewrite bindM_unfold.
  destruct (check_avbroot_version_run w s) as [Hstate Hpass].
  destruct (check_avbroot_version w s) as [[[]|e] s0]; simpl in *; subst s0.
  2:{ exists []. by split_and!. }
  destruct (Hpass eq_refl) as (output & vs & Hout & Hparse & Hlt).
  set (s0 := mkFS (calls s ++ [CallVersion]) (tomls s) (out_images s)
               (lp_images s)).
  destruct args_action as [[|]|].
  - destruct (unpack_subcommand_calls w s0) as (l & Hl & HP).
    exists (CallMkdirOutput :: l). split_and!.
    + rewrite Hl. simpl. by rewrite <- app_assoc.
    + done.
    + intros _. by exists output, vs, Unpack, l.
    + done.
  - destruct (pack_subcommand_calls w s0) as (l & Hl & HP).
    exists (CallMkdirOutput :: l). split_and!.
    + rewrite Hl. simpl. by rewrite <- app_assoc.
    + done.
    + intros _. by exists output, vs, Pack, l.
    + done.
  - exists []. by split_and!.
Qed.

(** ** Printing and parsing a version *)

Lemma is_digit_spec c :
  is_digit c = true →
  isspace c = false ∧ Ascii.eqb c "."%char = false ∧
  (nat_of_ascii c <? 128)%nat = true ∧
  Ascii.eqb c "+"%char = false ∧ Ascii.eqb c "-"%char = false ∧
  ∃ d, digit_of c = Some d ∧ 0 ≤ d ≤ 9.
Proof.
  unfold is_digit, digit_of, isspace.
  destruct ((48 <=? nat_of_ascii c)%nat && (nat_of_ascii c <=? 57)%nat)
    eqn:Hc; [| done].
  intros _. apply andb_true_iff in Hc as [H1 H2].
  apply Nat.leb_le in H1, H2. split_and!.
  - apply orb_false_iff. split; apply andb_false_iff.
    + right. apply Nat.leb_gt. lia.
    + right. apply Nat.leb_gt. lia.
  - destruct (Ascii.eqb_spec c "."%char) as [-> | _]; [| done].
    vm_compute in H1. lia.
  - apply Nat.ltb_lt. lia.
  - destruct (Ascii.eqb_spec c "+"%char) as [-> | _]; [| done].
    vm_compute in H1. lia.
  - destruct (Ascii.eqb_spec c "-"%char) as [-> | _]; [| done].
    vm_compute in H1. lia.
  - eexists. split; [done |]. lia.
Qed.

Lemma pretty_N_char_digit (d : N) :
  (d < 10)%N → digit_of (pretty_N_char d) = Some (Z.of_N d).
Proof.
  intros Hd.
  assert (d = 0 ∨ d = 1 ∨ d = 2 ∨ d = 3 ∨ d = 4 ∨ d = 5 ∨ d = 6 ∨ d = 7
          ∨ d = 8 ∨ d = 9)%N as Hcases by lia.
  repeat (destruct Hcases as [-> | Hcases]; [reflexivity |]).
  by subst.
Qed.

Lemma int_digits_digit c s ad acc n d :
  digit_of c = Some d →
  int_digits (String c s) ad acc n = int_digits s true (10 * acc + d) (S n).
Proof. intros H. simpl. by rewrite H. Qed.

(** The digits [pretty_N_go] puts in front of [s], read back. *)
Lemma pretty_N_go_digits (x : N) :
  (0 < x)%N →
  ∃ k p, ∀ s,
    (∀ ad acc n,
       int_digits (pretty_N_go x s) ad acc n
       = int_digits s true (acc * p + Z.of_N x) (n + S k)) ∧
    String.length (pretty_N_go x s) = (S k + String.length s)%nat ∧
    (string_forall is_digit s = true →
     string_forall is_digit (pretty_N_go x s) = true).
Proof.
  induction (N.lt_wf_0 x) as [x _ IH]. intros Hx.
  assert (Hd : (x `mod` 10 < 10)%N) by (apply N.mod_lt; lia).
  pose proof (pretty_N_char_digit _ Hd) as Hchar.
  assert (Hdigit : is_digit (pretty_N_char (x `mod` 10)) = true).
  { unfold is_digit. by rewrite Hchar. }
  pose proof (N.div_mod x 10 ltac:(lia)) as Hdm.
  destruct (decide (x `div` 10 = 0)%N) as [Hz | Hnz].
  - exists O, 10. intros s. rewrite pretty_N_go_step by done.
    rewrite Hz, pretty_N_go_0. split_and!.
    + intros ad acc n. rewrite (int_digits_digit _ _ _ _ _ _ Hchar).
      f_equal; [lia | lia].
    + done.
    + intros Hs. simpl. by rewrite Hdigit, Hs.
  - destruct (IH (x `div` 10)%N) as (k & p & Hk); [apply N.div_lt; lia | lia |].
    exists (S k), (10 * p). intros s. rewrite pretty_N_go_step by done.
    destruct (Hk (String (pretty_N_char (x `mod` 10)) s)) as (Hint & Hlen & Hall).
    split_and!.
    + intros ad acc n. rewrite Hint.
      rewrite (int_digits_digit _ _ _ _ _ _ Hchar). f_equal; [lia | lia].
    + rewrite Hlen. simpl. lia.
    + intros Hs. apply Hall. simpl. by rewrite Hdigit, Hs.
Qed.

Lemma pretty_nonneg_digits (z : Z) :
  0 ≤ z →
  string_forall is_digit (pretty z) = true ∧
  (0 < String.length (pretty z))%nat ∧
  int_digits (pretty z) false 0 O = Some (z, String.length (pretty z)).
Proof.
  intros Hz. destruct z as [|p|p]; [| | lia].
  { split_and!; [reflexivity | simpl; lia | reflexivity]. }
  change (pretty (Z.pos p)) with (pretty_N_go (N.pos p) "").
  destruct (pretty_N_go_digits (N.pos p)) as (k & q & Hk); [lia |].
  destruct (Hk "") as (Hint & Hlen & Hall). split_and!.
  - by apply Hall.
  - rewrite Hlen. lia.
  - rewrite Hint, Hlen. simpl. do 2 f_equal. lia.
Qed.

Lemma string_forall_mono (P Q : ascii → bool) s :
  (∀ c, P c = true → Q c = true) →
  string_forall P s = true → string_forall Q s = true.
Proof.
  intros HPQ. induction s as [|c s IH]; [done |]. simpl.
  intros [Hc Hs]%andb_true_iff. by rewrite (HPQ c Hc), IH.
Qed.

Lemma is_ascii_forall s :
  is_ascii s = string_forall (fun c => (nat_of_ascii c <? 128)%nat) s.
Proof. induction s as [|c s IH]; [done |]. simpl. by rewrite IH. Qed.

Lemma rstrip_clean s :
  string_forall (fun c => negb (isspace c)) s = true → rstrip s = s.
Proof.
  induction s as [|c s IH]; [done |]. simpl.
  intros [Hc Hs]%andb_true_iff. rewrite (IH Hs).
  apply negb_true_iff in Hc. rewrite Hc. by destruct s.
Qed.

Lemma rstrip_newline s : rstrip (s +:+ newline) = rstrip s.
Proof.
  induction s as [|c s IH]; [done |].
  rewrite string_app_cons. simpl. by rewrite IH.
Qed.

Lemma split_dot_clean s :
  string_forall (fun c => negb (Ascii.eqb c "."%char)) s = true →
  split_dot s = [s].
Proof.
  induction s as [|c s IH]; [done |]. simpl.
  intros [Hc Hs]%andb_true_iff. apply negb_true_iff in Hc.
  by rewrite Hc, (IH Hs).
Qed.

Lemma split_dot_app x rest :
  string_forall (fun c => negb (Ascii.eqb c "."%char)) x = true →
  split_dot (x +:+ String "."%char rest) = x :: split_dot rest.
Proof.
  induction x as [|c x IH]; [done |]. simpl.
  intros [Hc Hs]%andb_true_iff. apply negb_true_iff in Hc.
  rewrite ?string_app_cons. simpl. by rewrite Hc, (IH Hs).
Qed.

Lemma removeprefix_app (pre x : string) : removeprefix (pre +:+ x) pre = x.
Proof.
  unfold removeprefix, startswith.
  assert (Hpre : String.prefix pre (pre +:+ x) = true).
  { induction pre as [|c pre IH]; [by destruct x |].
    rewrite string_app_cons. simpl. by destruct (ascii_dec c c). }
  rewrite Hpre, string_length_app.
  replace (String.length pre + String.length x - String.length pre)%nat
    with (String.length x) by lia.
  induction pre as [|c pre IH]; [apply substring_full |].
  rewrite string_app_cons. simpl. apply IH.
  clear -Hpre. rewrite string_app_cons in Hpre. simpl in Hpre.
  by destruct (ascii_dec c c).
Qed.

Lemma digits_clean s :
  string_forall is_digit s = true →
  string_forall (fun c => negb (isspace c)) s = true ∧
  string_forall (fun c => negb (Ascii.eqb c "."%char)) s = true ∧
  string_forall is_version_char s = true.
Proof.
  intros Hs. split_and!; (eapply string_forall_mono; [| exact Hs]);
    intros c Hc; destruct (is_digit_spec c Hc) as (H1 & H2 & _).
  - by rewrite H1.
  - by rewrite H2.
  - unfold is_version_char. by rewrite Hc.
Qed.

(** What [int] skips, [str.strip] removes as well. *)
Lemma is_int_space_isspace c : isspace c = false → is_int_space c = false.
Proof.
  unfold isspace, is_int_space. intros H.
  apply orb_false_iff in H as [H1 H2]. rewrite H1. simpl.
  apply Nat.eqb_neq. intros Heq. rewrite Heq in H2. discriminate.
Qed.

Lemma int_rstrip_clean s :
  string_forall (fun c => negb (isspace c)) s = true → int_rstrip s = s.
Proof.
  induction s as [|c s IH]; [done |]. simpl.
  intros [Hc Hs]%andb_true_iff. rewrite (IH Hs).
  apply negb_true_iff, is_int_space_isspace in Hc. rewrite Hc. by destruct s.
Qed.

Lemma py_int_pretty (z : Z) :
  0 ≤ z → (String.length (pretty z) ≤ 4300)%nat → py_int (pretty z) = Ok z.
Proof.
  intros Hz Hlen.
  destruct (pretty_nonneg_digits z Hz) as (Hdigits & Hpos & Hint).
  destruct (digits_clean _ Hdigits) as (Hspace & _ & _).
  unfold py_int, int_strip.
  destruct (pretty z) as [|c s] eqn:Hp; [simpl in Hpos; lia |].
  simpl in Hdigits. apply andb_true_iff in Hdigits as [Hc _].
  destruct (is_digit_spec c Hc) as (Hsp & _ & _ & Hplus & Hminus & _).
  assert (Hl : int_lstrip (String c s) = String c s)
    by (simpl; by rewrite (is_int_space_isspace _ Hsp)).
  rewrite Hl, (int_rstrip_clean _ Hspace), Hplus, Hminus, Hint.
  assert (Hn : (4300 <? String.length (String c s))%nat = false)
    by (apply Nat.ltb_ge; lia).
  rewrite Hn. f_equal. lia.
Qed.

Lemma for_each_py_int (l acc : list Z) :
  Forall (fun z => 0 ≤ z ∧ (String.length (pretty z) ≤ 4300)%nat) l →
  for_each (fun w acc => z ← py_int w; Ok (acc ++ [z])) (pretty <$> l) acc
  = Ok (acc ++ l).
Proof.
  intros Hl. revert acc. induction Hl as [|z l [Hz Hlen] _ IH]; intros acc.
  - by rewrite app_nil_r.
  - simpl. rewrite (py_int_pretty z Hz Hlen). simpl.
    rewrite IH, <- app_assoc. done.
Qed.

Lemma print_version_cons z l :
  l ≠ [] →
  print_version (z :: l) = pretty z +:+ String "."%char (print_version l).
Proof. intros Hl. unfold print_version. simpl. by destruct l. Qed.

Lemma print_version_spec (l : list Z) :
  l ≠ [] → Forall (fun z => 0 ≤ z) l →
  string_forall is_version_char (print_version l) = true ∧
  split_dot (print_version l) = pretty <$> l ∧
  ∃ c rest, print_version l = String c rest ∧ is_digit c = true.
Proof.
  intros Hne Hl. induction Hl as [|z l Hz Hl IH]; [done |].
  destruct (pretty_nonneg_digits z Hz) as (Hdigits & Hpos & _).
  destruct (digits_clean _ Hdigits) as (_ & Hdot & Hchars).
  assert (Hfirst : ∀ rest, ∃ c rest',
            pretty z +:+ rest = String c rest' ∧ is_digit c = true).
  { intros rest. destruct (pretty z) as [|c s]; [simpl in Hpos; lia |].
    simpl in Hdigits. apply andb_true_iff in Hdigits as [Hc _].
    exists c, (s +:+ rest). by rewrite string_app_cons. }
  destruct l as [|z' l].
  - unfold print_version. simpl. split_and!; [done | by apply split_dot_clean |].
    destruct (Hfirst "") as (c & rest & Heq & Hc). exists c, rest.
    split; [| done]. rewrite <- Heq. clear. induction (pretty z) as [|a s IH];
      [done |]. rewrite string_app_cons. by rewrite <- IH.
  - destruct IH as (Hchars' & Hsplit & _); [done |].
    rewrite print_version_cons by done. split_and!.
    + rewrite string_forall_app. simpl. by rewrite Hchars, Hchars'.
    + rewrite split_dot_app by done. by rewrite Hsplit.
    + apply Hfirst.
Qed.

(** X14. What the script prints as a version it also parses: the output
    [avbroot ] followed by non-negative numbers joined by dots (each of at
    most 4300 digits, the limit of [int]) and a line feed is parsed to
    these numbers and to the version string without the line feed, and
    the check then accepts it exactly when the numbers are not below the
    required version in the order of tuples. *)
Theorem version_round_trip (w : World) (l : list Z) (s : FS) :
  l ≠ [] →
  Forall (fun z => 0 ≤ z ∧ (String.length (pretty z) ≤ 4300)%nat) l →
  parse_version ("avbroot " +:+ print_version l +:+ newline)
  = Ok (print_version l, l) ∧
  (version_stdout w = Ok ("avbroot " +:+ print_version l +:+ newline) →
   (check_avbroot_version w s).1 = Ok tt ↔
   tuple_lt l AVBROOT_REQUIRED_VERSION = false).
Proof.
  intros Hne Hl.
  assert (Hparse : parse_version ("avbroot " +:+ print_version l +:+ newline)
                   = Ok (print_version l, l)).
  { destruct (print_version_spec l Hne) as (Hchars & Hsplit & c & rest & Hv & Hc).
    { eapply Forall_impl; [exact Hl |]. by intros z [Hz _]. }
    unfold parse_version. rewrite removeprefix_app.
    assert (Hascii : is_ascii (print_version l +:+ newline) = true).
    { rewrite is_ascii_forall, string_forall_app. apply andb_true_iff.
      split; [| done]. eapply string_forall_mono; [| exact Hchars].
      intros a Ha. unfold is_version_char in Ha.
      apply orb_true_iff in Ha as [Ha | Ha].
      - by destruct (is_digit_spec a Ha) as (_ & _ & H3 & _).
      - apply Ascii.eqb_eq in Ha as ->. done. }
    assert (Hstrip : strip (print_version l +:+ newline) = print_version l).
    { unfold strip.
      assert (Hls : lstrip (print_version l +:+ newline)
                    = print_version l +:+ newline).
      { rewrite Hv, string_app_cons. simpl.
        by destruct (is_digit_spec c Hc) as (-> & _). }
      rewrite Hls, rstrip_newline. apply rstrip_clean.
      eapply string_forall_mono; [| exact Hchars].
      intros a Ha. unfold is_version_char in Ha.
      apply orb_true_iff in Ha as [Ha | Ha].
      - by destruct (is_digit_spec a Ha) as (-> & _).
      - apply Ascii.eqb_eq in Ha as ->. done. }
    rewrite Hascii, Hstrip, Hsplit, (for_each_py_int l [] Hl). done. }
  split; [exact Hparse |]. intros Hout.
  apply (check_avbroot_version_ok w _ (print_version l, l) s Hout Hparse).
Qed.

Lemma version_round_trip_witness :
  parse_version ("avbroot " +:+ print_version [3; 19; 0] +:+ newline)
  = Ok (print_version [3; 19; 0], [3; 19; 0]) ∧
  (version_stdout unpack_world
   = Ok ("avbroot " +:+ print_version [3; 19; 0] +:+ newline) →
   (check_avbroot_version unpack_world empty_fs).1 = Ok tt ↔
   tuple_lt [3; 19; 0] AVBROOT_REQUIRED_VERSION = false).
Proof.
  apply (version_round_trip unpack_world [3; 19; 0] empty_fs).
  - done.
  - repeat constructor; vm_compute; by intros [=].
Defined.

(** ** The images that refer to nothing *)

Lemma static_order_loop_S fuel s out :
  graphlib.static_order_loop (S fuel) s out
  = (active ← graphlib.is_active s;
     if active : bool then
       '(node_group, s1) ← graphlib.get_ready s;
       s2 ← graphlib.done node_group s1;
       graphlib.static_order_loop fuel s2 (out ++ node_group)
     else Ok out).
Proof. reflexivity. Qed.

Lemma static_order_loop_prefix fuel s out order :
  graphlib.static_order_loop fuel s out = Ok order → ∃ rest, order = out ++ rest.
Proof.
  revert s out. induction fuel as [|fuel IH]; intros s out; [done |].
  rewrite static_order_loop_S.
  destruct (graphlib.is_active s) as [[|]|e]; simpl; [| | done].
  - destruct (graphlib.get_ready s) as [[node_group s1]|e]; simpl; [| done].
    destruct (graphlib.done node_group s1) as [s2|e]; simpl; [| done].
    intros (rest & ->)%IH. exists (node_group ++ rest). by rewrite app_assoc.
  - intros [= <-]. exists []. by rewrite app_nil_r.
Qed.

(** The first nodes [static_order] yields are the nodes without
    predecessors, all of them. *)
Lemma static_order_first G order :
  graphlib.static_order G = Ok order →
  ∃ first rest,
    order = first ++ rest ∧
    ∀ k, k ∈ first ↔ node_of G k ∧ ∀ p, ¬ dep G k p.
Proof.
  unfold graphlib.static_order.
  destruct (init_spec G) as (s0 & Hinit & Hinv & Hready & _).
  rewrite Hinit. simpl. unfold graphlib.prepare. rewrite Hready.
  set (m := graphlib.node2info s0) in *.
  set (keys := graphlib.node2info_keys s0) in *.
  set (ready0 := graphlib.node <$> filter (fun i => graphlib.npredecessors i = 0)
                                     (graphlib.values m keys)).
  destruct Hinv as (Hnd & Hdom & Hnode & Hedge & Hnodes & _ & Hcount).
  assert (Hfirst : ∀ k, k ∈ ready0 ↔ node_of G k ∧ ∀ p, ¬ dep G k p).
  { intros k. destruct (ready_spec m keys Hnd Hdom Hnode) as [_ Hr].
    fold ready0 in Hr. rewrite Hr. split.
    - intros (i & Hi & Hz). split; [apply Hnodes, Hdom; by eauto |].
      intros p Hdep. rewrite (Hcount k i Hi) in Hz.
      assert (Hp : p ∈ keys) by (apply Hnodes; right; by exists k).
      pose proof (pending_le (succs m) keys [] k p Hp (not_elem_of_nil p)) as Hle.
      assert (Hocc : (0 < occ k (succs m p))%nat) by (by apply occ_pos, Hedge).
      lia.
    - intros [Hk Hno]. apply Hnodes, Hdom in Hk as [i Hi]. exists i.
      split; [done |]. rewrite (Hcount k i Hi), pending_zero; [done |].
      intros p _ _ Hin. by apply Hedge, Hno in Hin. }
  destruct (graphlib.find_cycle _) as [[[|n c]|]|e]; simpl; try done.
  - rewrite static_order_loop_S. unfold graphlib.is_active. simpl.
    destruct (bool_decide (graphlib.nfinished s0 < graphlib.npassedout s0)
              || bool_decide (ready0 ≠ [])) eqn:Hactive; simpl.
    + unfold graphlib.get_ready. simpl.
      destruct (for_each _ ready0 m) as [m'|e]; simpl; [| done].
      destruct (graphlib.done ready0 _) as [s2|e]; simpl; [| done].
      intros (rest & ->)%static_order_loop_prefix. by exists ready0, rest.
    + intros [= <-]. apply orb_false_iff in Hactive as [_ Hempty].
      apply bool_decide_eq_false in Hempty. apply dec_stable in Hempty.
      exists ready0, []. rewrite app_nil_r. by split.
  - rewrite static_order_loop_S. unfold graphlib.is_active. simpl.
    destruct (bool_decide (graphlib.nfinished s0 < graphlib.npassedout s0)
              || bool_decide (ready0 ≠ [])) eqn:Hactive; simpl.
    + unfold graphlib.get_ready. simpl.
      destruct (for_each _ ready0 m) as [m'|e]; simpl; [| done].
      destruct (graphlib.done ready0 _) as [s2|e]; simpl; [| done].
      intros (rest & ->)%static_order_loop_prefix. by exists ready0, rest.
    + intros [= <-]. apply orb_false_iff in Hactive as [_ Hempty].
      apply bool_decide_eq_false in Hempty. apply dec_stable in Hempty.
      exists ready0, []. rewrite app_nil_r. by split.
Qed.

(** X15. The pack order starts with the images that refer to no other
    image, all of them: every image whose descriptors name nothing but
    the image itself is packed before every image that names another
    one. *)
Theorem unreferencing_images_first (iter : gset string → list string)
    (parts : list (string * AvbInfo)) (order : list string) :
  iter_ok iter → avb_pack_order iter parts = Ok order →
  (∃ first rest,
     order = first ++ rest ∧
     ∀ k, k ∈ first ↔ k ∈ order ∧ ∀ p, ¬ refers parts k p) ∧
  (∀ i j n p q,
     order !! i = Some n → order !! j = Some p →
     (∀ x, ¬ refers parts n x) → refers parts p q → (i < j)%nat).
Proof.
  intros Hiter Horder.
  pose proof (avb_pack_order_spec iter parts Hiter) as Hspec.
  rewrite Horder in Hspec. destruct Hspec as (_ & Hnodup & Hnodes & _).
  destruct (static_order_first _ _ Horder) as (first & rest & -> & Hfirst).
  assert (Hfirst' : ∀ k, k ∈ first ↔
                         k ∈ first ++ rest ∧ ∀ p, ¬ refers parts k p).
  { intros k. rewrite Hfirst, Hnodes, (node_of_graph_items iter parts k Hiter).
    by setoid_rewrite (dep_graph_items iter parts k _ Hiter). }
  split; [by exists first, rest |].
  intros i j n p q Hi Hj Hn Hp.
  assert (Hin : n ∈ first).
  { apply Hfirst'. split; [by eapply list_elem_of_lookup_2 | done]. }
  assert (Hnp : p ∉ first).
  { intros [_ Hno]%Hfirst'. by apply (Hno q). }
  apply list_elem_of_lookup_1 in Hin as [i' Hi'].
  assert (i = i') as ->.
  { apply (NoDup_lookup _ _ _ n Hnodup Hi). by apply lookup_app_l_Some. }
  apply lookup_lt_Some in Hi'.
  destruct (decide (j < length first)%nat) as [Hlt | Hge]; [| lia].
  rewrite lookup_app_l in Hj by done.
  destruct Hnp. by eapply list_elem_of_lookup_2.
Qed.

Lemma unreferencing_images_first_witness :
  (∃ first rest,
     ["system"; "boot"; "vbmeta_system"] = first ++ rest ∧
     ∀ k, k ∈ first ↔
          k ∈ ["system"; "boot"; "vbmeta_system"] ∧
          ∀ p, ¬ refers listed_parts k p) ∧
  (∀ i j n p q,
     ["system"; "boot"; "vbmeta_system"] !! i = Some n →
     ["system"; "boot"; "vbmeta_system"] !! j = Some p →
     (∀ x, ¬ refers listed_parts n x) → refers listed_parts p q →
     (i < j)%nat).
Proof.
  apply (unreferencing_images_first elements listed_parts).
  - exact iter_ok_elements.
  - vm_compute. reflexivity.
Defined.
